(** * A proof-of-work demonstration ledger: model and verification

    The development embeds the ledger engine of [server.js]: the transaction
    serializer and identifier, the Merkle root, the UTXO pool, block headers
    and the nonce search, the two chain validators (the one run on the live
    chain and the one run on an uploaded file), the plain-text export and
    its parser, and the generator of the demonstration transactions.

    Conventions of the model.
    - A JavaScript string is a [string]: the sequence of its UTF-8 bytes,
      which is what [crypto] hashes and what [Buffer.from] decodes.
    - A [Buffer] is a [list Z] of bytes in [0, 256).
    - A JavaScript number is modelled on the integers ([Z]); the loosely
      typed records of an uploaded file use [number], the integers with
      [NaN].  Fractions, infinities and magnitudes above 2^53 are outside
      the model.
    - An exception is a value of [error]; code that can raise lives in the
      monad [M].
    - [new Date()], [Math.random()] and [crypto.randomBytes] are inputs.
    - Unbounded loops take a [fuel] argument and return [None] when it runs
      out. *)

From Stdlib Require Import ZArith List String Ascii Bool Lia Arith Permutation.
From Stdlib Require Uint63.
Import ListNotations.

Set Implicit Arguments.

Local Open Scope string_scope.
Local Open Scope list_scope.
Local Open Scope Z_scope.

(** String concatenation, kept apart from list append. *)
Infix "+++" := String.append (right associativity, at level 60).

(* ================================================================= *)
(** * Part I: definitions *)
(* ================================================================= *)

(* ----------------------------------------------------------------- *)
(** ** Buffers and strings *)

Definition buffer := list Z.

(** The bytes of a string ([Buffer.from(s, 'utf8')], also what
    [hash.update(s)] feeds to the digest). *)
Fixpoint bytes_of_string (s : string) : buffer :=
  match s with
  | EmptyString => []
  | String c s' => Z.of_N (N_of_ascii c) :: bytes_of_string s'
  end.

Definition hex_digit (n : Z) : ascii :=
  if n <? 10 then ascii_of_N (Z.to_N (48 + n))
  else ascii_of_N (Z.to_N (87 + n)).

(** [buf.toString('hex')]: two lower-case digits per byte. *)
Fixpoint hex_of_bytes (b : buffer) : string :=
  match b with
  | [] => EmptyString
  | x :: b' =>
      String (hex_digit (Z.shiftr (Z.land x 255) 4))
        (String (hex_digit (Z.land x 15)) (hex_of_bytes b'))
  end.

(** The value of a hexadecimal digit, in either case. *)
Definition hex_value (c : ascii) : option Z :=
  let n := Z.of_N (N_of_ascii c) in
  if (48 <=? n) && (n <=? 57) then Some (n - 48)
  else if (97 <=? n) && (n <=? 102) then Some (n - 87)
  else if (65 <=? n) && (n <=? 70) then Some (n - 55)
  else None.

(** [Buffer.from(s, 'hex')]: pairs of digits are decoded from the left and
    decoding stops, without an error, at the first pair that is not two
    hexadecimal digits; a trailing single character is dropped. *)
Fixpoint bytes_of_hex (s : string) : buffer :=
  match s with
  | String c1 (String c2 s') =>
      match hex_value c1, hex_value c2 with
      | Some h, Some l => (16 * h + l) :: bytes_of_hex s'
      | _, _ => []
      end
  | _ => []
  end.

(** [s.startsWith(p)]. *)
Fixpoint startsWith (p s : string) : bool :=
  match p, s with
  | EmptyString, _ => true
  | String a p', String b s' => Ascii.eqb a b && startsWith p' s'
  | String _ _, EmptyString => false
  end.

(** ['0'.repeat(n)] and its kin. *)
Fixpoint repeat_string (s : string) (n : nat) : string :=
  match n with
  | O => EmptyString
  | S n' => s +++ repeat_string s n'
  end.

(** Decimal rendering of an integer, as a template literal renders an
    integral number. *)
Fixpoint digits_of_pos (fuel : nat) (n : Z) (acc : string) : string :=
  match fuel with
  | O => acc
  | S fuel' =>
      let acc' := String (ascii_of_N (Z.to_N (48 + n mod 10))) acc in
      if n / 10 =? 0 then acc' else digits_of_pos fuel' (n / 10) acc'
  end.

Definition string_of_Z (n : Z) : string :=
  if n <? 0 then String "-" (digits_of_pos (Z.to_nat (Z.log2 (- n)) + 1) (- n) "")
  else digits_of_pos (Z.to_nat (Z.log2 n) + 1) n "".

(* ----------------------------------------------------------------- *)
(** ** SHA-256 (FIPS 180-4), the digest behind [crypto.createHash] *)

Module SHA256.

Import Uint63.
Local Open Scope uint63_scope.

(** A 32-bit word is held in a 63-bit machine integer, reduced after
    every operation that can leave the 32 bits. *)
Definition word := int.

Definition w32 (x : word) : word := x land 0xffffffff.
Definition add32 (x y : word) : word := w32 (x + y).
Definition rotr (n : int) (x : word) : word := (x >> n) lor w32 (x << (32 - n)).
Definition shr (n : int) (x : word) : word := x >> n.

Definition Ch (x y z : word) : word :=
  (x land y) lxor ((x lxor 0xffffffff) land z).
Definition Maj (x y z : word) : word :=
  ((x land y) lxor (x land z)) lxor (y land z).
Definition Sig0 (x : word) : word := (rotr 2 x lxor rotr 13 x) lxor rotr 22 x.
Definition Sig1 (x : word) : word := (rotr 6 x lxor rotr 11 x) lxor rotr 25 x.
Definition sig0 (x : word) : word := (rotr 7 x lxor rotr 18 x) lxor shr 3 x.
Definition sig1 (x : word) : word := (rotr 17 x lxor rotr 19 x) lxor shr 10 x.

(** Four bytes, big end first, as one word. *)
Definition be_word (b : buffer) : word :=
  fold_left (fun acc x => (acc << 8) lor (of_Z x land 0xff)) b 0.

(** The words of a buffer, four bytes each. *)
Fixpoint words (n : nat) (b : buffer) : list word :=
  match n with
  | O => []
  | S n' => be_word (firstn 4 b) :: words n' (skipn 4 b)
  end.

(** The round constants (the fractional parts of the cube roots of the
    first sixty-four primes), eight words a row. *)
Definition K : list word :=
  Eval vm_compute in
    words 64 (bytes_of_hex
    ("428a2f9871374491b5c0fbcfe9b5dba53956c25b59f111f1923f82a4ab1c5ed5" +++
     "d807aa9812835b01243185be550c7dc372be5d7480deb1fe9bdc06a7c19bf174" +++
     "e49b69c1efbe47860fc19dc6240ca1cc2de92c6f4a7484aa5cb0a9dc76f988da" +++
     "983e5152a831c66db00327c8bf597fc7c6e00bf3d5a7914706ca635114292967" +++
     "27b70a852e1b21384d2c6dfc53380d13650a7354766a0abb81c2c92e92722c85" +++
     "a2bfe8a1a81a664bc24b8b70c76c51a3d192e819d6990624f40e3585106aa070" +++
     "19a4c1161e376c082748774c34b0bcb5391c0cb34ed8aa4a5b9cca4f682e6ff3" +++
     "748f82ee78a5636f84c878148cc7020890befffaa4506cebbef9a3f7c67178f2")).

(** The eight working variables, also the running hash value. *)
Record regs : Type := Regs
  { ra : word; rb : word; rc : word; rd : word;
    re : word; rf : word; rg : word; rh : word }.

(** The initial hash value (from the square roots of the first eight
    primes). *)
Definition H0 : regs :=
  Eval vm_compute in
    match words 8 (bytes_of_hex
      "6a09e667bb67ae853c6ef372a54ff53a510e527f9b05688c1f83d9ab5be0cd19") with
    | [a; b; c; d; e; f; g; h] => Regs a b c d e f g h
    | _ => Regs 0 0 0 0 0 0 0 0
    end.

(** Padding: a single 1 bit, zeros up to 56 mod 64, the bit length on
    eight bytes, big end first. *)
Definition be_bytes (n : nat) (x : Z) : buffer :=
  map (fun i => Z.land (Z.shiftr x (8 * Z.of_nat i)) 255) (rev (seq 0 n)).

Definition pad (m : buffer) : buffer :=
  let len := Z.of_nat (List.length m) in
  let k := Z.to_nat ((55 - len) mod 64) in
  m ++ 128%Z :: repeat 0%Z k ++ be_bytes 8 (8 * len)%Z.

(** The message schedule, most recent word first: [sched] extends the
    sixteen block words by [n] further ones. *)
Fixpoint sched (n : nat) (wrev : list word) : list word :=
  match n with
  | O => wrev
  | S n' =>
      let x := add32 (add32 (sig1 (nth 1 wrev 0)) (nth 6 wrev 0))
                     (add32 (sig0 (nth 14 wrev 0)) (nth 15 wrev 0)) in
      sched n' (x :: wrev)
  end.

Definition round (r : regs) (kw : word * word) : regs :=
  let '(k, w) := kw in
  let t1 := add32 (add32 (add32 (rh r) (Sig1 (re r))) (Ch (re r) (rf r) (rg r)))
                  (add32 k w) in
  let t2 := add32 (Sig0 (ra r)) (Maj (ra r) (rb r) (rc r)) in
  Regs (add32 t1 t2) (ra r) (rb r) (rc r) (add32 (rd r) t1) (re r) (rf r) (rg r).

Definition compress (h : regs) (block : buffer) : regs :=
  let w := rev (sched 48 (rev (words 16 block))) in
  let r := fold_left round (combine K w) h in
  Regs (add32 (ra h) (ra r)) (add32 (rb h) (rb r)) (add32 (rc h) (rc r))
       (add32 (rd h) (rd r)) (add32 (re h) (re r)) (add32 (rf h) (rf r))
       (add32 (rg h) (rg r)) (add32 (rh h) (rh r)).

Fixpoint blocks (n : nat) (h : regs) (b : buffer) : regs :=
  match n with
  | O => h
  | S n' => blocks n' (compress h (firstn 64 b)) (skipn 64 b)
  end.

Definition word_bytes (x : word) : buffer :=
  [ to_Z ((x >> 24) land 0xff); to_Z ((x >> 16) land 0xff);
    to_Z ((x >> 8) land 0xff); to_Z (x land 0xff) ].

Definition digest_bytes (r : regs) : buffer :=
  word_bytes (ra r) ++ word_bytes (rb r) ++ word_bytes (rc r) ++
  word_bytes (rd r) ++ word_bytes (re r) ++ word_bytes (rf r) ++
  word_bytes (rg r) ++ word_bytes (rh r).

Definition digest (m : buffer) : buffer :=
  let p := pad m in
  digest_bytes (blocks (Nat.div (List.length p) 64) H0 p).

End SHA256.

(** [sha256(buffer)] and [doubleSha256(buffer)] of the utility helpers. *)
Definition sha256 (b : buffer) : buffer := SHA256.digest b.
Definition doubleSha256 (b : buffer) : buffer := sha256 (sha256 b).

(** [crypto.createHash('sha256').update(s).digest('hex')]. *)
Definition sha256_hex (s : string) : string :=
  hex_of_bytes (sha256 (bytes_of_string s)).

Definition hexLEfromBE (hex : string) : string :=
  hex_of_bytes (rev (bytes_of_hex hex)).

Definition hexBEfromLE (hexLE : string) : string :=
  hex_of_bytes (rev (bytes_of_hex hexLE)).

(* ----------------------------------------------------------------- *)
(** ** Exceptions *)

Inductive error : Type :=
| RangeError      (* ERR_OUT_OF_RANGE of the Buffer writers *)
| TypeError       (* a conversion or a property read that is not allowed *)
| MalformedFile.  (* 'Unsupported or malformed blockchain file' *)

(** A computation that returns a value or throws. *)
Inductive M (A : Type) : Type :=
| Ok (a : A)
| Throw (e : error).

Arguments Ok {A} a.
Arguments Throw {A} e.

Definition bind {A B : Type} (m : M A) (k : A -> M B) : M B :=
  match m with
  | Ok a => k a
  | Throw e => Throw e
  end.

Notation "x <- m ;; k" := (bind m (fun x => k))
  (at level 100, m at next level, right associativity).

Fixpoint mapM {A B : Type} (f : A -> M B) (l : list A) : M (list B) :=
  match l with
  | [] => Ok []
  | x :: l' => y <- f x ;; ys <- mapM f l' ;; Ok (y :: ys)
  end.

Definition succeeds {A : Type} (m : M A) : bool :=
  match m with Ok _ => true | Throw _ => false end.

(* ----------------------------------------------------------------- *)
(** ** Transactions: [class Tx] *)

Record TxIn : Type := mkTxIn
  { in_txid : string;            (* txid *)
    in_index : Z;                (* index *)
    in_sequence : option Z }.    (* sequence, usually absent *)

Record TxOut : Type := mkTxOut
  { out_value : Z;               (* value, in sats *)
    out_scriptPubKey : string }. (* scriptPubKey, hex *)

(** The fields attached after construction ([txid], [note], [fee],
    [isCoinbase]) are part of the record; [txid] is [""] until it is
    assigned. *)
Record Tx : Type := mkTx
  { version : Z;
    inputs : list TxIn;
    outputs : list TxOut;
    locktime : Z;
    txid : string;
    note : option string;
    fee : option Z;
    isCoinbase : bool }.

Definition new_Tx (ins : list TxIn) (outs : list TxOut) : Tx :=
  mkTx 1 ins outs 0 "" None None false.

Definition le_bytes (n : nat) (x : Z) : buffer :=
  map (fun i => Z.land (Z.shiftr x (8 * Z.of_nat i)) 255) (seq 0 n).

(** [buf.writeUInt32LE(v)] on a fresh 4-byte buffer: a value outside
    [0, 2^32) raises. *)
Definition writeUInt32LE (v : Z) : M buffer :=
  if (0 <=? v) && (v <=? 4294967295) then Ok (le_bytes 4 v) else Throw RangeError.

(** [buf.writeBigUInt64LE(BigInt(v))] on a fresh 8-byte buffer: a value
    outside [0, 2^64) raises. *)
Definition writeBigUInt64LE (v : Z) : M buffer :=
  if (0 <=? v) && (v <=? 18446744073709551615) then Ok (le_bytes 8 v)
  else Throw RangeError.

(** [Buffer.from([n])]: one byte, the number reduced modulo 256. *)
Definition byte_buffer (n : Z) : buffer := [Z.land n 255].

Definition encode_input (inp : TxIn) : M buffer :=
  let txidLE := rev (bytes_of_hex (in_txid inp)) in
  idx <- writeUInt32LE (in_index inp) ;;
  seq <- writeUInt32LE (match in_sequence inp with
                        | Some q => q
                        | None => 4294967295
                        end) ;;
  Ok (txidLE ++ idx ++ byte_buffer 0 ++ seq).

Definition encode_output (out : TxOut) : M buffer :=
  val <- writeBigUInt64LE (out_value out) ;;
  let script := bytes_of_hex (out_scriptPubKey out) in
  Ok (val ++ byte_buffer (Z.of_nat (List.length script)) ++ script).

Definition createTxHex (tx : Tx) : M string :=
  ver <- writeUInt32LE (version tx) ;;
  ins <- mapM encode_input (inputs tx) ;;
  outs <- mapM encode_output (outputs tx) ;;
  lt <- writeUInt32LE (locktime tx) ;;
  Ok (hex_of_bytes
        (ver ++ byte_buffer (Z.of_nat (List.length (inputs tx))) ++ List.concat ins
             ++ byte_buffer (Z.of_nat (List.length (outputs tx))) ++ List.concat outs
             ++ lt)).

Definition getTxid (tx : Tx) : M string :=
  txHex <- createTxHex tx ;;
  let buf := bytes_of_hex txHex in
  let hashed := doubleSha256 buf in
  Ok (hex_of_bytes (rev hashed)).

(* ----------------------------------------------------------------- *)
(** ** Merkle root: [computeMerkleRoot] *)

(** One level of the tree: the nodes are taken two by two. *)
Fixpoint merkle_pairs (level : list buffer) : list buffer :=
  match level with
  | a :: b :: rest => doubleSha256 (a ++ b) :: merkle_pairs rest
  | _ => []
  end.

Definition merkle_level (level : list buffer) : list buffer :=
  let level' :=
    if Nat.odd (List.length level) then level ++ [last level []] else level in
  map (@rev Z) (merkle_pairs level').

(** The [while (level.length > 1)] loop; a level of [n] nodes needs fewer
    than [n] rounds. *)
Fixpoint merkle_loop (fuel : nat) (level : list buffer) : list buffer :=
  match fuel with
  | O => level
  | S fuel' =>
      if (1 <? List.length level)%nat then merkle_loop fuel' (merkle_level level)
      else level
  end.

Definition computeMerkleRoot (txidsBE : list string) : string :=
  let level := map (fun h => rev (bytes_of_hex h)) txidsBE in
  match level with
  | [] => hex_of_bytes (repeat 0 32)
  | _ =>
      let level := merkle_loop (List.length level) level in
      hex_of_bytes (rev (hd [] level))
  end.

(* ----------------------------------------------------------------- *)
(** ** The UTXO pool: [class UTXOPool] *)

Record UTXO : Type := mkUTXO
  { u_index : Z;
    u_value : Z;
    u_scriptPubKey : string;
    u_spent : bool }.

(** A JavaScript [Map] from txid to the array of its outputs: an
    association list in insertion order, each key held once. *)
Definition Pool := list (string * list UTXO).

Fixpoint Map_get (k : string) (m : Pool) : option (list UTXO) :=
  match m with
  | [] => None
  | (k', v) :: m' => if String.eqb k k' then Some v else Map_get k m'
  end.

(** [map.set(k, v)]: an existing key keeps its place and gets the new
    value, a new key goes last. *)
Fixpoint Map_set (k : string) (v : list UTXO) (m : Pool) : Pool :=
  match m with
  | [] => [(k, v)]
  | (k', v') :: m' =>
      if String.eqb k k' then (k', v) :: m' else (k', v') :: Map_set k v m'
  end.

Fixpoint outputs_from (i : nat) (outs : list TxOut) : list UTXO :=
  match outs with
  | [] => []
  | o :: outs' =>
      mkUTXO (Z.of_nat i) (out_value o) (out_scriptPubKey o) false
        :: outputs_from (S i) outs'
  end.

Definition addTxOutputs (txid : string) (outs : list TxOut) (p : Pool) : Pool :=
  Map_set txid (outputs_from 0 outs) p.

(** An element of [listAvailable()]. *)
Record Avail : Type := mkAvail
  { a_txid : string;
    a_index : Z;
    a_value : Z;
    a_scriptPubKey : string }.

Definition listAvailable (p : Pool) : list Avail :=
  flat_map
    (fun kv : string * list UTXO =>
       let '(txid, outs) := kv in
       map (fun o => mkAvail txid (u_index o) (u_value o) (u_scriptPubKey o))
           (filter (fun o => negb (u_spent o)) outs))
    p.

(** [outs.find((x) => x.index === index)]. *)
Definition find_output (index : Z) (outs : list UTXO) : option UTXO :=
  find (fun x => u_index x =? index) outs.

(** [o.spent = true] on the object found: the first entry with that
    index is the one that changes. *)
Fixpoint mark_spent (index : Z) (outs : list UTXO) : list UTXO :=
  match outs with
  | [] => []
  | x :: outs' =>
      if u_index x =? index
      then mkUTXO (u_index x) (u_value x) (u_scriptPubKey x) true :: outs'
      else x :: mark_spent index outs'
  end.

(** [spend(txid, index)]: the pool afterwards and the returned flag. *)
Definition spend (txid : string) (index : Z) (p : Pool) : Pool * bool :=
  match Map_get txid p with
  | None => (p, false)
  | Some outs =>
      match find_output index outs with
      | None => (p, false)
      | Some o =>
          if u_spent o then (p, false)
          else (Map_set txid (mark_spent index outs) p, true)
      end
  end.

(** The entry of the pool under the key [(txid, index)]. *)
Definition pool_entry (txid : string) (index : Z) (p : Pool) : option UTXO :=
  match Map_get txid p with
  | None => None
  | Some outs => find_output index outs
  end.

(* ----------------------------------------------------------------- *)
(** ** Blocks: [class Block] *)

Record Block : Type := mkBlock
  { idx : Z;
    prevHash : string;
    transactions : list Tx;
    ts : string;
    nonce : Z;
    merkleRoot : string;
    hash : string }.

(** The template literal
    [`${idx}|${ts}|${prevHash}|${merkleRoot}|${nonce}`]. *)
Definition header_of (i : string) (t p m n : string) : string :=
  i +++ "|" +++ t +++ "|" +++ p +++ "|" +++ m +++ "|" +++ n.

Definition headerString (b : Block) : string :=
  header_of (string_of_Z (idx b)) (ts b) (prevHash b) (merkleRoot b)
            (string_of_Z (nonce b)).

Definition computeHeaderHash (b : Block) : string :=
  sha256_hex (headerString b).

Definition set_hash (h : string) (b : Block) : Block :=
  mkBlock (idx b) (prevHash b) (transactions b) (ts b) (nonce b) (merkleRoot b) h.

Definition set_nonce (n : Z) (b : Block) : Block :=
  mkBlock (idx b) (prevHash b) (transactions b) (ts b) n (merkleRoot b) (hash b).

(** [new Block(idx, prevHash, transactions)]; [now] is what
    [new Date().toISOString()] returns at that moment. *)
Definition new_Block (now : string) (i : Z) (prev : string) (txs : list Tx) : Block :=
  let txids := map txid txs in
  let b := mkBlock i prev txs now 0 (computeMerkleRoot txids) "" in
  set_hash (computeHeaderHash b) b.

(* ----------------------------------------------------------------- *)
(** ** The chain: [class Blockchain] *)

Record Blockchain : Type := mkBlockchain
  { diff : nat;
    chain : list Block;
    utxo : Pool }.

(** The literal that stands for the coinbase: it is written three times
    in the source (the input of the coinbase transaction, its forced txid,
    the test that skips it when a block is applied), each time as below. *)
Definition coinbase_txid : string :=
  "0000000000000000000000000000000000000000000000000000000000000000".

(** [mineHeader(block)]: the [while (true)] search, [fuel] iterations of
    it at most.  The block is returned as the search leaves it. *)
Fixpoint mineHeader (fuel : nat) (d : nat) (block : Block) : option Block :=
  match fuel with
  | O => None
  | S fuel' =>
      let target := repeat_string "0" d in
      let block := set_hash (computeHeaderHash block) block in
      if startsWith target (hash block) then Some block
      else mineHeader fuel' d (set_nonce (nonce block + 1) block)
  end.

Definition aliceTxid : string :=
  "48437ddb190b006f858cdd881284ad467d68bfc4c74f3e6f621eb5af33be88d8".

Definition aliceOutputs : list TxOut :=
  [ mkTxOut 100000000 "76a9141d0f172a0ecb48aee1be1f2687d2963ae33f71a188ac" ].

(** [new Blockchain({ diff })], which runs [createGenesis()]. *)
Definition new_Blockchain (fuel : nat) (now : string) (d : nat) : option Blockchain :=
  match mineHeader fuel d (new_Block now 0 "0" []) with
  | None => None
  | Some genesis =>
      Some (mkBlockchain d [genesis] (addTxOutputs aliceTxid aliceOutputs []))
  end.

Definition getLastBlock (bc : Blockchain) : option Block :=
  nth_error (chain bc) (List.length (chain bc) - 1).

(** The effect of one transaction on the pool: its inputs are spent, the
    coinbase input apart, then its outputs are registered. *)
Definition spend_inputs (ins : list TxIn) (p : Pool) : Pool :=
  fold_left
    (fun p inp =>
       if String.eqb (in_txid inp) coinbase_txid then p
       else fst (spend (in_txid inp) (in_index inp) p))
    ins p.

Definition apply_tx (p : Pool) (tx : Tx) : Pool :=
  addTxOutputs (txid tx) (outputs tx) (spend_inputs (inputs tx) p).

Definition apply_txs (txs : list Tx) (p : Pool) : Pool :=
  fold_left apply_tx txs p.

(** [mineBlock(transactions)].  [Throw] is the exception of reading
    [latest.idx] on an empty chain, [Ok None] a search out of fuel. *)
Definition mineBlock (fuel : nat) (now : string) (txs : list Tx) (bc : Blockchain)
  : M (option (Blockchain * Block)) :=
  match getLastBlock bc with
  | None => Throw TypeError
  | Some latest =>
      let newBlock := new_Block now (idx latest + 1) (hash latest) txs in
      match mineHeader fuel (diff bc) newBlock with
      | None => Ok None
      | Some newBlock =>
          let pool := apply_txs txs (utxo bc) in
          Ok (Some (mkBlockchain (diff bc) (chain bc ++ [newBlock]) pool, newBlock))
      end
  end.

(* ----------------------------------------------------------------- *)
(** ** Verdicts of the validators *)

(** A number as a validator meets it: an integer, or [NaN] when a field
    of an uploaded record did not convert. *)
Inductive number : Type :=
| NaN
| Num (z : Z).

(** [a === b] on numbers. *)
Definition number_eqb (a b : number) : bool :=
  match a, b with
  | Num x, Num y => x =? y
  | _, _ => false
  end.

(** An element of [dets]. *)
Record det : Type := mkDet
  { det_idx : number;
    isHashVal : bool;
    isPowVal : bool;
    isPrevVal : bool;
    isIdxVal : bool;
    blkVal : bool;
    cc : bool }.

Record verdict : Type := mkVerdict
  { isValid : bool;
    invBlkIdx : list number;
    dets : list det }.

(** The end of both loop bodies: the diagnostic record is pushed, and a
    block that failed is recorded and poisons what follows. *)
Definition record_block (bIdx : number) (isHashVal isPowVal isPrevVal isIdxVal : bool)
    (st : verdict * bool) : verdict * bool :=
  let '(res, ccInv) := st in
  let blkVal := negb ccInv && isHashVal && isPowVal && isPrevVal && isIdxVal in
  let dets' := dets res ++ [mkDet bIdx isHashVal isPowVal isPrevVal isIdxVal blkVal ccInv] in
  if negb blkVal
  then (mkVerdict false (invBlkIdx res ++ [bIdx]) dets', true)
  else (mkVerdict (isValid res) (invBlkIdx res) dets', ccInv).

(** One iteration of the loop of [validateChain()], at position [i]. *)
Definition validate_at (target : string) (chain : list Block)
    (st : verdict * bool) (i : nat) : verdict * bool :=
  match nth_error chain i with
  | None => st
  | Some curr =>
      let headerStr :=
        header_of (string_of_Z (idx curr)) (ts curr) (prevHash curr)
                  (merkleRoot curr) (string_of_Z (nonce curr)) in
      let reHash := sha256_hex headerStr in
      let isHashVal := String.eqb reHash (hash curr) in
      let isPowVal := startsWith target (hash curr) in
      let isIdxVal :=
        match i with
        | O => idx curr =? 0
        | S j => match nth_error chain j with
                 | Some prev => idx curr =? idx prev + 1
                 | None => false
                 end
        end in
      let isPrevVal :=
        match i with
        | O => String.eqb (prevHash curr) "0"
        | S j => match nth_error chain j with
                 | Some prev => String.eqb (prevHash curr) (hash prev)
                 | None => false
                 end
        end in
      record_block (Num (idx curr)) isHashVal isPowVal isPrevVal isIdxVal st
  end.

(** [validateChain()], on a chain and its difficulty. *)
Definition validateChain_of (d : nat) (chain : list Block) : verdict :=
  let target := repeat_string "0" d in
  fst (fold_left (validate_at target chain) (seq 0 (List.length chain))
                 (mkVerdict true [] [], false)).

Definition validateChain (bc : Blockchain) : verdict :=
  validateChain_of (diff bc) (chain bc).

(* ----------------------------------------------------------------- *)
(** ** The demonstration transactions *)

Definition p2pkhScript (pubKeyHash20 : string) : string :=
  "76a914" +++ pubKeyHash20 +++ "88ac".

(** The random draws of one mining round.  [Math.random()] is a multiple
    of 2^-53 in [0, 1): a draw [r] stands for [(r mod 2^53) / 2^53]; the
    products below are taken exactly. *)
Record Rand : Type := mkRand
  { rand_minerAddr : string;              (* randHex(20), the miner *)
    rand_faucetTxid : string;             (* randHex(32) *)
    rand_faucetHash : string;             (* randHex(20), the pool entry *)
    rand_faucetCopyHash : string;         (* randHex(20), the local copy *)
    rand_pick : nat -> Z;                 (* Math.random() of the k-th pick *)
    rand_amount : nat -> Z;               (* Math.random() of the i-th tx *)
    rand_recipientHash : nat -> string;   (* randHex(20) of the i-th tx *)
    rand_changeHash : nat -> string }.    (* randHex(20) of the i-th tx *)

(** [Math.floor(Math.random() * n)] at the draw [r]. *)
Definition floor_random_times (r n : Z) : Z :=
  ((r mod 9007199254740992) * n) / 9007199254740992.

(** [a.splice(i, 1)] leaves [a] without its element at [i]. *)
Fixpoint remove_nth {A : Type} (i : nat) (l : list A) : list A :=
  match i, l with
  | _, [] => []
  | O, _ :: l' => l'
  | S i', x :: l' => x :: remove_nth i' l'
  end.

(** The loop that picks up to five entries, none twice; [k] counts the
    draws.  Each round moves one entry, so five rounds are all there are. *)
Fixpoint pick_utxos (rnd : Rand) (fuel k : nat) (chosen poolCopy : list Avail)
  : list Avail :=
  match fuel with
  | O => chosen
  | S fuel' =>
      if (List.length chosen <? 5)%nat && (0 <? List.length poolCopy)%nat then
        let i := Z.to_nat (floor_random_times (rand_pick rnd k)
                                              (Z.of_nat (List.length poolCopy))) in
        match nth_error poolCopy i with
        | Some u => pick_utxos rnd fuel' (S k) (chosen ++ [u]) (remove_nth i poolCopy)
        | None => chosen
        end
      else chosen
  end.

Definition usecases : list string :=
  [ "Alice pays Bob (shopping)";
    "Charlie pays Dave (peer payment)";
    "Eve buys coffee";
    "Donation to charity";
    "Micro tip to content creator" ].

Definition fixed_fee : Z := 10000.

(** The body of the loop that builds the [i]-th transaction. *)
Definition build_tx (rnd : Rand) (chosenUTXOs : list Avail) (i : nat) : M Tx :=
  match nth_error chosenUTXOs (i mod List.length chosenUTXOs) with
  | None => Throw TypeError
  | Some utxo =>
      let uc := nth (i mod List.length usecases) usecases "" in
      let fee := fixed_fee in
      let maxSend := Z.max 0 (a_value utxo - fee - 1000) in
      let sendAmt :=
        Z.max 1 (Z.min maxSend (floor_random_times (rand_amount rnd i) maxSend + 1)) in
      let change := a_value utxo - sendAmt - fee in
      let recipientHash := rand_recipientHash rnd i in
      let changeHash := rand_changeHash rnd i in
      let tx := new_Tx [ mkTxIn (a_txid utxo) (a_index utxo) None ]
                       [ mkTxOut sendAmt (p2pkhScript recipientHash);
                         mkTxOut change (p2pkhScript changeHash) ] in
      id <- getTxid tx ;;
      Ok (mkTx (version tx) (inputs tx) (outputs tx) (locktime tx) id
               (Some uc) (Some fee) false)
  end.

(** [createFiveRandomTxs(utxoPool)]: the pool as the call leaves it (the
    faucet entry stays even when a later step throws) and the result. *)
Definition createFiveRandomTxs (rnd : Rand) (utxoPool : Pool) : Pool * M (list Tx) :=
  let available := listAvailable utxoPool in
  let poolCopy := available in
  let '(utxoPool, poolCopy) :=
    if (List.length poolCopy <? 5)%nat then
      ( addTxOutputs (rand_faucetTxid rnd)
          [ mkTxOut 50000000 (p2pkhScript (rand_faucetHash rnd)) ] utxoPool,
        poolCopy ++ [ mkAvail (rand_faucetTxid rnd) 0 50000000
                              (p2pkhScript (rand_faucetCopyHash rnd)) ] )
    else (utxoPool, poolCopy) in
  let chosenUTXOs := pick_utxos rnd 5 0 [] poolCopy in
  (utxoPool, mapM (build_tx rnd chosenUTXOs) (seq 0 5)).

Definition coinbase_subsidy : Z := 50 * 100000000.

Definition createCoinbaseTx (minerPubKeyHash : string) : Tx :=
  let coin := new_Tx [ mkTxIn coinbase_txid 4294967295 None ]
                     [ mkTxOut coinbase_subsidy (p2pkhScript minerPubKeyHash) ] in
  mkTx (version coin) (inputs coin) (outputs coin) (locktime coin)
       coinbase_txid None None true.

(** The loop [if (!t.txid) t.txid = t.getTxid()] of the handler. *)
Definition ensure_txid (t : Tx) : M Tx :=
  if String.eqb (txid t) "" then
    id <- getTxid t ;;
    Ok (mkTx (version t) (inputs t) (outputs t) (locktime t) id
             (note t) (fee t) (isCoinbase t))
  else Ok t.

(** What [POST /api/mine] answers with. *)
Record MineResponse : Type := mkMineResponse
  { resp_blk : Block;
    resp_txs : list Tx;
    resp_val : verdict }.

(** The handler of [POST /api/mine] on the ledger [bc]: the ledger as the
    request leaves it, and the answer ([Ok None]: the header search ran
    out of fuel). *)
Definition api_mine (fuel : nat) (now : string) (rnd : Rand) (bc : Blockchain)
  : Blockchain * M (option MineResponse) :=
  let coinbase := createCoinbaseTx (rand_minerAddr rnd) in
  let '(pool, txs) := createFiveRandomTxs rnd (utxo bc) in
  let bc := mkBlockchain (diff bc) (chain bc) pool in
  match txs with
  | Throw e => (bc, Throw e)
  | Ok txs =>
      match mapM ensure_txid (coinbase :: txs) with
      | Throw e => (bc, Throw e)
      | Ok allTxs =>
          match mineBlock fuel now allTxs bc with
          | Throw e => (bc, Throw e)
          | Ok None => (bc, Ok None)
          | Ok (Some (bc', newBlk)) =>
              (bc', Ok (Some (mkMineResponse newBlk allTxs (validateChain bc'))))
          end
      end
  end.

(* ----------------------------------------------------------------- *)
(** ** Loosely typed values: what [JSON.parse] and [yaml.load] return *)

#[local] Unset Elimination Schemes.
Inductive value : Type :=
| Undefined
| Null
| Bool (b : bool)
| Number (n : number)
| Str (s : string)
| Arr (items : list value)
| Obj (props : list (string * value)).
#[local] Set Elimination Schemes.

(** Induction on values, through the arrays and the objects. *)
Section ValueInduction.

Variable P : value -> Prop.
Hypothesis P_Undefined : P Undefined.
Hypothesis P_Null : P Null.
Hypothesis P_Bool : forall b, P (Bool b).
Hypothesis P_Number : forall n, P (Number n).
Hypothesis P_Str : forall s, P (Str s).
Hypothesis P_Arr : forall items, Forall P items -> P (Arr items).
Hypothesis P_Obj : forall props, Forall (fun kv => P (snd kv)) props -> P (Obj props).

Fixpoint value_induction (v : value) : P v :=
  match v with
  | Undefined => P_Undefined
  | Null => P_Null
  | Bool b => P_Bool b
  | Number n => P_Number n
  | Str s => P_Str s
  | Arr items =>
      P_Arr ((fix all (l : list value) : Forall P l :=
                match l with
                | [] => Forall_nil P
                | x :: l' => Forall_cons x (value_induction x) (all l')
                end) items)
  | Obj props =>
      P_Obj ((fix all (l : list (string * value)) : Forall (fun kv => P (snd kv)) l :=
                match l with
                | [] => Forall_nil _
                | kv :: l' =>
                    Forall_cons kv (value_induction (snd kv)) (all l')
                end) props)
  end.

End ValueInduction.

(** ToBoolean. *)
Definition truthy (v : value) : bool :=
  match v with
  | Undefined | Null => false
  | Bool b => b
  | Number NaN => false
  | Number (Num z) => negb (z =? 0)
  | Str s => negb (String.eqb s "")
  | Arr _ | Obj _ => true
  end.

(** [a || b]. *)
Definition or_else (a b : value) : value := if truthy a then a else b.

Definition nullish (v : value) : bool :=
  match v with
  | Undefined | Null => true
  | _ => false
  end.

(** [a ?? b]. *)
Definition coalesce (a b : value) : value := if nullish a then b else a.

Fixpoint own (props : list (string * value)) (k : string) : option value :=
  match props with
  | [] => None
  | (k', v) :: props' => if String.eqb k k' then Some v else own props' k
  end.

(** [v.k], for a key that no prototype defines (all the keys read below
    are such): the own property of an object, [undefined] on any other
    value, an exception on [undefined] and [null]. *)
Definition get (v : value) (k : string) : M value :=
  match v with
  | Undefined | Null => Throw TypeError
  | Obj props => Ok (match own props k with Some x => x | None => Undefined end)
  | _ => Ok Undefined
  end.

(** [v?.k]. *)
Definition opt_get (v : value) (k : string) : M value :=
  if nullish v then Ok Undefined else get v k.

(** [v.k1 ?? v.k2 ?? ... ?? dflt], read from the left. *)
Fixpoint get_first (v : value) (keys : list string) (dflt : value) : M value :=
  match keys with
  | [] => Ok dflt
  | k :: keys' =>
      x <- get v k ;;
      if nullish x then get_first v keys' dflt else Ok x
  end.

Definition string_of_number (n : number) : string :=
  match n with
  | NaN => "NaN"
  | Num z => string_of_Z z
  end.

(** [items.join(',')] with [conv] for the conversion of an element:
    [null] and [undefined] elements give the empty string. *)
Definition join_with (conv : value -> M string) : list value -> M string :=
  fix join (l : list value) : M string :=
    match l with
    | [] => Ok ""
    | x :: l' =>
        sx <- (if nullish x then Ok "" else conv x) ;;
        match l' with
        | [] => Ok sx
        | _ => rest <- join l' ;; Ok (sx +++ "," +++ rest)
        end
    end.

(** ToString.  An array is joined with commas.  A parsed object is
    converted by the inherited [toString]; when the object has a property
    of its own under that name, the property (a parsed value, never a
    function) hides it, the inherited [valueOf] returns the object itself,
    and the conversion raises. *)
Fixpoint ToString (v : value) : M string :=
  match v with
  | Undefined => Ok "undefined"
  | Null => Ok "null"
  | Bool true => Ok "true"
  | Bool false => Ok "false"
  | Number n => Ok (string_of_number n)
  | Str s => Ok s
  | Arr items => join_with ToString items
  | Obj props =>
      match own props "toString" with
      | Some _ => Throw TypeError
      | None => Ok "[object Object]"
      end
  end.

(** White space of the ASCII range. *)
Definition is_space (c : ascii) : bool :=
  let n := N_of_ascii c in
  ((9 <=? n) && (n <=? 13))%N || (n =? 32)%N.

Fixpoint trim_start (s : string) : string :=
  match s with
  | String c s' => if is_space c then trim_start s' else s
  | EmptyString => EmptyString
  end.

Fixpoint string_rev (s acc : string) : string :=
  match s with
  | EmptyString => acc
  | String c s' => string_rev s' (String c acc)
  end.

(** [s.trim()]. *)
Definition trim (s : string) : string :=
  string_rev (trim_start (string_rev (trim_start s) "")) "".

Fixpoint decimal_value (s : string) (acc : Z) : option Z :=
  match s with
  | EmptyString => Some acc
  | String c s' =>
      let n := Z.of_N (N_of_ascii c) in
      if (48 <=? n) && (n <=? 57) then decimal_value s' (10 * acc + (n - 48))
      else None
  end.

(** StringToNumber on the integers: white space around is dropped, the
    empty string is 0, a sign may come first.  A numeric string in another
    notation (fraction, exponent, radix prefix, [Infinity]) denotes a
    number outside the model and reads as [NaN] here. *)
Definition StringToNumber (s : string) : number :=
  match trim s with
  | EmptyString => Num 0
  | String "-" (String c d) =>
      match decimal_value (String c d) 0 with
      | Some z => Num (- z)
      | None => NaN
      end
  | String "+" (String c d) =>
      match decimal_value (String c d) 0 with
      | Some z => Num z
      | None => NaN
      end
  | d => match decimal_value d 0 with
         | Some z => Num z
         | None => NaN
         end
  end.

(** [Number(v)]. *)
Definition ToNumber (v : value) : M number :=
  match v with
  | Undefined => Ok NaN
  | Null => Ok (Num 0)
  | Bool true => Ok (Num 1)
  | Bool false => Ok (Num 0)
  | Number n => Ok n
  | Str s => Ok (StringToNumber s)
  | Arr _ | Obj _ => s <- ToString v ;; Ok (StringToNumber s)
  end.

(** [v + 1]: concatenation once [v] is a string or converts to one,
    addition otherwise. *)
Definition plus_one (v : value) : M value :=
  match v with
  | Str s => Ok (Str (s +++ "1"))
  | Arr _ | Obj _ => s <- ToString v ;; Ok (Str (s +++ "1"))
  | Number (Num z) => Ok (Number (Num (z + 1)))
  | Number NaN | Undefined => Ok (Number NaN)
  | Null | Bool false => Ok (Number (Num 1))
  | Bool true => Ok (Number (Num 2))
  end.

(** [n === v] for a number [n], and [s === v] for a string [s]. *)
Definition number_is (n : number) (v : value) : bool :=
  match v with
  | Number m => number_eqb n m
  | _ => false
  end.

Definition string_is (s : string) (v : value) : bool :=
  match v with
  | Str t => String.eqb s t
  | _ => false
  end.

(* ----------------------------------------------------------------- *)
(** ** The validator of an uploaded chain: [validChain] *)

(** One iteration of the loop of [validChain(chain, diff)], at position
    [i]; [chain[i]] is [undefined] past the end. *)
Definition validChain_at (target : string) (chain : list value)
    (st : verdict * bool) (i : nat) : M (verdict * bool) :=
  let raw := or_else (nth i chain Undefined) (Obj []) in
  prevHashRaw <- get_first raw ["prevHash"; "previousHash"; "previous_hash"] (Str "") ;;
  hashRaw <- get_first raw ["hash"] (Str "") ;;
  dataRaw <- get_first raw ["transactions"; "data"] Undefined ;;
  dataRaw <- (if nullish dataRaw then get raw "Data" else Ok dataRaw) ;;  (* unused *)
  idxRaw <- get_first raw ["idx"; "Index"] (Number (Num 0)) ;;
  nonceRaw <- get_first raw ["nonce"; "Nonce"] (Number (Num 0)) ;;
  tsRaw <- get_first raw ["ts"; "Timestamp"] (Str "") ;;
  bIdx <- ToNumber idxRaw ;;
  prevHashStr <- ToString (coalesce prevHashRaw (Str "")) ;;
  hashStr <- ToString (coalesce hashRaw (Str "")) ;;
  tsStr <- ToString (coalesce tsRaw (Str "")) ;;
  nonceNum <- ToNumber (coalesce nonceRaw (Number (Num 0))) ;;
  merkleRootRaw <- get_first raw ["merkleRoot"] (Str "") ;;
  merkleRootStr <- ToString merkleRootRaw ;;
  let headerStr :=
    header_of (string_of_number bIdx) tsStr prevHashStr merkleRootStr
              (string_of_number nonceNum) in
  let reHash := sha256_hex headerStr in
  let isHashVal := String.eqb reHash hashStr in
  let isPowVal := startsWith target hashStr in
  isIdxVal <-
    match i with
    | O => Ok (number_eqb bIdx (Num 0))
    | S j =>
        prevIdx <- opt_get (nth j chain Undefined) "idx" ;;
        next <- plus_one (coalesce prevIdx (Number (Num (-1)))) ;;
        Ok (number_is bIdx next)
    end ;;
  isPrevVal <-
    match i with
    | O => Ok (String.eqb prevHashStr "0")
    | S j =>
        let prev := or_else (nth j chain Undefined) (Obj []) in
        prevHash <- get prev "hash" ;;
        Ok (string_is prevHashStr prevHash)
    end ;;
  Ok (record_block bIdx isHashVal isPowVal isPrevVal isIdxVal st).

(** [validChain(chain, diff)]. *)
Definition validChain (chain : list value) (d : nat) : M verdict :=
  let target := repeat_string "0" d in
  st <- fold_left (fun st i => s <- st ;; validChain_at target chain s i)
                  (seq 0 (List.length chain))
                  (Ok (mkVerdict true [] [], false)) ;;
  Ok (fst st).

(* ----------------------------------------------------------------- *)
(** ** Export: [GET /api/download] *)

(** A block as the structured formats carry it: the object that
    [JSON.parse] returns on [JSON.stringify] of the block, and [yaml.load]
    on [yaml.dump] of it. *)
Definition TxIn_to_value (inp : TxIn) : value :=
  Obj ([ ("txid", Str (in_txid inp)); ("index", Number (Num (in_index inp))) ]
       ++ match in_sequence inp with
          | Some q => [ ("sequence", Number (Num q)) ]
          | None => []
          end).

Definition TxOut_to_value (out : TxOut) : value :=
  Obj [ ("value", Number (Num (out_value out)));
        ("scriptPubKey", Str (out_scriptPubKey out)) ].

Definition Tx_to_value (tx : Tx) : value :=
  Obj ([ ("version", Number (Num (version tx)));
         ("inputs", Arr (map TxIn_to_value (inputs tx)));
         ("outputs", Arr (map TxOut_to_value (outputs tx)));
         ("locktime", Number (Num (locktime tx))) ]
       ++ (if String.eqb (txid tx) "" then [] else [ ("txid", Str (txid tx)) ])
       ++ match note tx with Some n => [ ("note", Str n) ] | None => [] end
       ++ match fee tx with Some f => [ ("fee", Number (Num f)) ] | None => [] end
       ++ (if isCoinbase tx then [ ("isCoinbase", Bool true) ] else [])).

Definition Block_to_value (b : Block) : value :=
  Obj [ ("idx", Number (Num (idx b)));
        ("prevHash", Str (prevHash b));
        ("transactions", Arr (map Tx_to_value (transactions b)));
        ("ts", Str (ts b));
        ("nonce", Number (Num (nonce b)));
        ("merkleRoot", Str (merkleRoot b));
        ("hash", Str (hash b)) ].

(** The chain that the upload handler validates after a JSON or a YAML
    export of [chain]. *)
Definition import_structured (chain : list Block) : list value :=
  map Block_to_value chain.

(** Quoting of a string by [JSON.stringify]. *)
Definition json_escape_char (c : ascii) : string :=
  let n := Z.of_N (N_of_ascii c) in
  if n =? 34 then String "\" (String c EmptyString)
  else if n =? 92 then "\\"
  else if n =? 8 then "\b"
  else if n =? 12 then "\f"
  else if n =? 10 then "\n"
  else if n =? 13 then "\r"
  else if n =? 9 then "\t"
  else if n <? 32 then "\u00" +++ hex_of_bytes [n]
  else String c EmptyString.

Fixpoint json_escape (s : string) : string :=
  match s with
  | EmptyString => EmptyString
  | String c s' => json_escape_char c +++ json_escape s'
  end.

Definition json_quote (s : string) : string :=
  String (ascii_of_N 34) (json_escape s +++ String (ascii_of_N 34) EmptyString).

(** [JSON.stringify(v)] without indentation; [None] is [undefined].  In
    an array what does not serialize becomes [null], in an object it is
    left out. *)
Fixpoint JSON_stringify (v : value) : option string :=
  match v with
  | Undefined => None
  | Null => Some "null"
  | Bool true => Some "true"
  | Bool false => Some "false"
  | Number NaN => Some "null"
  | Number (Num z) => Some (string_of_Z z)
  | Str s => Some (json_quote s)
  | Arr items =>
      let fix elems (l : list value) : string :=
        match l with
        | [] => ""
        | x :: l' =>
            let sx := match JSON_stringify x with Some t => t | None => "null" end in
            match l' with
            | [] => sx
            | _ => sx +++ "," +++ elems l'
            end
        end in
      Some ("[" +++ elems items +++ "]")
  | Obj props =>
      let fix members (l : list (string * value)) (first : bool) : string :=
        match l with
        | [] => ""
        | (k, x) :: l' =>
            match JSON_stringify x with
            | Some t =>
                (if first then "" else ",") +++ json_quote k +++ ":" +++ t
                  +++ members l' false
            | None => members l' first
            end
        end in
      Some ("{" +++ members props true +++ "}")
  end.

Definition stringify_transactions (txs : list Tx) : string :=
  match JSON_stringify (Arr (map Tx_to_value txs)) with
  | Some t => t
  | None => "undefined"
  end.

(** [lines.join('\n')]. *)
Fixpoint join_lines (lines : list string) : string :=
  match lines with
  | [] => ""
  | [l] => l
  | l :: lines' => l +++ String (ascii_of_N 10) (join_lines lines')
  end.

(** The plain-text export ([format=txt]). *)
Definition export_txt (chain : list Block) : string :=
  join_lines
    (flat_map
       (fun b =>
          [ "---";
            "Index: " +++ string_of_Z (idx b);
            "Timestamp: " +++ ts b;
            "Previous Hash: " +++ prevHash b;
            "Hash: " +++ hash b;
            "MerkleRoot: " +++ merkleRoot b;
            "Transactions: " +++ stringify_transactions (transactions b);
            "Nonce: " +++ string_of_Z (nonce b) ])
       chain).

(* ----------------------------------------------------------------- *)
(** ** Import: the plain-text fallback of [parse] *)

Definition LF : ascii := ascii_of_N 10.
Definition CR : ascii := ascii_of_N 13.

Definition is_line_terminator (c : ascii) : bool :=
  Ascii.eqb c LF || Ascii.eqb c CR.

(** The length of a separator at the head of [s], if one is there.  The
    three alternatives of [/\n---\n|\n---\r?\n|\r?\n---\r?\n/] together
    accept a line of three hyphens with either kind of line end on both
    sides. *)
Definition separator_length (s : string) : option nat :=
  let '(s1, n1) :=
    match s with
    | String c s' => if Ascii.eqb c CR then (s', 1%nat) else (s, 0%nat)
    | EmptyString => (s, 0%nat)
    end in
  match s1 with
  | String l (String "-" (String "-" (String "-" s2))) =>
      if Ascii.eqb l LF then
        match s2 with
        | String c (String l' _) =>
            if Ascii.eqb c LF then Some (n1 + 5)%nat
            else if Ascii.eqb c CR && Ascii.eqb l' LF then Some (n1 + 6)%nat
            else None
        | String c EmptyString => if Ascii.eqb c LF then Some (n1 + 5)%nat else None
        | EmptyString => None
        end
      else None
  | _ => None
  end.

(** [raw.split(separator)]; [skip] characters of a separator are still to
    be passed, [cur] is the section being read, last character first. *)
Fixpoint split_sections (s : string) (skip : nat) (cur : string) : list string :=
  match s with
  | EmptyString => [string_rev cur ""]
  | String c s' =>
      match skip with
      | S k => split_sections s' k cur
      | O =>
          match separator_length s with
          | Some (S k) => string_rev cur "" :: split_sections s' k ""
          | _ => split_sections s' 0 (String c cur)
          end
      end
  end.

Definition lower (c : ascii) : ascii :=
  let n := N_of_ascii c in
  if ((65 <=? n) && (n <=? 90))%N then ascii_of_N (n + 32) else c.

(** [s] without the prefix [p], letters compared without their case. *)
Fixpoint strip_prefix_ci (p s : string) : option string :=
  match p, s with
  | EmptyString, _ => Some s
  | String a p', String b s' =>
      if Ascii.eqb (lower a) (lower b) then strip_prefix_ci p' s' else None
  | String _ _, EmptyString => None
  end.

Fixpoint take_line (s : string) : string :=
  match s with
  | EmptyString => EmptyString
  | String c s' => if is_line_terminator c then EmptyString else String c (take_line s')
  end.

(** The first match of the pattern of [getLine] (at the start of a line,
    the label in any case, a colon, white space, then the rest of a line,
    which is the group) and its group. *)
Fixpoint match_label (label s : string) (line_start : bool) : option string :=
  match s with
  | EmptyString => None
  | String c s' =>
      match (if line_start then strip_prefix_ci (label +++ ":") s else None) with
      | Some rest => Some (take_line (trim_start rest))
      | None => match_label label s' (is_line_terminator c)
      end
  end.

Definition getLine (s label : string) : option string :=
  match match_label label s true with
  | Some g => Some (trim g)
  | None => None
  end.

Definition opt_string (o : option string) : value :=
  match o with
  | Some s => Str s
  | None => Undefined
  end.

(** [a || b] on the results of [getLine]. *)
Definition first_line (a b : option string) : option string :=
  match a with
  | Some (String _ _) => a
  | _ => b
  end.

Section Parse.

(** [JSON.parse], with [None] for the exception that [parse] catches. *)
Variable JSON_parse : string -> option value.

(** The body of the loop over the sections: the record pushed, if any. *)
Definition parse_section (section : string) : option value :=
  let s := trim section in
  if String.eqb s "" then None
  else
    let idxStr := getLine s "Index" in
    let ts := getLine s "Timestamp" in
    let prevHash := getLine s "Previous Hash" in
    let hash := getLine s "Hash" in
    let dataStr :=
      first_line (getLine s "Data")
                 (first_line (getLine s "Transactions") (getLine s "MerkleRoot")) in
    let nonceStr := getLine s "Nonce" in
    match idxStr, nonceStr with
    | Some idxStr, Some nonceStr =>
        let dataVal :=
          match dataStr with
          | Some d =>
              if negb (String.eqb (trim d) "")
                 && (startsWith "{" d || startsWith "[" d)
              then match JSON_parse d with
                   | Some parsedData =>
                       if truthy parsedData then parsedData else Str d
                   | None => Str d
                   end
              else Str d
          | None => Undefined
          end in
        Some (Obj [ ("idx", Number (StringToNumber idxStr));
                    ("ts", opt_string ts);
                    ("prevHash", opt_string prevHash);
                    ("hash", opt_string hash);
                    ("data", dataVal);
                    ("nonce", Number (StringToNumber nonceStr)) ])
    | _, _ => None
    end.

Fixpoint parse_sections (sections : list string) : list value :=
  match sections with
  | [] => []
  | section :: rest =>
      match parse_section section with
      | Some blk => blk :: parse_sections rest
      | None => parse_sections rest
      end
  end.

(** [parse] on a text that neither the JSON reader nor the YAML reader
    takes for a chain, as is a plain-text export (it starts with a line
    of hyphens and holds no [chain] key). *)
Definition parse_txt (raw : string) : M (list value) :=
  let blks := parse_sections (split_sections raw 0 "") in
  match blks with
  | [] => Throw MalformedFile
  | _ => Ok blks
  end.

(** [POST /api/validate] on such a text: the verdict of the answer. *)
Definition api_validate_txt (d : nat) (raw : string) : M verdict :=
  chain <- parse_txt raw ;;
  validChain chain d.

End Parse.

(* ----------------------------------------------------------------- *)
(** ** Vocabulary of the statements *)


(** The four local checks of a block and the index it is reported under,
    as both validators compute them before they look at [ccInv]. *)
Record checks : Type := mkChecks
  { chk_idx : number;
    chk_hash : bool;
    chk_pow : bool;
    chk_prev : bool;
    chk_index : bool }.

Definition record_checks (st : verdict * bool) (c : checks) : verdict * bool :=
  record_block (chk_idx c) (chk_hash c) (chk_pow c) (chk_prev c) (chk_index c) st.

(** The checks of [validateChain()] at position [i]. *)
Definition live_checks (target : string) (chain : list Block) (i : nat) (curr : Block)
  : checks :=
  mkChecks
    (Num (idx curr))
    (String.eqb (sha256_hex (headerString curr)) (hash curr))
    (startsWith target (hash curr))
    (match i with
     | O => String.eqb (prevHash curr) "0"
     | S j => match nth_error chain j with
              | Some prev => String.eqb (prevHash curr) (hash prev)
              | None => false
              end
     end)
    (match i with
     | O => idx curr =? 0
     | S j => match nth_error chain j with
              | Some prev => idx curr =? idx prev + 1
              | None => false
              end
     end).

(** The diagnostic record of a block under the flag [ccInv]. *)
Definition det_of (ccInv : bool) (c : checks) : det :=
  mkDet (chk_idx c) (chk_hash c) (chk_pow c) (chk_prev c) (chk_index c)
        (negb ccInv && chk_hash c && chk_pow c && chk_prev c && chk_index c)
        ccInv.

(** The diagnostic records of a run that starts under the flag [ccInv]. *)
Fixpoint dets_from (ccInv : bool) (l : list checks) : list det :=
  match l with
  | [] => []
  | c :: l' =>
      let d := det_of ccInv c in
      d :: dets_from (ccInv || negb (blkVal d)) l'
  end.

(** A block that fails poisons every later one. *)
Definition cascades (ds : list det) : Prop :=
  forall i j di dj,
    (i < j)%nat ->
    nth_error ds i = Some di -> blkVal di = false ->
    nth_error ds j = Some dj ->
    cc dj = true /\ blkVal dj = false.

(** The list of failing indices is read off the stored [idx] of the
    failing blocks, in order. *)
Definition failing_idx (ds : list det) : list number :=
  map det_idx (filter (fun d => negb (blkVal d)) ds).

(** [l] with its element at [k] replaced. *)
Fixpoint replace_at {A : Type} (k : nat) (x : A) (l : list A) : list A :=
  match k, l with
  | _, [] => []
  | O, _ :: l' => x :: l'
  | S k', y :: l' => y :: replace_at k' x l'
  end.

(** The calls a client of the pool can make. *)
Inductive pool_op : Type :=
| RegisterOutputs (txid : string) (outs : list TxOut)
| Spend (txid : string) (index : Z)
| ListAvailable.

Definition run_op (p : Pool) (op : pool_op) : Pool :=
  match op with
  | RegisterOutputs t outs => addTxOutputs t outs p
  | Spend t i => fst (spend t i p)
  | ListAvailable => p
  end.

Definition run_ops (ops : list pool_op) (p : Pool) : Pool :=
  fold_left run_op ops p.

Definition registers (t : string) (op : pool_op) : Prop :=
  match op with
  | RegisterOutputs t' _ => t' = t
  | _ => False
  end.

(** An entry survives as [e'] when it is [e] up to a flag that went from
    unspent to spent. *)
Definition survives (e e' : UTXO) : Prop :=
  u_index e' = u_index e /\ u_value e' = u_value e /\
  u_scriptPubKey e' = u_scriptPubKey e /\
  (u_spent e = true -> u_spent e' = true).

(** A byte. *)
Definition is_byte (x : Z) : Prop := 0 <= x < 256.

(** The fields of a transaction are within the widths of the encoding. *)
Definition u32 (z : Z) : Prop := 0 <= z <= 4294967295.
Definition u64 (z : Z) : Prop := 0 <= z <= 18446744073709551615.

Definition input_in_range (inp : TxIn) : Prop :=
  u32 (in_index inp) /\
  match in_sequence inp with Some q => u32 q | None => True end.

Definition tx_in_range (tx : Tx) : Prop :=
  u32 (version tx) /\ u32 (locktime tx) /\
  Forall input_in_range (inputs tx) /\
  Forall (fun o => u64 (out_value o)) (outputs tx).

(** The layout of an encoded transaction, field by field; the count of
    the inputs, the count of the outputs and the length of a script are
    each one byte, the number modulo 256. *)
Definition input_bytes (inp : TxIn) : buffer :=
  rev (bytes_of_hex (in_txid inp)) ++ le_bytes 4 (in_index inp) ++ [0]
    ++ le_bytes 4 (match in_sequence inp with Some q => q | None => 4294967295 end).

Definition output_bytes (out : TxOut) : buffer :=
  let script := bytes_of_hex (out_scriptPubKey out) in
  le_bytes 8 (out_value out) ++ [Z.of_nat (List.length script) mod 256] ++ script.

Definition tx_bytes (tx : Tx) : buffer :=
  le_bytes 4 (version tx)
    ++ [Z.of_nat (List.length (inputs tx)) mod 256]
    ++ List.concat (map input_bytes (inputs tx))
    ++ [Z.of_nat (List.length (outputs tx)) mod 256]
    ++ List.concat (map output_bytes (outputs tx))
    ++ le_bytes 4 (locktime tx).

(** A transaction with 256 inputs and a script of 256 bytes. *)
Definition tx_overflow : Tx :=
  new_Tx (repeat (mkTxIn coinbase_txid 0 None) 256)
         [ mkTxOut 1 (repeat_string "00" 256) ].

(** A value that converts to a string without an exception: no object in
    it has a property of its own named [toString]. *)
Fixpoint plain (v : value) : bool :=
  match v with
  | Arr items => forallb plain items
  | Obj props =>
      match own props "toString" with
      | Some _ => false
      | None => true
      end
  | _ => true
  end.

(** A record whose fields are plain values (the record itself may be
    anything). *)
Definition plain_record (v : value) : bool :=
  match v with
  | Obj props => forallb (fun kv => plain (snd kv)) props
  | _ => true
  end.

(** The checks of [validChain] at position [i]: the conversions, which
    can raise, and the comparisons. *)
Definition import_checks (target : string) (chain : list value) (i : nat) : M checks :=
  let raw := or_else (nth i chain Undefined) (Obj []) in
  prevHashRaw <- get_first raw ["prevHash"; "previousHash"; "previous_hash"] (Str "") ;;
  hashRaw <- get_first raw ["hash"] (Str "") ;;
  dataRaw <- get_first raw ["transactions"; "data"] Undefined ;;
  dataRaw <- (if nullish dataRaw then get raw "Data" else Ok dataRaw) ;;
  idxRaw <- get_first raw ["idx"; "Index"] (Number (Num 0)) ;;
  nonceRaw <- get_first raw ["nonce"; "Nonce"] (Number (Num 0)) ;;
  tsRaw <- get_first raw ["ts"; "Timestamp"] (Str "") ;;
  bIdx <- ToNumber idxRaw ;;
  prevHashStr <- ToString (coalesce prevHashRaw (Str "")) ;;
  hashStr <- ToString (coalesce hashRaw (Str "")) ;;
  tsStr <- ToString (coalesce tsRaw (Str "")) ;;
  nonceNum <- ToNumber (coalesce nonceRaw (Number (Num 0))) ;;
  merkleRootRaw <- get_first raw ["merkleRoot"] (Str "") ;;
  merkleRootStr <- ToString merkleRootRaw ;;
  let headerStr :=
    header_of (string_of_number bIdx) tsStr prevHashStr merkleRootStr
              (string_of_number nonceNum) in
  let reHash := sha256_hex headerStr in
  isIdxVal <-
    match i with
    | O => Ok (number_eqb bIdx (Num 0))
    | S j =>
        prevIdx <- opt_get (nth j chain Undefined) "idx" ;;
        next <- plus_one (coalesce prevIdx (Number (Num (-1)))) ;;
        Ok (number_is bIdx next)
    end ;;
  isPrevVal <-
    match i with
    | O => Ok (String.eqb prevHashStr "0")
    | S j =>
        let prev := or_else (nth j chain Undefined) (Obj []) in
        prevHash <- get prev "hash" ;;
        Ok (string_is prevHashStr prevHash)
    end ;;
  Ok (mkChecks bIdx (String.eqb reHash hashStr) (startsWith target hashStr)
               isPrevVal isIdxVal).

(** The verdict that a list of checks leads to. *)
Definition verdict_of (l : list checks) : verdict :=
  mkVerdict (forallb blkVal (dets_from false l))
            (failing_idx (dets_from false l))
            (dets_from false l).

Definition passes (c : checks) : bool :=
  chk_hash c && chk_pow c && chk_prev c && chk_index c.

(** The checks of the live chain, block by block. *)
Fixpoint live_checks_from (target : string) (chain : list Block) (i : nat)
    (rest : list Block) : list checks :=
  match rest with
  | [] => []
  | curr :: rest' =>
      live_checks target chain i curr :: live_checks_from target chain (S i) rest'
  end.

Definition live_checks_list (d : nat) (chain : list Block) : list checks :=
  live_checks_from (repeat_string "0" d) chain 0 chain.

(** A generated payment: not a coinbase, one input that refers to one of
    the candidate outputs, two outputs whose amounts and the fee add up to
    the value of that output. *)
Definition is_spend_of (candidates : list Avail) (tx : Tx) : Prop :=
  isCoinbase tx = false /\
  exists utxo payment change,
    In utxo candidates /\
    inputs tx = [ mkTxIn (a_txid utxo) (a_index utxo) None ] /\
    map out_value (outputs tx) = [ payment; change ] /\
    List.length (outputs tx) = 2%nat /\
    payment + change + fixed_fee = a_value utxo.

(** The outputs a round can draw from: what the pool lists, and the
    faucet output that the generator may add. *)
Definition candidates (rnd : Rand) (p : Pool) : list Avail :=
  listAvailable p
    ++ [ mkAvail (rand_faucetTxid rnd) 0 50000000
                 (p2pkhScript (rand_faucetCopyHash rnd)) ].

(** Two records of the plain-text reader that differ in [data] at most. *)
Definition same_but_data (v1 v2 : value) : Prop :=
  exists i t p h n x1 x2,
    v1 = Obj [ ("idx", i); ("ts", t); ("prevHash", p); ("hash", h);
               ("data", x1); ("nonce", n) ] /\
    v2 = Obj [ ("idx", i); ("ts", t); ("prevHash", p); ("hash", h);
               ("data", x2); ("nonce", n) ].

(** An uploaded chain of one record, whose [hash] is an object with a
    property named [toString]: the JSON text
    [[{"hash": {"toString": 1}}]]. *)
Definition hostile_chain : list value :=
  [ Obj [ ("hash", Obj [ ("toString", Number (Num 1)) ]) ] ].

(* ----------------------------------------------------------------- *)
(** ** A concrete ledger: genesis and two mining rounds at difficulty 3 *)

Definition now0 : string := "2025-01-01T00:00:30.000Z".
Definition now1 : string := "2025-01-01T00:01:01.568Z".
Definition now2 : string := "2025-01-01T00:02:00.279Z".

Definition hash20 (i : nat) : string :=
  repeat_string (string_of_Z (Z.of_nat i)) 40.

(** First round: every pick is the first entry left, every amount is the
    largest the generator allows. *)
Definition rnd1 : Rand :=
  mkRand "1111111111111111111111111111111111111111"
         "aaaaaaaaaaaaaaaaaaaaaaaaaaaaaaaaaaaaaaaaaaaaaaaaaaaaaaaaaaaaaaaa"
         "2222222222222222222222222222222222222222"
         "3333333333333333333333333333333333333333"
         (fun _ => 0) (fun _ => 9007199254740990)
         hash20 (fun i => hash20 (i + 5)).

(** Second round: the picks land on the coinbase output and on four
    payment outputs, every amount is drawn in the middle. *)
Definition rnd2 : Rand :=
  mkRand "4444444444444444444444444444444444444444"
         "bbbbbbbbbbbbbbbbbbbbbbbbbbbbbbbbbbbbbbbbbbbbbbbbbbbbbbbbbbbbbbbb"
         "5555555555555555555555555555555555555555"
         "6666666666666666666666666666666666666666"
         (fun k => nth k [0; 0; 1501199875790166; 2814749767106560;
                          4503599627370496] 0)
         (fun _ => 4503599627370496)
         hash20 (fun i => hash20 (i + 5)).

(** Second round, other draws: the first pick lands on a change output
    worth 1000 sats. *)
Definition rnd_dust : Rand :=
  mkRand "4444444444444444444444444444444444444444"
         "bbbbbbbbbbbbbbbbbbbbbbbbbbbbbbbbbbbbbbbbbbbbbbbbbbbbbbbbbbbbbbbb"
         "5555555555555555555555555555555555555555"
         "6666666666666666666666666666666666666666"
         (fun _ => 2047090739713862)
         (fun _ => 4503599627370496)
         hash20 (fun i => hash20 (i + 5)).

Definition empty_ledger : Blockchain := mkBlockchain 3 [] [].

Definition bc0 : Blockchain :=
  Eval vm_compute in
    match new_Blockchain 11 now0 3 with
    | Some bc => bc
    | None => empty_ledger
    end.

Definition bc1 : Blockchain :=
  Eval vm_compute in fst (api_mine 3 now1 rnd1 bc0).

Definition bc2 : Blockchain :=
  Eval vm_compute in fst (api_mine 4 now2 rnd2 bc1).

Definition block0 : Block := Eval vm_compute in nth 0 (chain bc2) (new_Block "" 0 "" []).
Definition block1 : Block := Eval vm_compute in nth 1 (chain bc2) (new_Block "" 0 "" []).
Definition block2 : Block := Eval vm_compute in nth 2 (chain bc2) (new_Block "" 0 "" []).


(** Block 1 of the mined ledger with its [idx] field overwritten by 7. *)
Definition block1_idx7 : Block :=
  mkBlock 7 (prevHash block1) (transactions block1) (ts block1) (nonce block1)
          (merkleRoot block1) (hash block1).

(* ----------------------------------------------------------------- *)
(** ** Vocabulary of the further properties *)

(** Every character of [s] satisfies [f]. *)
Fixpoint string_forallb (f : ascii -> bool) (s : string) : bool :=
  match s with
  | EmptyString => true
  | String c s' => f c && string_forallb f s'
  end.

Definition trimmed (s : string) : bool :=
  match s with
  | EmptyString => true
  | String c _ => negb (is_space c)
  end
  && match string_rev s "" with
     | EmptyString => true
     | String c _ => negb (is_space c)
     end.

Definition is_digit (c : ascii) : bool :=
  let n := Z.of_N (N_of_ascii c) in (48 <=? n) && (n <=? 57).

(** The outputs held under one identifier carry their positions as
    indices: 0, 1, 2, ... *)
Definition entry_wf (outs : list UTXO) : Prop :=
  map u_index outs = map Z.of_nat (seq 0 (List.length outs)).

(** A pool as the class keeps it: a [Map] holds a key once, and every
    list of outputs is indexed by position. *)
Definition pool_wf (p : Pool) : Prop :=
  NoDup (map fst p) /\ Forall (fun kv => entry_wf (snd kv)) p.

(** The output that an element of [listAvailable()] points to. *)
Definition outpoint (a : Avail) : string * Z := (a_txid a, a_index a).

(** The element of [listAvailable()] for an output held under [t]. *)
Definition avail_of (t : string) (o : UTXO) : Avail :=
  mkAvail t (u_index o) (u_value o) (u_scriptPubKey o).

(** What the fields of a verdict on [n] blocks have to do with each
    other. *)
Definition verdict_consistent (v : verdict) (n : nat) : Prop :=
  List.length (dets v) = n /\
  (isValid v = true <-> invBlkIdx v = []) /\
  (isValid v = true <-> forall x, In x (dets v) -> blkVal x = true) /\
  invBlkIdx v = map det_idx (filter (fun x => negb (blkVal x)) (dets v)) /\
  (forall x, In x (dets v) ->
             blkVal x = negb (cc x) && isHashVal x && isPowVal x && isPrevVal x
                        && isIdxVal x) /\
  (forall x, nth_error (dets v) 0 = Some x -> cc x = false) /\
  (forall x, nth_error (dets v) 0 = Some x -> blkVal x = false ->
             invBlkIdx v = map det_idx (dets v)).

(** The local variables [poolCopy] and [chosenUTXOs] of
    [createFiveRandomTxs], once the picking loop has run. *)
Definition poolCopy_of (rnd : Rand) (p : Pool) : list Avail :=
  if (List.length (listAvailable p) <? 5)%nat
  then listAvailable p
         ++ [ mkAvail (rand_faucetTxid rnd) 0 50000000
                      (p2pkhScript (rand_faucetCopyHash rnd)) ]
  else listAvailable p.

Definition chosen_of (rnd : Rand) (p : Pool) : list Avail :=
  pick_utxos rnd 5 0 [] (poolCopy_of rnd p).

(** The input that spends the output [u]. *)
Definition input_of (u : Avail) : list TxIn := [ mkTxIn (a_txid u) (a_index u) None ].











(* ----------------------------------------------------------------- *)
(** ** The page: [liveChain] of [public/main.js] *)

(** [GET /api/chain]: the chain and the verdict of [validateChain()]. *)
Definition api_chain (bc : Blockchain) : list Block * verdict :=
  (chain bc, validateChain bc).

(** [idxInfo.get(k)] for [idxInfo = new Map(dets.map(d => [d.idx, d]))]:
    of the records stored under a key the last one is kept.  The keys
    looked up are the [idx] of blocks, which are integers; a record whose
    [idx] is [NaN] is found under none of them. *)
Definition idxInfo_get (ds : list det) (k : Z) : option det :=
  find (fun d => number_eqb (det_idx d) (Num k)) (rev ds).

(** An argument of [Math.min] as the page has it: a [NaN] is written
    [null] in the response, and [Math.min] reads [null] as 0. *)
Definition min_operand (n : number) : Z :=
  match n with
  | Num z => z
  | NaN => 0
  end.

(** [invIdx.length ? Math.min(...invIdx) : Infinity], with [None] for
    [Infinity]. *)
Definition badIdx_of (invIdx : list number) : option Z :=
  match map min_operand invIdx with
  | [] => None
  | z :: zs => Some (fold_left Z.min zs z)
  end.

(** [d.f === false] and [d.f === true] for [d = idxInfo.get(b.idx) || {}]:
    on the empty object the field is [undefined] and both are false. *)
Definition is_false (d : option det) (f : det -> bool) : bool :=
  match d with
  | Some x => negb (f x)
  | None => false
  end.

Definition is_true (d : option det) (f : det -> bool) : bool :=
  match d with
  | Some x => f x
  | None => false
  end.

Definition reasons_of (d : option det) : list string :=
  (if is_true d cc then ["Cascaded from previous invalid block"] else []) ++
  (if is_false d isIdxVal then ["Index broken"] else []) ++
  (if is_false d isPrevVal then ["Previous hash mismatch"] else []) ++
  (if is_false d isPowVal then ["Proof-of-Work not satisfied"] else []) ++
  (if is_false d isHashVal then ["Hash does not match block contents"] else []).

(** [b.idx >= badIdx]. *)
Definition at_or_after (badIdx : option Z) (b : Block) : bool :=
  match badIdx with
  | Some m => m <=? idx b
  | None => false
  end.

(** The test that raises [firstBad]. *)
Definition raises_firstBad (d : option det) : bool :=
  is_false d blkVal || is_true d cc || is_false d isHashVal ||
  is_false d isPrevVal || is_false d isPowVal || is_false d isIdxVal.

(** What the loop hands to [blkView] for one block: the block, the flag
    [isInv] (the element gets the class [inv] and the badge [Invalid] when
    it is set, the class [val] otherwise), the flag [isGen] (the badge
    [Genesis]) and the list of reasons; and whether the element gets the
    class [gen], as the first one does. *)
Record view : Type := mkView
  { v_blk : Block;
    v_isInv : bool;
    v_isGen : bool;
    v_reasons : list string;
    v_gen_class : bool }.

(** The loop of [liveChain], from position [pos] on. *)
Fixpoint liveChain_loop (idxInfo : Z -> option det) (badIdx : option Z)
    (firstBad : bool) (pos : nat) (rest : list Block) : list view :=
  match rest with
  | [] => []
  | b :: rest' =>
      let d := idxInfo (idx b) in
      let reasons := reasons_of d in
      let isGen := idx b =? 0 in
      let isInv :=
        firstBad || is_false d blkVal || is_true d cc || at_or_after badIdx b in
      let firstBad' := firstBad || raises_firstBad d in
      mkView b isInv isGen reasons (Nat.eqb pos 0)
        :: liveChain_loop idxInfo badIdx firstBad' (S pos) rest'
  end.

(** [liveChain(pld)] for [pld = { chain, val }]: the elements appended to
    the page, in order. *)
Definition liveChain (pld : list Block * verdict) : list view :=
  let '(chain, val) := pld in
  liveChain_loop (idxInfo_get (dets val)) (badIdx_of (invBlkIdx val)) false 0 chain.

(** The blocks are numbered by their position. *)
Definition numbered (chain : list Block) : Prop :=
  forall i b, nth_error chain i = Some b -> idx b = Z.of_nat i.

(* ================================================================= *)
(** * Part II: lemmas and theorems *)
(* ================================================================= *)

Arguments sha256_hex : simpl never.
Arguments string_of_Z : simpl never.
Arguments header_of : simpl never.
Arguments repeat_string : simpl never.

(* ----------------------------------------------------------------- *)
(** ** The loop shared by the validators *)

Lemma record_checks_eq (res : verdict) (ccInv : bool) (c : checks) :
  record_checks (res, ccInv) c =
  let d := det_of ccInv c in
  (mkVerdict (isValid res && blkVal d)
             (invBlkIdx res ++ (if blkVal d then [] else [chk_idx c]))
             (dets res ++ [d]),
   ccInv || negb (blkVal d)).
Proof.
  unfold record_checks, record_block, det_of; simpl.
  destruct (negb ccInv && chk_hash c && chk_pow c && chk_prev c && chk_index c);
    simpl.
  - now rewrite andb_true_r, app_nil_r, orb_false_r.
  - now rewrite andb_false_r, orb_true_r.
Qed.

Lemma scan_spec (l : list checks) :
  forall res ccInv,
    fold_left record_checks l (res, ccInv) =
    (mkVerdict (isValid res && forallb blkVal (dets_from ccInv l))
               (invBlkIdx res ++ failing_idx (dets_from ccInv l))
               (dets res ++ dets_from ccInv l),
     ccInv || negb (forallb blkVal (dets_from ccInv l))).
Proof.
  induction l as [|c l IH]; intros res ccInv.
  - simpl. rewrite andb_true_r, !app_nil_r, orb_false_r. now destruct res.
  - cbn [fold_left]. rewrite record_checks_eq. cbv zeta. rewrite IH.
    cbn [isValid invBlkIdx dets dets_from forallb].
    unfold failing_idx. cbn [filter map].
    f_equal; [f_equal|].
    + now rewrite andb_assoc.
    + rewrite <- app_assoc. f_equal.
      now destruct (blkVal (det_of ccInv c)).
    + now rewrite <- app_assoc.
    + rewrite negb_andb, orb_assoc. reflexivity.
Qed.

Lemma scan_verdict (l : list checks) :
  fst (fold_left record_checks l (mkVerdict true [] [], false)) = verdict_of l.
Proof. now rewrite scan_spec. Qed.

Lemma dets_from_length (l : list checks) :
  forall ccInv, List.length (dets_from ccInv l) = List.length l.
Proof. induction l; intros; simpl; auto. Qed.

Lemma dets_from_app (l1 l2 : list checks) :
  forall ccInv,
    dets_from ccInv (l1 ++ l2) =
    dets_from ccInv l1
      ++ dets_from (ccInv || negb (forallb blkVal (dets_from ccInv l1))) l2.
Proof.
  induction l1 as [|c l1 IH]; intros ccInv.
  - simpl. now rewrite orb_false_r.
  - cbn [app dets_from forallb]. rewrite IH. cbn [app]. do 3 f_equal.
    now rewrite negb_andb, orb_assoc.
Qed.

(** Under a raised flag every record is cascaded and invalid. *)
Lemma dets_from_poisoned (l : list checks) :
  forall i d, nth_error (dets_from true l) i = Some d ->
              cc d = true /\ blkVal d = false.
Proof.
  induction l as [|c l IH]; intros [|i] d H; simpl in H; try discriminate.
  - injection H as <-. now split.
  - eapply IH, H.
Qed.

Lemma dets_from_cascades (l : list checks) :
  forall ccInv, cascades (dets_from ccInv l).
Proof.
  induction l as [|c l IH]; intros ccInv i j di dj Hij Hi Hfail Hj.
  - destruct i; discriminate.
  - destruct j as [|j]; [lia|].
    destruct i as [|i]; cbn [dets_from nth_error] in Hi, Hj.
    + injection Hi as <-. rewrite Hfail, orb_true_r in Hj.
      eapply dets_from_poisoned, Hj.
    + eapply (IH _ i j); eauto. lia.
Qed.

(** Each record carries the checks of its block, and its verdict is the
    conjunction of the flag and the checks. *)
Lemma dets_from_nth (l : list checks) :
  forall ccInv i d,
    nth_error (dets_from ccInv l) i = Some d ->
    exists c, nth_error l i = Some c /\
              det_idx d = chk_idx c /\ isHashVal d = chk_hash c /\
              isPowVal d = chk_pow c /\ isPrevVal d = chk_prev c /\
              isIdxVal d = chk_index c /\
              blkVal d = negb (cc d) && passes c.
Proof.
  induction l as [|c l IH]; intros ccInv [|i] d H; simpl in H; try discriminate.
  - injection H as <-. exists c. unfold passes. simpl.
    now rewrite !andb_assoc.
  - destruct (IH _ _ _ H) as (c' & ? & ?). now exists c'.
Qed.

Lemma dets_from_valid (l : list checks) :
  forallb passes l = true ->
  forallb blkVal (dets_from false l) = true /\
  forall i d, nth_error (dets_from false l) i = Some d ->
              cc d = false /\ blkVal d = true.
Proof.
  induction l as [|c l IH]; intros H.
  - split; [reflexivity|]. intros [|i] d Hd; discriminate.
  - simpl in H. apply andb_true_iff in H as [Hc Hl].
    destruct (IH Hl) as [IH1 IH2].
    assert (Hb : blkVal (det_of false c) = true).
    { unfold passes in Hc. simpl. exact Hc. }
    cbn [dets_from forallb]. rewrite Hb. simpl. split; [exact IH1|].
    intros [|i] d Hd; simpl in Hd.
    + injection Hd as <-. now split.
    + eapply IH2, Hd.
Qed.

Lemma dets_from_all_valid (l : list checks) :
  forallb blkVal (dets_from false l) = true -> forallb passes l = true.
Proof.
  induction l as [|c l IH]; [reflexivity|].
  cbn [dets_from forallb]. intros H.
  apply andb_true_iff in H as [Hc Hl]. rewrite Hc in Hl. simpl in Hl.
  rewrite (IH Hl), andb_true_r. unfold passes. simpl in Hc. exact Hc.
Qed.

(* ----------------------------------------------------------------- *)
(** ** The monad *)

Lemma bind_Ok {A B : Type} (m : M A) (k : A -> M B) (b : B) :
  bind m k = Ok b -> exists a, m = Ok a /\ k a = Ok b.
Proof. destruct m as [a|e]; simpl; [eauto | discriminate]. Qed.

Lemma Ok_inj {A : Type} (a b : A) : Ok a = Ok b -> a = b.
Proof. now intros [= ->]. Qed.

Lemma mapM_Forall2 {A B : Type} (f : A -> M B) (l : list A) :
  forall ys, mapM f l = Ok ys -> Forall2 (fun x y => f x = Ok y) l ys.
Proof.
  induction l as [|x l IH]; simpl; intros ys H.
  - injection H as <-. constructor.
  - apply bind_Ok in H as (y & Hy & H). apply bind_Ok in H as (ys' & Hys & H).
    injection H as <-. constructor; auto.
Qed.

Lemma mapM_length {A B : Type} (f : A -> M B) (l : list A) (ys : list B) :
  mapM f l = Ok ys -> List.length ys = List.length l.
Proof.
  intros H. apply mapM_Forall2 in H. symmetry. eapply Forall2_length, H.
Qed.

Lemma mapM_nth {A B : Type} (f : A -> M B) (l : list A) (ys : list B) :
  mapM f l = Ok ys ->
  forall i y, nth_error ys i = Some y ->
              exists x, nth_error l i = Some x /\ f x = Ok y.
Proof.
  intros H. apply mapM_Forall2 in H. induction H; intros [|i] z Hz;
    simpl in Hz; try discriminate.
  - injection Hz as <-. eexists; split; [reflexivity | assumption].
  - now apply IHForall2.
Qed.

Lemma mapM_total {A B : Type} (f : A -> M B) (l : list A) :
  (forall x, In x l -> exists y, f x = Ok y) -> exists ys, mapM f l = Ok ys.
Proof.
  induction l as [|x l IH]; intros H; simpl.
  - now exists [].
  - destruct (H x (or_introl eq_refl)) as [y ->].
    destruct IH as [ys ->]; [intros; apply H; now right|].
    simpl. eauto.
Qed.

Lemma mapM_ext_in {A B : Type} (f g : A -> M B) (l : list A) :
  (forall x, In x l -> f x = g x) -> mapM f l = mapM g l.
Proof.
  induction l as [|x l IH]; intros H; simpl; [reflexivity|].
  rewrite (H x (or_introl eq_refl)), IH; [reflexivity|].
  intros; apply H; now right.
Qed.

Lemma mapM_pure {A B : Type} (f : A -> B) (l : list A) :
  mapM (fun x => Ok (f x)) l = Ok (map f l).
Proof. induction l; simpl; [reflexivity | now rewrite IHl]. Qed.

(* ----------------------------------------------------------------- *)
(** ** Both validators run the shared loop on their checks *)

Lemma validate_at_checks (target : string) (chain : list Block) (st : verdict * bool)
    (i : nat) (curr : Block) :
  nth_error chain i = Some curr ->
  validate_at target chain st i = record_checks st (live_checks target chain i curr).
Proof.
  intros H. unfold validate_at. rewrite H. reflexivity.
Qed.

Lemma fold_validate (target : string) (chain : list Block) (rest : list Block) :
  forall pre st,
    chain = pre ++ rest ->
    fold_left (validate_at target chain) (seq (List.length pre) (List.length rest)) st =
    fold_left record_checks (live_checks_from target chain (List.length pre) rest) st.
Proof.
  induction rest as [|curr rest IH]; intros pre st Hc; [reflexivity|].
  cbn [List.length seq fold_left live_checks_from].
  rewrite (@validate_at_checks target chain st (List.length pre) curr).
  - specialize (IH (pre ++ [curr]) (record_checks st (live_checks target chain (List.length pre) curr))).
    rewrite length_app, Nat.add_1_r in IH. apply IH.
    now rewrite <- app_assoc.
  - rewrite Hc, nth_error_app2, Nat.sub_diag by lia. reflexivity.
Qed.

(** [validateChain()] is the shared loop on the checks of the blocks. *)
Lemma validateChain_of_spec (d : nat) (chain : list Block) :
  validateChain_of d chain = verdict_of (live_checks_list d chain).
Proof.
  unfold validateChain_of, live_checks_list.
  rewrite (@fold_validate _ chain chain [] _ eq_refl).
  apply scan_verdict.
Qed.

Ltac step_bind :=
  match goal with
  | |- context [bind ?m _] =>
      let E := fresh "E" in destruct m eqn:E; cbn [bind]; try reflexivity
  end.

Lemma validChain_at_checks (target : string) (chain : list value)
    (st : verdict * bool) (i : nat) :
  validChain_at target chain st i =
  (c <- import_checks target chain i ;; Ok (record_checks st c)).
Proof.
  unfold validChain_at, import_checks.
  repeat step_bind.
Qed.

Lemma fold_validChain_Throw (target : string) (chain : list value) (l : list nat)
    (e : error) :
  fold_left (fun st i => s <- st ;; validChain_at target chain s i) l (Throw e)
  = Throw e.
Proof. induction l; simpl; auto. Qed.

Lemma fold_validChain (target : string) (chain : list value) (l : list nat) :
  forall st,
    fold_left (fun st i => s <- st ;; validChain_at target chain s i) l (Ok st) =
    (cs <- mapM (import_checks target chain) l ;;
     Ok (fold_left record_checks cs st)).
Proof.
  induction l as [|i l IH]; intros st; [reflexivity|].
  cbn [fold_left mapM bind]. rewrite validChain_at_checks.
  destruct (import_checks target chain i) as [c|e]; cbn [bind].
  - rewrite IH. destruct (mapM (import_checks target chain) l); reflexivity.
  - apply fold_validChain_Throw.
Qed.

(** [validChain] is the shared loop on the checks of the records, as
    long as no conversion raises. *)
Lemma validChain_spec (chain : list value) (d : nat) :
  validChain chain d =
  (cs <- mapM (import_checks (repeat_string "0" d) chain)
              (seq 0 (List.length chain)) ;;
   Ok (verdict_of cs)).
Proof.
  unfold validChain. rewrite fold_validChain.
  destruct (mapM _ _) as [cs|e]; cbn [bind]; [|reflexivity].
  now rewrite scan_verdict.
Qed.

(* ----------------------------------------------------------------- *)
(** ** The checks of the live chain, position by position *)


Lemma live_checks_from_nth (target : string) (chain : list Block) (rest : list Block) :
  forall i k,
    nth_error (live_checks_from target chain i rest) k =
    match nth_error rest k with
    | Some curr => Some (live_checks target chain (i + k) curr)
    | None => None
    end.
Proof.
  induction rest as [|b rest IH]; intros i [|k]; simpl; try reflexivity.
  - now rewrite Nat.add_0_r.
  - rewrite IH. now rewrite Nat.add_succ_r.
Qed.

Lemma live_checks_list_nth (d : nat) (chain : list Block) (k : nat) :
  nth_error (live_checks_list d chain) k =
  match nth_error chain k with
  | Some curr => Some (live_checks (repeat_string "0" d) chain k curr)
  | None => None
  end.
Proof. unfold live_checks_list. now rewrite live_checks_from_nth. Qed.



Lemma valid_chain_passes (d : nat) (chain : list Block) :
  isValid (validateChain_of d chain) = true ->
  forall j c, nth_error (live_checks_list d chain) j = Some c -> passes c = true.
Proof.
  rewrite validateChain_of_spec. cbn [verdict_of isValid]. intros H j c Hc.
  apply dets_from_all_valid in H. rewrite forallb_forall in H.
  eapply H, nth_error_In, Hc.
Qed.



(* ----------------------------------------------------------------- *)
(** ** Cascading invalidity *)



(* ----------------------------------------------------------------- *)
(** ** The index a failing block is reported under *)

Ltac inv_bind H :=
  repeat (let x := fresh "x" in
          let E := fresh "E" in
          cbv beta zeta in H;
          apply bind_Ok in H as (x & E & H)).

Lemma mapM_nth_of {A B : Type} (f : A -> M B) (l : list A) (ys : list B) :
  mapM f l = Ok ys ->
  forall i x, nth_error l i = Some x ->
              exists y, nth_error ys i = Some y /\ f x = Ok y.
Proof.
  intros H. apply mapM_Forall2 in H. induction H; intros [|i] z Hz;
    simpl in Hz; try discriminate.
  - injection Hz as <-. eexists; split; [reflexivity | assumption].
  - now apply IHForall2.
Qed.

Lemma nth_error_seq0 (n i : nat) : (i < n)%nat -> nth_error (seq 0 n) i = Some i.
Proof.
  intros H. rewrite (@nth_error_nth' _ (seq 0 n) i 0%nat) by now rewrite length_seq.
  now rewrite seq_nth.
Qed.

Lemma dets_from_at (l : list checks) (ccInv : bool) (i : nat) (c : checks) :
  nth_error l i = Some c ->
  exists d, nth_error (dets_from ccInv l) i = Some d /\ det_idx d = chk_idx c.
Proof.
  intros Hc.
  destruct (nth_error (dets_from ccInv l) i) as [d|] eqn:Hd.
  - exists d. split; [reflexivity|].
    destruct (dets_from_nth _ _ _ Hd) as (c' & Hc' & Hi & _). congruence.
  - apply nth_error_None in Hd. rewrite dets_from_length in Hd.
    assert (i < List.length l)%nat by (apply nth_error_Some; congruence). lia.
Qed.


(** The checks [validChain] made at a position, from its verdict. *)
Lemma validChain_checks_at (records : list value) (d : nat) (v : verdict) :
  validChain records d = Ok v ->
  exists cs, v = verdict_of cs /\
             forall i raw, nth_error records i = Some raw ->
                           exists c, nth_error cs i = Some c /\
                                     import_checks (repeat_string "0" d) records i = Ok c.
Proof.
  intros Hv. rewrite validChain_spec in Hv. apply bind_Ok in Hv as (cs & Hcs & [= <-]).
  exists cs. split; [reflexivity|]. intros i raw Hraw.
  assert (Hi : (i < List.length records)%nat) by (apply nth_error_Some; congruence).
  exact (mapM_nth_of _ _ Hcs _ (nth_error_seq0 Hi)).
Qed.



(** The corrupted block is listed as 7, by either validator, although it
    stands at position 1. *)
Example corrupted_idx_is_reported :
  invBlkIdx (validateChain_of 3 [block0; block1_idx7]) = [Num 7] /\
  exists v, validChain (import_structured [block0; block1_idx7]) 3 = Ok v /\
            invBlkIdx v = [Num 7].
Proof.
  split; [vm_compute; reflexivity|].
  eexists; split; vm_compute; reflexivity.
Qed.

(* ----------------------------------------------------------------- *)
(** ** The digest is 32 bytes, 64 hexadecimal characters *)

Lemma hex_of_bytes_length (b : buffer) :
  String.length (hex_of_bytes b) = (2 * List.length b)%nat.
Proof. induction b; simpl; [reflexivity | rewrite IHb; lia]. Qed.

Lemma sha256_length (m : buffer) : List.length (sha256 m) = 32%nat.
Proof.
  unfold sha256, SHA256.digest, SHA256.digest_bytes.
  rewrite !length_app. reflexivity.
Qed.


(** The digest agrees with the published test vectors. *)
Example sha256_hex_abc :
  sha256_hex "abc"
  = "ba7816bf8f01cfea414140de5dae2223b00361a396177a9cb410ff61f20015ad".
Proof. vm_compute. reflexivity. Qed.

Example sha256_hex_empty :
  sha256_hex ""
  = "e3b0c44298fc1c149afbf4c8996fb92427ae41e4649b934ca495991b7852b855".
Proof. vm_compute. reflexivity. Qed.

Example sha256_hex_two_blocks :
  sha256_hex "abcdbcdecdefdefgefghfghighijhijkijkljklmklmnlmnomnopnopq"
  = "248d6a61d20638b8e5c026930c3e6039a33ce45964ff2167f6ecedd419db06c1".
Proof. vm_compute. reflexivity. Qed.

(* ----------------------------------------------------------------- *)
(** ** The nonce search *)





Lemma computeHeaderHash_ext (b1 b2 : Block) :
  idx b1 = idx b2 -> ts b1 = ts b2 -> prevHash b1 = prevHash b2 ->
  merkleRoot b1 = merkleRoot b2 -> nonce b1 = nonce b2 ->
  computeHeaderHash b1 = computeHeaderHash b2.
Proof.
  intros. unfold computeHeaderHash, headerString. congruence.
Qed.

(** What the search returns: the block it was given under the first nonce,
    from the one it started at, whose header hash meets the target. *)
Lemma mineHeader_sound (fuel : nat) :
  forall d b b',
    mineHeader fuel d b = Some b' ->
    hash b' = computeHeaderHash b' /\
    startsWith (repeat_string "0" d) (hash b') = true /\
    (idx b' = idx b /\ ts b' = ts b /\ prevHash b' = prevHash b /\
     merkleRoot b' = merkleRoot b /\ transactions b' = transactions b) /\
    nonce b <= nonce b' /\
    forall n, nonce b <= n < nonce b' ->
              startsWith (repeat_string "0" d) (computeHeaderHash (set_nonce n b)) = false.
Proof.
  induction fuel as [|fuel IH]; intros d b b' H; [discriminate|].
  cbn [mineHeader] in H. cbv zeta in H.
  destruct (startsWith (repeat_string "0" d) (hash (set_hash (computeHeaderHash b) b)))
    eqn:Hs.
  - injection H as <-. cbn [hash set_hash] in *.
    repeat split; try reflexivity; try assumption; try lia.
    intros n Hn. cbn [nonce set_hash] in Hn. lia.
  - apply IH in H as (H1 & H2 & (H3 & H4 & H5 & H6 & H7) & H8 & H9).
    cbn [idx ts prevHash merkleRoot transactions nonce set_nonce set_hash] in *.
    repeat split; try assumption; try lia.
    intros n Hn. destruct (Z.eq_dec n (nonce b)) as [->|Hne].
    + cbn [hash set_hash] in Hs.
      now rewrite (@computeHeaderHash_ext (set_nonce (nonce b) b) b).
    + rewrite (@computeHeaderHash_ext (set_nonce n b)
                 (set_nonce n (set_nonce (nonce b + 1)
                                         (set_hash (computeHeaderHash b) b))));
        try reflexivity.
      apply H9. lia.
Qed.






(* ----------------------------------------------------------------- *)
(** ** The UTXO pool *)

Lemma Map_get_set_same (k : string) (v : list UTXO) (m : Pool) :
  Map_get k (Map_set k v m) = Some v.
Proof.
  induction m as [|[k' v'] m IH]; simpl.
  - now rewrite String.eqb_refl.
  - destruct (String.eqb k k') eqn:E; simpl; rewrite E; [reflexivity | exact IH].
Qed.

Lemma Map_get_set_other (k k' : string) (v : list UTXO) (m : Pool) :
  k' <> k -> Map_get k' (Map_set k v m) = Map_get k' m.
Proof.
  intros Hne. induction m as [|[k0 v0] m IH]; simpl.
  - apply String.eqb_neq in Hne. now rewrite Hne.
  - destruct (String.eqb k k0) eqn:E; simpl.
    + apply String.eqb_eq in E. subst k0.
      apply String.eqb_neq in Hne. now rewrite Hne.
    + destruct (String.eqb k' k0); [reflexivity | exact IH].
Qed.

Lemma find_mark_spent_same (i : Z) (outs : list UTXO) (o : UTXO) :
  find_output i outs = Some o ->
  find_output i (mark_spent i outs)
  = Some (mkUTXO (u_index o) (u_value o) (u_scriptPubKey o) true).
Proof.
  unfold find_output. induction outs as [|x outs IH]; simpl; [discriminate|].
  destruct (u_index x =? i) eqn:E; simpl.
  - intros [= <-]. now rewrite E.
  - rewrite E. exact IH.
Qed.

Lemma find_mark_spent_other (i i' : Z) (outs : list UTXO) :
  i' <> i -> find_output i' (mark_spent i outs) = find_output i' outs.
Proof.
  intros Hne. unfold find_output. induction outs as [|x outs IH]; simpl; [reflexivity|].
  destruct (u_index x =? i) eqn:E; simpl.
  - apply Z.eqb_eq in E.
    replace (u_index x =? i') with false by (symmetry; apply Z.eqb_neq; lia).
    reflexivity.
  - destruct (u_index x =? i'); [reflexivity | exact IH].
Qed.

Lemma find_output_index (i : Z) (outs : list UTXO) (o : UTXO) :
  find_output i outs = Some o -> u_index o = i.
Proof.
  unfold find_output. intros H. apply find_some in H as [_ H]. now apply Z.eqb_eq.
Qed.

(** A successful [spend] marks the entry and leaves every other entry as
    it was. *)
Lemma spend_unspent (p : Pool) (t : string) (i : Z) (o : UTXO) :
  pool_entry t i p = Some o -> u_spent o = false ->
  exists p',
    spend t i p = (p', true) /\
    pool_entry t i p' = Some (mkUTXO (u_index o) (u_value o) (u_scriptPubKey o) true) /\
    (forall t' i', (t', i') <> (t, i) -> pool_entry t' i' p' = pool_entry t' i' p).
Proof.
  unfold pool_entry, spend. intros He Hs.
  destruct (Map_get t p) as [outs|] eqn:Hg; [|discriminate].
  rewrite He, Hs. eexists. split; [reflexivity|]. split.
  - rewrite Map_get_set_same. now apply find_mark_spent_same.
  - intros t' i' Hne. destruct (String.eqb t' t) eqn:E.
    + apply String.eqb_eq in E. subst t'. rewrite Map_get_set_same, Hg.
      apply find_mark_spent_other. congruence.
    + apply String.eqb_neq in E. now rewrite Map_get_set_other.
Qed.

Lemma spend_refused (p : Pool) (t : string) (i : Z) :
  (pool_entry t i p = None \/
   exists o, pool_entry t i p = Some o /\ u_spent o = true) ->
  spend t i p = (p, false).
Proof.
  unfold pool_entry, spend. destruct (Map_get t p) as [outs|]; [|reflexivity].
  intros [-> | (o & -> & ->)]; reflexivity.
Qed.

(** C6.  [spend] returns true exactly when the entry under
    [(txid, index)] exists and is unspent; it then sets the flag of that
    entry, and of no other, to spent, so that a second call on the same
    key returns false.  When the entry is missing or already spent, the
    call returns false and the pool is unchanged; the call never
    raises. *)
Theorem spend_flips_once :
  forall (p : Pool) (t : string) (i : Z),
    (snd (spend t i p) = true <->
     exists o, pool_entry t i p = Some o /\ u_spent o = false) /\
    (forall o,
        pool_entry t i p = Some o -> u_spent o = false ->
        exists p',
          spend t i p = (p', true) /\
          pool_entry t i p'
          = Some (mkUTXO (u_index o) (u_value o) (u_scriptPubKey o) true) /\
          (forall t' i', (t', i') <> (t, i) ->
                         pool_entry t' i' p' = pool_entry t' i' p) /\
          spend t i p' = (p', false)) /\
    ((pool_entry t i p = None \/
      exists o, pool_entry t i p = Some o /\ u_spent o = true) ->
     spend t i p = (p, false)).
Proof.
  intros p t i. split; [|split].
  - split.
    + intros H. destruct (pool_entry t i p) as [o|] eqn:He.
      * destruct (u_spent o) eqn:Hs; [|eauto].
        rewrite spend_refused in H by eauto. discriminate.
      * rewrite spend_refused in H by auto. discriminate.
    + intros (o & He & Hs). destruct (spend_unspent _ _ _ He Hs) as (p' & -> & _).
      reflexivity.
  - intros o He Hs. destruct (spend_unspent _ _ _ He Hs) as (p' & H1 & H2 & H3).
    exists p'. repeat split; try assumption.
    apply spend_refused. right. eexists. split; [exact H2 | reflexivity].
  - apply spend_refused.
Qed.

(** Alice's seed output, spent twice. *)
Lemma spend_flips_once_witness :
  pool_entry aliceTxid 0 (utxo bc0)
  = Some (mkUTXO 0 100000000 "76a9141d0f172a0ecb48aee1be1f2687d2963ae33f71a188ac" false) /\
  exists p',
    spend aliceTxid 0 (utxo bc0) = (p', true) /\
    pool_entry aliceTxid 0 p'
    = Some (mkUTXO 0 100000000 "76a9141d0f172a0ecb48aee1be1f2687d2963ae33f71a188ac" true) /\
    (forall t' i', (t', i') <> (aliceTxid, 0) ->
                   pool_entry t' i' p' = pool_entry t' i' (utxo bc0)) /\
    spend aliceTxid 0 p' = (p', false).
Proof.
  split; [reflexivity|].
  exact (proj1 (proj2 (spend_flips_once (utxo bc0) aliceTxid 0)) _ eq_refl eq_refl).
Defined.

(* ----------------------------------------------------------------- *)
(** ** What happens to an entry of the pool *)

Lemma survives_refl (e : UTXO) : survives e e.
Proof. unfold survives. auto. Qed.

Lemma survives_trans (e1 e2 e3 : UTXO) :
  survives e1 e2 -> survives e2 e3 -> survives e1 e3.
Proof. unfold survives. intuition congruence. Qed.

Lemma spend_survives (p : Pool) (t0 : string) (i0 : Z) (t : string) (i : Z) (e : UTXO) :
  pool_entry t i p = Some e ->
  exists e', pool_entry t i (fst (spend t0 i0 p)) = Some e' /\ survives e e'.
Proof.
  intros He.
  destruct (pool_entry t0 i0 p) as [o|] eqn:Ho.
  - destruct (u_spent o) eqn:Hs.
    + rewrite spend_refused by eauto. exists e. split; [exact He | apply survives_refl].
    + destruct (spend_unspent _ _ _ Ho Hs) as (p' & -> & Hsame & Hother). cbn [fst].
      destruct (string_dec t t0) as [->|Ht]; [destruct (Z.eq_dec i i0) as [->|Hi]|].
      * rewrite Hsame. eexists. split; [reflexivity|].
        rewrite He in Ho. injection Ho as <-. unfold survives. simpl. auto.
      * rewrite Hother by congruence. exists e. split; [exact He | apply survives_refl].
      * rewrite Hother by congruence. exists e. split; [exact He | apply survives_refl].
  - rewrite spend_refused by auto. exists e. split; [exact He | apply survives_refl].
Qed.

Lemma addTxOutputs_other (t0 : string) (outs : list TxOut) (p : Pool) (t : string)
    (i : Z) :
  t <> t0 -> pool_entry t i (addTxOutputs t0 outs p) = pool_entry t i p.
Proof.
  intros Hne. unfold pool_entry, addTxOutputs. now rewrite Map_get_set_other.
Qed.

Lemma outputs_from_unspent (outs : list TxOut) :
  forall n, Forall (fun e => u_spent e = false) (outputs_from n outs).
Proof. induction outs; intros n; simpl; constructor; auto. Qed.

Lemma run_ops_survives (ops : list pool_op) :
  forall p t i e,
    pool_entry t i p = Some e ->
    (forall op, In op ops -> ~ registers t op) ->
    exists e', pool_entry t i (run_ops ops p) = Some e' /\ survives e e'.
Proof.
  induction ops as [|op ops IH]; intros p t i e He Hops.
  - exists e. split; [exact He | apply survives_refl].
  - assert (Hstep : exists e1, pool_entry t i (run_op p op) = Some e1 /\ survives e e1).
    { destruct op as [t0 outs | t0 i0 |]; cbn [run_op].
      - rewrite addTxOutputs_other; [exists e; split; [exact He | apply survives_refl]|].
        intros ->. apply (Hops (RegisterOutputs t0 outs)); [now left | reflexivity].
      - now apply spend_survives.
      - exists e. split; [exact He | apply survives_refl]. }
    destruct Hstep as (e1 & He1 & Hs1).
    destruct (IH (run_op p op) t i e1 He1) as (e' & He' & Hs').
    { intros op' Hin. apply Hops. now right. }
    exists e'. split; [exact He' | eapply survives_trans; eauto].
Qed.

Lemma spend_inputs_survives (ins : list TxIn) :
  forall p t i e,
    pool_entry t i p = Some e ->
    exists e', pool_entry t i (spend_inputs ins p) = Some e' /\ survives e e'.
Proof.
  unfold spend_inputs.
  induction ins as [|inp ins IH]; intros p t i e He; cbn [fold_left].
  - exists e. split; [exact He | apply survives_refl].
  - destruct (String.eqb (in_txid inp) coinbase_txid).
    + now apply IH.
    + destruct (@spend_survives p (in_txid inp) (in_index inp) t i e He) as (e1 & He1 & Hs1).
      destruct (IH _ _ _ _ He1) as (e' & He' & Hs').
      exists e'. split; [exact He' | eapply survives_trans; eauto].
Qed.

Lemma apply_txs_survives (txs : list Tx) :
  forall p t i e,
    pool_entry t i p = Some e ->
    ~ In t (map txid txs) ->
    exists e', pool_entry t i (apply_txs txs p) = Some e' /\ survives e e'.
Proof.
  unfold apply_txs.
  induction txs as [|tx txs IH]; intros p t i e He Hnot; cbn [fold_left].
  - exists e. split; [exact He | apply survives_refl].
  - destruct (spend_inputs_survives (inputs tx) _ _ _ He) as (e1 & He1 & Hs1).
    assert (He2 : pool_entry t i (apply_tx p tx) = Some e1).
    { unfold apply_tx. rewrite addTxOutputs_other; [exact He1|].
      intros ->. apply Hnot. now left. }
    destruct (IH _ _ _ _ He2) as (e' & He' & Hs').
    { intros Hin. apply Hnot. now right. }
    exists e'. split; [exact He' | eapply survives_trans; eauto].
Qed.

Lemma not_In_by_eqb (t : string) (l : list string) :
  forallb (fun x => negb (String.eqb t x)) l = true -> ~ In t l.
Proof.
  intros H Hin. rewrite forallb_forall in H. specialize (H t Hin).
  now rewrite String.eqb_refl in H.
Qed.

(** C8, as the code has it.  An entry of the pool stays, with its
    index, value and script, and once spent stays spent, under any
    sequence of [spend], [listAvailable] and [addTxOutputs] calls and
    under the application of a block, as long as none of them registers
    outputs under the identifier of that entry.  Registering outputs
    under an identifier replaces whatever the pool held under it by the
    new outputs, all unspent. *)
Theorem pool_entries_persist :
  forall (p : Pool) (t : string) (i : Z) (e : UTXO),
    pool_entry t i p = Some e ->
    (forall ops,
        (forall op, In op ops -> ~ registers t op) ->
        exists e', pool_entry t i (run_ops ops p) = Some e' /\ survives e e') /\
    (forall txs,
        ~ In t (map txid txs) ->
        exists e', pool_entry t i (apply_txs txs p) = Some e' /\ survives e e') /\
    (forall outs,
        Map_get t (addTxOutputs t outs p) = Some (outputs_from 0 outs) /\
        Forall (fun e' => u_spent e' = false) (outputs_from 0 outs)).
Proof.
  intros p t i e He. split; [|split].
  - intros ops Hops. now apply run_ops_survives.
  - intros txs Hnot. now apply apply_txs_survives.
  - intros outs. split; [apply Map_get_set_same | apply outputs_from_unspent].
Qed.

(** Alice's seed output through the application of the second block. *)
Lemma pool_entries_persist_witness :
  pool_entry aliceTxid 0 (utxo bc1)
  = Some (mkUTXO 0 100000000 "76a9141d0f172a0ecb48aee1be1f2687d2963ae33f71a188ac" true) /\
  ~ In aliceTxid (map txid (transactions block2)) /\
  exists e',
    pool_entry aliceTxid 0 (apply_txs (transactions block2) (utxo bc1)) = Some e' /\
    survives (mkUTXO 0 100000000 "76a9141d0f172a0ecb48aee1be1f2687d2963ae33f71a188ac" true)
             e'.
Proof.
  assert (He : pool_entry aliceTxid 0 (utxo bc1)
               = Some (mkUTXO 0 100000000
                              "76a9141d0f172a0ecb48aee1be1f2687d2963ae33f71a188ac" true))
    by reflexivity.
  assert (Hnot : ~ In aliceTxid (map txid (transactions block2))).
  { apply not_In_by_eqb. vm_compute. reflexivity. }
  split; [exact He | split; [exact Hnot|]].
  exact (proj1 (proj2 (pool_entries_persist _ _ _ He)) _ Hnot).
Defined.

(** C8 as written fails.  A sequence of calls brings a spent entry back to
    unspent, another removes an entry; and the application of the second
    block of the concrete ledger replaces the coinbase output registered
    by the first block. *)
Lemma reregistration_replaces_entries :
  let outs := [mkTxOut 5 "00"] in
  let p := run_ops [RegisterOutputs "aa" outs; Spend "aa" 0] [] in
  option_map u_spent (pool_entry "aa" 0 p) = Some true /\
  option_map u_spent
    (pool_entry "aa" 0 (run_ops [RegisterOutputs "aa" outs; ListAvailable] p))
  = Some false /\
  pool_entry "aa" 0 (run_ops [RegisterOutputs "aa" []] p) = None /\
  utxo bc2 = apply_txs (transactions block2) (utxo bc1) /\
  option_map u_scriptPubKey (pool_entry coinbase_txid 0 (utxo bc1))
  = Some "76a914111111111111111111111111111111111111111188ac" /\
  option_map u_scriptPubKey (pool_entry coinbase_txid 0 (utxo bc2))
  = Some "76a914444444444444444444444444444444444444444488ac".
Proof.
  repeat split; vm_compute; reflexivity.
Qed.

(* ----------------------------------------------------------------- *)
(** ** The transaction codec *)

Lemma byte_buffer_mod (n : Z) : byte_buffer n = [n mod 256].
Proof.
  unfold byte_buffer. change 255 with (Z.ones 8).
  rewrite Z.land_ones by lia. reflexivity.
Qed.

Lemma writeUInt32LE_iff (v : Z) (b : buffer) :
  writeUInt32LE v = Ok b <-> u32 v /\ b = le_bytes 4 v.
Proof.
  unfold writeUInt32LE, u32.
  destruct (Z.leb_spec 0 v); destruct (Z.leb_spec v 4294967295); cbn [andb]; split;
    try discriminate; try (intros [? _]; lia).
  - intros [= <-]. split; [lia | reflexivity].
  - now intros [_ ->].
Qed.

Lemma writeBigUInt64LE_iff (v : Z) (b : buffer) :
  writeBigUInt64LE v = Ok b <-> u64 v /\ b = le_bytes 8 v.
Proof.
  unfold writeBigUInt64LE, u64.
  destruct (Z.leb_spec 0 v); destruct (Z.leb_spec v 18446744073709551615); cbn [andb]; split;
    try discriminate; try (intros [? _]; lia).
  - intros [= <-]. split; [lia | reflexivity].
  - now intros [_ ->].
Qed.

Lemma writeUInt32LE_throws (v : Z) (e : error) :
  writeUInt32LE v = Throw e -> e = RangeError.
Proof. unfold writeUInt32LE. destruct (_ && _); congruence. Qed.

Lemma writeBigUInt64LE_throws (v : Z) (e : error) :
  writeBigUInt64LE v = Throw e -> e = RangeError.
Proof. unfold writeBigUInt64LE. destruct (_ && _); congruence. Qed.

Lemma encode_input_iff (inp : TxIn) (b : buffer) :
  encode_input inp = Ok b <-> input_in_range inp /\ b = input_bytes inp.
Proof.
  unfold encode_input, input_in_range, input_bytes. split.
  - intros H. apply bind_Ok in H as (i & Hi & H). apply bind_Ok in H as (q & Hq & H).
    apply writeUInt32LE_iff in Hi as [Hi ->]. apply writeUInt32LE_iff in Hq as [Hq ->].
    apply Ok_inj in H. subst b. split; [split; [exact Hi|] | reflexivity].
    destruct (in_sequence inp); [exact Hq | exact I].
  - intros [[Hi Hq] ->].
    rewrite (proj2 (writeUInt32LE_iff (in_index inp) _) (conj Hi eq_refl)). cbn [bind].
    assert (Hs : u32 (match in_sequence inp with Some q => q | None => 4294967295 end))
      by (destruct (in_sequence inp); [exact Hq | unfold u32; lia]).
    now rewrite (proj2 (writeUInt32LE_iff _ _) (conj Hs eq_refl)).
Qed.

Lemma encode_output_iff (out : TxOut) (b : buffer) :
  encode_output out = Ok b <-> u64 (out_value out) /\ b = output_bytes out.
Proof.
  unfold encode_output, output_bytes. rewrite byte_buffer_mod. split.
  - intros H. apply bind_Ok in H as (v & Hv & H).
    apply writeBigUInt64LE_iff in Hv as [Hv ->]. apply Ok_inj in H. subst b. now split.
  - intros [Hv ->].
    now rewrite (proj2 (writeBigUInt64LE_iff (out_value out) _) (conj Hv eq_refl)).
Qed.

Lemma mapM_iff {A B : Type} (f : A -> M B) (g : A -> B) (P : A -> Prop) (l : list A) :
  (forall x b, f x = Ok b <-> P x /\ b = g x) ->
  forall ys, mapM f l = Ok ys <-> Forall P l /\ ys = map g l.
Proof.
  intros Hf. induction l as [|x l IH]; intros ys; cbn [mapM map].
  - split; [intros [= <-]; now split | now intros [_ ->]].
  - split.
    + intros H. apply bind_Ok in H as (y & Hy & H). apply bind_Ok in H as (ys' & Hys & H).
      injection H as <-. apply Hf in Hy as [Hx ->]. apply IH in Hys as [Hl ->].
      split; [now constructor | reflexivity].
    + intros [Hall ->]. inversion Hall as [|? ? Hx Hl]; subst.
      rewrite (proj2 (Hf x _) (conj Hx eq_refl)). cbn [bind].
      now rewrite (proj2 (IH _) (conj Hl eq_refl)).
Qed.

Lemma mapM_throws {A B : Type} (f : A -> M B) (l : list A) (e0 : error) :
  (forall x e, f x = Throw e -> e = e0) ->
  forall e, mapM f l = Throw e -> e = e0.
Proof.
  intros Hf. induction l as [|x l IH]; intros e; cbn [mapM]; [discriminate|].
  destruct (f x) eqn:Hx; cbn [bind].
  - destruct (mapM f l); cbn [bind]; [discriminate|]. intros [= <-]. now apply IH.
  - intros [= <-]. eapply Hf, Hx.
Qed.

Lemma encode_input_throws (inp : TxIn) (e : error) :
  encode_input inp = Throw e -> e = RangeError.
Proof.
  unfold encode_input.
  set (q := match in_sequence inp with Some q => q | None => 4294967295 end).
  destruct (writeUInt32LE (in_index inp)) eqn:E1; cbn [bind].
  - destruct (writeUInt32LE q) eqn:E2; cbn [bind]; [discriminate|].
    intros [= <-]. eapply writeUInt32LE_throws, E2.
  - intros [= <-]. eapply writeUInt32LE_throws, E1.
Qed.

Lemma encode_output_throws (out : TxOut) (e : error) :
  encode_output out = Throw e -> e = RangeError.
Proof.
  unfold encode_output. destruct (writeBigUInt64LE _) eqn:E1; cbn [bind]; [discriminate|].
  intros [= <-]. eapply writeBigUInt64LE_throws, E1.
Qed.

Lemma createTxHex_iff (tx : Tx) (hex : string) :
  createTxHex tx = Ok hex <-> tx_in_range tx /\ hex = hex_of_bytes (tx_bytes tx).
Proof.
  unfold createTxHex, tx_in_range, tx_bytes. rewrite !byte_buffer_mod. split.
  - intros H. apply bind_Ok in H as (ver & Hver & H). apply bind_Ok in H as (ins & Hins & H).
    apply bind_Ok in H as (outs & Houts & H). apply bind_Ok in H as (lt & Hlt & H).
    apply writeUInt32LE_iff in Hver as [Hver ->]. apply writeUInt32LE_iff in Hlt as [Hlt ->].
    apply (@mapM_iff _ _ encode_input input_bytes input_in_range (inputs tx) encode_input_iff) in Hins as [Hins ->].
    apply (@mapM_iff _ _ encode_output output_bytes (fun o => u64 (out_value o)) (outputs tx) encode_output_iff) in Houts as [Houts ->].
    apply Ok_inj in H. subst hex.
    split; [split; [exact Hver | split; [exact Hlt | split; [exact Hins | exact Houts]]]
           | reflexivity].
  - intros [(Hver & Hlt & Hins & Houts) ->].
    rewrite (proj2 (writeUInt32LE_iff (version tx) _) (conj Hver eq_refl)). cbn [bind].
    rewrite (proj2 (@mapM_iff _ _ encode_input input_bytes input_in_range (inputs tx) encode_input_iff _) (conj Hins eq_refl)). cbn [bind].
    rewrite (proj2 (@mapM_iff _ _ encode_output output_bytes (fun o => u64 (out_value o)) (outputs tx) encode_output_iff _) (conj Houts eq_refl)). cbn [bind].
    now rewrite (proj2 (writeUInt32LE_iff (locktime tx) _) (conj Hlt eq_refl)).
Qed.

Lemma createTxHex_throws (tx : Tx) (e : error) :
  createTxHex tx = Throw e -> e = RangeError.
Proof.
  unfold createTxHex.
  destruct (writeUInt32LE (version tx)) eqn:E1; cbn [bind];
    [|intros [= <-]; eapply writeUInt32LE_throws, E1].
  destruct (mapM encode_input (inputs tx)) eqn:E2; cbn [bind];
    [|intros [= <-]; eapply (@mapM_throws _ _ encode_input (inputs tx) RangeError encode_input_throws), E2].
  destruct (mapM encode_output (outputs tx)) eqn:E3; cbn [bind];
    [|intros [= <-]; eapply (@mapM_throws _ _ encode_output (outputs tx) RangeError encode_output_throws), E3].
  destruct (writeUInt32LE (locktime tx)) eqn:E4; cbn [bind]; [discriminate|].
  intros [= <-]. eapply writeUInt32LE_throws, E4.
Qed.

(** C5, as the code has it.  [createTxHex] is a function of the
    transaction alone.  It has no error for a count above 255 or a script
    longer than 255 bytes: the count and the length are written as one
    byte, modulo 256, and the encoding succeeds.  It succeeds exactly when
    the version, the locktime, every input index and sequence fit 32 bits
    unsigned and every output value fits 64 bits unsigned; otherwise a
    Buffer writer raises a range error. *)
Theorem createTxHex_never_overflows :
  forall tx,
    (tx_in_range tx -> createTxHex tx = Ok (hex_of_bytes (tx_bytes tx))) /\
    (forall hex, createTxHex tx = Ok hex -> tx_in_range tx) /\
    (forall e, createTxHex tx = Throw e -> e = RangeError).
Proof.
  intros tx. split; [|split].
  - intros H. now apply createTxHex_iff.
  - intros hex H. now apply createTxHex_iff in H.
  - apply createTxHex_throws.
Qed.

Lemma tx_overflow_in_range : tx_in_range tx_overflow.
Proof.
  unfold tx_in_range, tx_overflow, new_Tx, u32. cbn [version locktime inputs outputs].
  repeat split; try lia.
  - apply Forall_forall. intros x Hx. apply repeat_spec in Hx. subst x.
    unfold input_in_range, u32. cbn. split; [lia | exact I].
  - repeat constructor; cbn; unfold u64; cbn; lia.
Qed.

Lemma createTxHex_never_overflows_witness :
  tx_in_range tx_overflow /\
  createTxHex tx_overflow = Ok (hex_of_bytes (tx_bytes tx_overflow)).
Proof.
  split; [exact tx_overflow_in_range|].
  exact (proj1 (createTxHex_never_overflows tx_overflow) tx_overflow_in_range).
Defined.

(** C5 as written fails: 256 inputs and a script of 256 bytes are
    encoded, with [00] for the count of the inputs. *)
Lemma overflow_is_not_an_error :
  (255 < List.length (inputs tx_overflow))%nat /\
  Forall (fun o => (255 < List.length (bytes_of_hex (out_scriptPubKey o)))%nat)
         (outputs tx_overflow) /\
  succeeds (createTxHex tx_overflow) = true /\
  match createTxHex tx_overflow with
  | Ok hex => substring 8 2 hex
  | Throw _ => ""
  end = "00".
Proof.
  split; [vm_compute; lia|]. split; [|split].
  - constructor; [vm_compute; lia | constructor].
  - vm_compute. reflexivity.
  - vm_compute. reflexivity.
Qed.

(* ----------------------------------------------------------------- *)
(** ** The coinbase sentinel *)

Lemma getTxid_length (tx : Tx) (id : string) :
  getTxid tx = Ok id -> String.length id = 64%nat.
Proof.
  unfold getTxid. intros H. apply bind_Ok in H as (txHex & _ & H).
  apply Ok_inj in H. subst id.
  rewrite hex_of_bytes_length, length_rev. unfold doubleSha256.
  now rewrite sha256_length.
Qed.

(** C4, as the code has it.  The literal that stands for the coinbase
    (the txid of the coinbase input, the forced txid of the coinbase
    transaction, the txid that block application skips) is 64 hexadecimal
    characters, 32 bytes: the length of every derived identifier. *)
Theorem coinbase_sentinel_is_64_characters :
  String.length coinbase_txid = 64%nat /\
  List.length (bytes_of_hex coinbase_txid) = 32%nat /\
  (forall miner,
      map in_txid (inputs (createCoinbaseTx miner)) = [coinbase_txid] /\
      txid (createCoinbaseTx miner) = coinbase_txid) /\
  (forall i q p, spend_inputs [mkTxIn coinbase_txid i q] p = p) /\
  (forall tx id, getTxid tx = Ok id -> String.length id = String.length coinbase_txid).
Proof.
  split; [reflexivity | split; [reflexivity | split; [|split]]].
  - intros miner. split; reflexivity.
  - intros i q p. reflexivity.
  - intros tx id H. now rewrite (getTxid_length _ H).
Qed.

(** The first payment of block 1 and its derived identifier. *)
Lemma coinbase_sentinel_witness :
  getTxid (nth 1 (transactions block1) (new_Tx [] []))
  = Ok "2f0724b9a92166ee7641700fe196452a16b2a1d214928ae8637ec11b2b11e8f8" /\
  String.length "2f0724b9a92166ee7641700fe196452a16b2a1d214928ae8637ec11b2b11e8f8"
  = String.length coinbase_txid.
Proof.
  assert (H : getTxid (nth 1 (transactions block1) (new_Tx [] []))
              = Ok "2f0724b9a92166ee7641700fe196452a16b2a1d214928ae8637ec11b2b11e8f8")
    by (vm_compute; reflexivity).
  split; [exact H|].
  exact (proj2 (proj2 (proj2 (proj2 coinbase_sentinel_is_64_characters))) _ _ H).
Defined.

(** C4 as written fails: the literal is not 66 characters long. *)
Lemma sentinel_is_not_66_characters :
  String.length coinbase_txid <> 66%nat /\
  List.length (bytes_of_hex coinbase_txid) <> 33%nat.
Proof. split; vm_compute; discriminate. Qed.

(* ----------------------------------------------------------------- *)
(** ** The shape of a mining round *)

Lemma remove_nth_In {A : Type} (x : A) (l : list A) :
  forall i, In x (remove_nth i l) -> In x l.
Proof.
  induction l as [|y l IH]; intros [|i] H; simpl in *; auto.
  destruct H as [H|H]; [now left | right; eapply IH, H].
Qed.

Lemma pick_utxos_In (rnd : Rand) (fuel : nat) :
  forall k chosen poolCopy x,
    In x (pick_utxos rnd fuel k chosen poolCopy) -> In x chosen \/ In x poolCopy.
Proof.
  induction fuel as [|fuel IH]; intros k chosen poolCopy x H; cbn [pick_utxos] in H;
    [now left|].
  destruct ((List.length chosen <? 5)%nat && (0 <? List.length poolCopy)%nat);
    [|now left].
  destruct (nth_error poolCopy _) as [u|] eqn:Hu; [|now left].
  apply IH in H as [H|H].
  - apply in_app_or in H as [H|[<-|[]]]; [now left | right].
    eapply nth_error_In, Hu.
  - right. eapply remove_nth_In, H.
Qed.

Lemma build_tx_shape (rnd : Rand) (chosen : list Avail) (i : nat) (tx : Tx) :
  build_tx rnd chosen i = Ok tx -> is_spend_of chosen tx.
Proof.
  unfold build_tx. destruct (nth_error chosen _) as [utxo|] eqn:Hu; [|discriminate].
  cbv zeta. intros H. apply bind_Ok in H as (id & _ & H). apply Ok_inj in H. subst tx.
  split; [reflexivity|].
  eexists utxo, _, _. split; [eapply nth_error_In, Hu|].
  cbn [inputs outputs new_Tx map out_value List.length].
  repeat split. lia.
Qed.

Lemma ensure_txid_shape (cands : list Avail) (t t' : Tx) :
  ensure_txid t = Ok t' -> is_spend_of cands t -> is_spend_of cands t'.
Proof.
  unfold ensure_txid. destruct (String.eqb (txid t) "").
  - intros H. apply bind_Ok in H as (id & _ & H). apply Ok_inj in H. subst t'.
    exact (fun H => H).
  - intros H. apply Ok_inj in H. now subst t'.
Qed.

Lemma createFiveRandomTxs_shape (rnd : Rand) (p p' : Pool) (txs : list Tx) :
  createFiveRandomTxs rnd p = (p', Ok txs) ->
  List.length txs = 5%nat /\ Forall (is_spend_of (candidates rnd p)) txs.
Proof.
  unfold createFiveRandomTxs.
  set (poolCopy := if (List.length (listAvailable p) <? 5)%nat
                   then listAvailable p ++ [mkAvail (rand_faucetTxid rnd) 0 50000000
                                              (p2pkhScript (rand_faucetCopyHash rnd))]
                   else listAvailable p).
  assert (Hsub : forall x, In x poolCopy -> In x (candidates rnd p)).
  { intros x. unfold poolCopy, candidates.
    destruct (List.length (listAvailable p) <? 5)%nat; [auto|].
    intros Hx. apply in_or_app. now left. }
  intros H.
  assert (Hm : mapM (build_tx rnd (pick_utxos rnd 5 0 [] poolCopy)) (seq 0 5) = Ok txs).
  { unfold poolCopy. destruct (List.length (listAvailable p) <? 5)%nat;
      injection H as _ H; exact H. }
  clear H. split; [now rewrite (mapM_length _ _ Hm)|].
  apply Forall_forall. intros tx Htx.
  apply In_nth_error in Htx as (i & Hi).
  destruct (mapM_nth _ _ Hm _ Hi) as (n & _ & Hb).
  apply build_tx_shape in Hb as (Hc & utxo & pay & chg & Hin & Hrest).
  split; [exact Hc|]. exists utxo, pay, chg. split; [|exact Hrest].
  apply Hsub. apply pick_utxos_In in Hin as [[]|Hin]. exact Hin.
Qed.

(** What a mining round that answers puts in its block: the coinbase
    first, then five payments of the generator's shape. *)
Theorem mined_block_shape :
  forall (fuel : nat) (now : string) (rnd : Rand) (bc bc' : Blockchain)
         (resp : MineResponse),
    api_mine fuel now rnd bc = (bc', Ok (Some resp)) ->
    transactions (resp_blk resp) = resp_txs resp /\
    List.length (resp_txs resp) = 6%nat /\
    exists coinbase txs,
      resp_txs resp = coinbase :: txs /\
      (isCoinbase coinbase = true /\ txid coinbase = coinbase_txid /\
       map in_txid (inputs coinbase) = [coinbase_txid] /\
       map out_value (outputs coinbase) = [5000000000]) /\
      List.length txs = 5%nat /\
      Forall (is_spend_of (candidates rnd (utxo bc))) txs.
Proof.
  intros fuel now rnd bc bc' resp H. unfold api_mine in H.
  destruct (createFiveRandomTxs rnd (utxo bc)) as [pool [txs|e]] eqn:Hgen;
    [|discriminate].
  apply createFiveRandomTxs_shape in Hgen as [Hlen Hall].
  destruct (mapM ensure_txid (createCoinbaseTx (rand_minerAddr rnd) :: txs))
    as [allTxs|e] eqn:Hens; [|discriminate].
  unfold mineBlock in H. cbn [utxo chain diff] in H.
  destruct (getLastBlock _) as [latest|]; [|discriminate].
  destruct (mineHeader _ _ _) as [newBlock|] eqn:Hmine; [|discriminate].
  apply mineHeader_sound in Hmine as (_ & _ & (_ & _ & _ & _ & Htx) & _).
  injection H as _ <-. cbn [resp_blk resp_txs].
  cbn [mapM] in Hens. cbn in Hens.
  apply bind_Ok in Hens as (txs' & Hens & Hall'). apply Ok_inj in Hall'. subst allTxs.
  assert (Hlen' : List.length txs' = 5%nat) by now rewrite (mapM_length _ _ Hens).
  split; [exact Htx | split; [simpl; now rewrite Hlen'|]].
  exists (createCoinbaseTx (rand_minerAddr rnd)), txs'.
  split; [reflexivity | split; [repeat split | split; [exact Hlen'|]]].
  apply Forall_forall. intros t' Ht'. apply In_nth_error in Ht' as (i & Hi).
  destruct (mapM_nth _ _ Hens _ Hi) as (t & Ht & Het).
  eapply ensure_txid_shape; [exact Het|].
  rewrite Forall_forall in Hall. eapply Hall, nth_error_In, Ht.
Qed.

(** C9 fails on the code.  After the genesis block and a first round
    that answers with a block, the pool of the concrete ledger holds a
    change output worth 1000 sats; a second round whose first pick lands
    on it computes a negative change, the 64-bit writer of the codec
    raises a range error (whatever the time and the fuel), and no block is
    produced: the ledger is left as it was. *)
Theorem dust_round_produces_no_block :
  new_Blockchain 11 now0 3 = Some bc0 /\
  match api_mine 3 now1 rnd1 bc0 with
  | (bc, Ok (Some resp)) => bc = bc1 /\ resp_blk resp = block1
  | _ => False
  end /\
  pool_entry "2f0724b9a92166ee7641700fe196452a16b2a1d214928ae8637ec11b2b11e8f8" 1
             (utxo bc1)
  = Some (mkUTXO 1 1000 "76a914555555555555555555555555555555555555555588ac" false) /\
  hd_error (pick_utxos rnd_dust 5 0 [] (listAvailable (utxo bc1)))
  = Some (mkAvail "2f0724b9a92166ee7641700fe196452a16b2a1d214928ae8637ec11b2b11e8f8"
                  1 1000 "76a914555555555555555555555555555555555555555588ac") /\
  forall fuel now, api_mine fuel now rnd_dust bc1 = (bc1, Throw RangeError).
Proof.
  split; [vm_compute; reflexivity|].
  split; [vm_compute; split; reflexivity|].
  split; [vm_compute; reflexivity|].
  split; [vm_compute; reflexivity|].
  intros fuel now. unfold api_mine.
  assert (E : createFiveRandomTxs rnd_dust (utxo bc1) = (utxo bc1, Throw RangeError))
    by (vm_compute; reflexivity).
  rewrite E. reflexivity.
Qed.

(* ----------------------------------------------------------------- *)
(** ** Export, import and the two validators *)

Lemma nth_map_Block (chain : list Block) (i : nat) (b : Block) :
  nth_error chain i = Some b ->
  nth i (map Block_to_value chain) Undefined = Block_to_value b.
Proof.
  intros H. apply nth_error_nth. now rewrite nth_error_map, H.
Qed.

(** On the record of a block as the structured formats carry it, the
    uploaded-chain checks are the checks of the live chain. *)
Lemma import_checks_structured (target : string) (chain : list Block) (i : nat)
    (b : Block) :
  nth_error chain i = Some b ->
  import_checks target (map Block_to_value chain) i
  = Ok (live_checks target chain i b).
Proof.
  intros H. unfold import_checks. rewrite (nth_map_Block _ _ H).
  destruct i as [|j].
  - reflexivity.
  - assert (Hj : (j < List.length chain)%nat).
    { assert (S j < List.length chain)%nat by (apply nth_error_Some; congruence). lia. }
    destruct (nth_error chain j) as [prev|] eqn:Hp;
      [|apply nth_error_None in Hp; lia].
    rewrite (nth_map_Block _ _ Hp). unfold live_checks. rewrite Hp. reflexivity.
Qed.

Lemma mapM_import_structured (target : string) (chain : list Block)
    (rest : list Block) :
  forall pre,
    chain = pre ++ rest ->
    mapM (import_checks target (map Block_to_value chain))
         (seq (List.length pre) (List.length rest))
    = Ok (live_checks_from target chain (List.length pre) rest).
Proof.
  induction rest as [|b rest IH]; intros pre Hc; [reflexivity|].
  cbn [List.length seq mapM live_checks_from].
  rewrite (@import_checks_structured target chain (List.length pre) b)
    by (rewrite Hc, nth_error_app2, Nat.sub_diag by lia; reflexivity).
  cbn [bind]. specialize (IH (pre ++ [b])).
  rewrite length_app, Nat.add_1_r in IH. rewrite IH by now rewrite <- app_assoc.
  reflexivity.
Qed.

(** The part of C1 that holds: after a JSON or a YAML export, the
    validator of the upload path returns the verdict of the live
    validator, whatever the chain. *)
Theorem structured_import_agrees (d : nat) (chain : list Block) :
  validChain (import_structured chain) d = Ok (validateChain_of d chain).
Proof.
  rewrite validChain_spec, validateChain_of_spec. unfold import_structured.
  rewrite length_map.
  pose proof (@mapM_import_structured (repeat_string "0" d) chain chain [] eq_refl)
    as Hm.
  cbn [List.length] in Hm. rewrite Hm. reflexivity.
Qed.

(** The records of the plain-text reader do not depend on [JSON.parse],
    their [data] apart. *)
Lemma parse_sections_same_but_data (jp1 jp2 : string -> option value)
    (sections : list string) :
  Forall2 same_but_data (parse_sections jp1 sections) (parse_sections jp2 sections).
Proof.
  induction sections as [|s sections IH]; cbn [parse_sections]; [constructor|].
  unfold parse_section.
  destruct (String.eqb (trim s) ""); [exact IH|].
  destruct (getLine (trim s) "Index") as [idxStr|]; [|exact IH].
  destruct (getLine (trim s) "Nonce") as [nonceStr|]; [|exact IH].
  constructor; [|exact IH].
  unfold same_but_data. do 7 eexists. split; reflexivity.
Qed.

Lemma same_but_data_nth (c1 c2 : list value) :
  Forall2 same_but_data c1 c2 ->
  forall i,
    (nth i c1 Undefined = Undefined /\ nth i c2 Undefined = Undefined) \/
    same_but_data (nth i c1 Undefined) (nth i c2 Undefined).
Proof.
  induction 1 as [|v1 v2 c1 c2 Hv Hc IH]; intros [|i]; cbn [nth]; auto.
Qed.

(** [validChain] reads [data] and drops it: records that differ in
    [data] only get the same checks. *)
Lemma import_checks_same_but_data (target : string) (c1 c2 : list value) (i : nat) :
  Forall2 same_but_data c1 c2 ->
  import_checks target c1 i = import_checks target c2 i.
Proof.
  intros H. unfold import_checks.
  destruct (same_but_data_nth H i) as [[-> ->] | (a & t & p & h & n & x1 & x2 & -> & ->)];
    (destruct i as [|j];
     [| destruct (same_but_data_nth H j)
          as [[-> ->] | (a' & t' & p' & h' & n' & y1 & y2 & -> & ->)]]);
    cbn [or_else truthy get_first get own bind String.eqb Ascii.eqb Bool.eqb nullish];
    try reflexivity;
    destruct (nullish x1) eqn:E1, (nullish x2) eqn:E2;
    cbn [bind nullish]; rewrite ?E1, ?E2; reflexivity.
Qed.

Lemma validChain_same_but_data (c1 c2 : list value) (d : nat) :
  Forall2 same_but_data c1 c2 -> validChain c1 d = validChain c2 d.
Proof.
  intros H. rewrite !validChain_spec, (Forall2_length H).
  erewrite mapM_ext_in; [reflexivity|].
  intros i _. now apply import_checks_same_but_data.
Qed.

(** The answer to an uploaded plain-text file does not depend on what
    [JSON.parse] makes of the transactions. *)
Lemma api_validate_txt_any_JSON_parse (jp1 jp2 : string -> option value) (d : nat)
    (raw : string) :
  api_validate_txt jp1 d raw = api_validate_txt jp2 d raw.
Proof.
  unfold api_validate_txt, parse_txt.
  pose proof (parse_sections_same_but_data jp1 jp2 (split_sections raw 0 "")) as H.
  destruct H as [|v1 v2 c1 c2 Hv Hc]; [reflexivity|]. cbn [bind].
  apply validChain_same_but_data. now constructor.
Qed.

(** The concrete ledger is what the code produces: a new chain at
    difficulty 3 and two mining rounds. *)
Lemma concrete_ledger_is_mined :
  new_Blockchain 11 now0 3 = Some bc0 /\
  fst (api_mine 3 now1 rnd1 bc0) = bc1 /\
  fst (api_mine 4 now2 rnd2 bc1) = bc2 /\
  chain bc2 = [block0; block1; block2] /\
  map (fun b => List.length (transactions b)) (chain bc2) = [0; 6; 6]%nat.
Proof.
  split; [vm_compute; reflexivity|]. split; [vm_compute; reflexivity|].
  split; [vm_compute; reflexivity|]. split; reflexivity.
Qed.

(** C1 fails on the code, for the plain-text format.  The live chain of
    the concrete ledger (genesis and two mined blocks) validates, and so
    does its JSON or YAML export once uploaded; the plain-text reader
    builds records without [merkleRoot], the validator hashes a header
    with an empty Merkle root, and every block of the uploaded text fails
    the hash check. *)
Theorem txt_roundtrip_changes_verdict :
  forall JSON_parse : string -> option value,
    validateChain bc2
    = mkVerdict true []
        [ mkDet (Num 0) true true true true true false;
          mkDet (Num 1) true true true true true false;
          mkDet (Num 2) true true true true true false ] /\
    validChain (import_structured (chain bc2)) (diff bc2) = Ok (validateChain bc2) /\
    api_validate_txt JSON_parse (diff bc2) (export_txt (chain bc2))
    = Ok (mkVerdict false [Num 0; Num 1; Num 2]
            [ mkDet (Num 0) false true true true false false;
              mkDet (Num 1) false true true true false true;
              mkDet (Num 2) false true true true false true ]).
Proof.
  intros JSON_parse. split; [vm_compute; reflexivity|]. split.
  - apply structured_import_agrees.
  - rewrite (api_validate_txt_any_JSON_parse JSON_parse (fun _ => None)).
    vm_compute. reflexivity.
Qed.

(* ----------------------------------------------------------------- *)
(** ** Exceptions in the validator of an uploaded chain *)

(** C7 fails on the code.  On the uploaded chain
    [[{"hash": {"toString": 1}}]] the conversion [String(hashRaw)] raises
    a TypeError, at any difficulty: [validChain] returns no verdict. *)
Theorem validChain_raises_on_hostile_record :
  forall d : nat, validChain hostile_chain d = Throw TypeError.
Proof.
  intros d. rewrite validChain_spec.
  assert (E : import_checks (repeat_string "0" d) hostile_chain 0 = Throw TypeError)
    by reflexivity.
  cbn [hostile_chain List.length seq mapM]. change (Obj _ :: nil) with hostile_chain.
  now rewrite E.
Qed.

Lemma join_with_total (conv : value -> M string) (l : list value) :
  Forall (fun x => nullish x = false -> exists s, conv x = Ok s) l ->
  exists s, join_with conv l = Ok s.
Proof.
  induction 1 as [|x l Hx Hl IH]; cbn [join_with]; [eauto|].
  fold (join_with conv). destruct IH as [rest Hrest].
  destruct (nullish x) eqn:Hn.
  - cbn [bind]. destruct l; [eauto|]. rewrite Hrest. cbn [bind]. eauto.
  - destruct (Hx eq_refl) as [sx ->]. cbn [bind].
    destruct l; [eauto|]. rewrite Hrest. cbn [bind]. eauto.
Qed.

Lemma ToString_plain (v : value) : plain v = true -> exists s, ToString v = Ok s.
Proof.
  induction v as [| |b|n|s|items IH|props IH] using value_induction;
    cbn [ToString plain]; intros Hp; eauto.
  - destruct b; eauto.
  - apply join_with_total. rewrite forallb_forall in Hp. rewrite Forall_forall in *.
    intros x Hx _. apply IH; auto.
  - destruct (own props "toString"); [discriminate | eauto].
Qed.

Lemma ToNumber_plain (v : value) : plain v = true -> exists n, ToNumber v = Ok n.
Proof.
  intros Hp. destruct v as [| |[]|n|s|items|props]; cbn [ToNumber]; eauto;
    destruct (@ToString_plain _ Hp) as [s ->]; cbn [bind]; eauto.
Qed.

Lemma plus_one_plain (v : value) : plain v = true -> exists x, plus_one v = Ok x.
Proof.
  intros Hp. destruct v as [| |[]|[|z]|s|items|props]; cbn [plus_one]; eauto;
    destruct (@ToString_plain _ Hp) as [s ->]; cbn [bind]; eauto.
Qed.

Lemma own_plain (props : list (string * value)) (k : string) (x : value) :
  forallb (fun kv => plain (snd kv)) props = true ->
  own props k = Some x -> plain x = true.
Proof.
  induction props as [|[k' v] props IH]; cbn [own forallb]; [discriminate|].
  intros H. apply andb_true_iff in H as [Hv Hrest].
  destruct (String.eqb k k'); [now intros [= <-] | now apply IH].
Qed.

Lemma get_plain (raw : value) (k : string) :
  plain_record raw = true -> nullish raw = false ->
  exists x, get raw k = Ok x /\ plain x = true.
Proof.
  intros Hp Hn. destruct raw as [| |b|n|s|items|props]; try discriminate;
    cbn [get]; eauto.
  destruct (own props k) as [x|] eqn:Hx; eauto.
  exists x. split; [reflexivity | eapply own_plain; eauto].
Qed.

Lemma get_first_plain (raw : value) (keys : list string) (dflt : value) :
  plain_record raw = true -> nullish raw = false -> plain dflt = true ->
  exists x, get_first raw keys dflt = Ok x /\ plain x = true.
Proof.
  intros Hp Hn Hd. induction keys as [|k keys IH]; cbn [get_first]; [eauto|].
  destruct (@get_plain raw k Hp Hn) as (x & -> & Hx). cbn [bind].
  destruct (nullish x); eauto.
Qed.

Lemma or_else_plain (v : value) :
  plain_record v = true ->
  plain_record (or_else v (Obj [])) = true /\ nullish (or_else v (Obj [])) = false.
Proof.
  intros Hp. unfold or_else. destruct (truthy v) eqn:Ht; [|now split].
  split; [exact Hp|]. now destruct v.
Qed.

Lemma coalesce_plain (a b : value) :
  plain a = true -> plain b = true -> plain (coalesce a b) = true.
Proof. unfold coalesce. now destruct (nullish a). Qed.

Lemma nth_plain_record (records : list value) (i : nat) :
  Forall (fun r => plain_record r = true) records ->
  plain_record (nth i records Undefined) = true.
Proof.
  intros H. revert i. induction H; intros [|i]; cbn [nth]; auto.
Qed.

Ltac run_plain H :=
  let x := fresh "x" in
  let E := fresh "E" in
  let P := fresh "P" in
  destruct H as (x & E & P); rewrite E; cbn [bind]; clear E.

Ltac run_conv H :=
  let x := fresh "x" in
  let E := fresh "E" in
  destruct H as (x & E); rewrite E; cbn [bind]; clear E.

(** On records whose fields are plain values no conversion raises. *)
Lemma import_checks_total (target : string) (records : list value) (i : nat) :
  Forall (fun r => plain_record r = true) records ->
  exists c, import_checks target records i = Ok c.
Proof.
  intros Hall. unfold import_checks.
  destruct (@or_else_plain _ (@nth_plain_record records i Hall)) as [Hp Hn].
  set (raw := or_else (nth i records Undefined) (Obj [])) in *.
  run_plain (@get_first_plain raw ["prevHash"; "previousHash"; "previous_hash"] _ Hp Hn
               (eq_refl : plain (Str "") = true)).
  run_plain (@get_first_plain raw ["hash"] _ Hp Hn (eq_refl : plain (Str "") = true)).
  run_plain (@get_first_plain raw ["transactions"; "data"] _ Hp Hn
               (eq_refl : plain Undefined = true)).
  assert (Hd : exists y, (if nullish x1 then get raw "Data" else Ok x1) = Ok y).
  { destruct (nullish x1); [|eauto]. destruct (@get_plain raw "Data" Hp Hn) as (y & -> & _).
    eauto. }
  run_conv Hd.
  run_plain (@get_first_plain raw ["idx"; "Index"] _ Hp Hn
               (eq_refl : plain (Number (Num 0)) = true)).
  run_plain (@get_first_plain raw ["nonce"; "Nonce"] _ Hp Hn
               (eq_refl : plain (Number (Num 0)) = true)).
  run_plain (@get_first_plain raw ["ts"; "Timestamp"] _ Hp Hn (eq_refl : plain (Str "") = true)).
  run_conv (@ToNumber_plain _ P2).
  run_conv (@ToString_plain _ (@coalesce_plain _ (Str "") P eq_refl)).
  run_conv (@ToString_plain _ (@coalesce_plain _ (Str "") P0 eq_refl)).
  run_conv (@ToString_plain _ (@coalesce_plain _ (Str "") P4 eq_refl)).
  run_conv (@ToNumber_plain _ (@coalesce_plain _ (Number (Num 0)) P3 eq_refl)).
  run_plain (@get_first_plain raw ["merkleRoot"] _ Hp Hn (eq_refl : plain (Str "") = true)).
  run_conv (@ToString_plain _ P5).
  cbv zeta.
  destruct i as [|j]; cbn [bind]; [eauto|].
  destruct (@or_else_plain _ (@nth_plain_record records j Hall)) as [Hp' Hn'].
  assert (Hprev : exists y, opt_get (nth j records Undefined) "idx" = Ok y /\
                            plain y = true).
  { unfold opt_get. destruct (nullish (nth j records Undefined)) eqn:Hz; [eauto|].
    apply get_plain; [now apply nth_plain_record | exact Hz]. }
  run_plain Hprev.
  run_conv (@plus_one_plain _ (@coalesce_plain _ (Number (Num (-1))) P6 eq_refl)).
  destruct (@get_plain _ "hash" Hp' Hn') as (y & -> & _). cbn [bind]. eauto.
Qed.

(** The part of C7 that holds: on records whose fields hold no object
    with a [toString] property of its own, whatever else they hold or
    miss, [validChain] returns a verdict. *)
Theorem validChain_total_on_plain_records (records : list value) (d : nat) :
  Forall (fun r => plain_record r = true) records ->
  exists v, validChain records d = Ok v.
Proof.
  intros Hall. rewrite validChain_spec.
  destruct (@mapM_total _ _ (import_checks (repeat_string "0" d) records)
              (seq 0 (List.length records))) as [cs ->].
  - intros i _. now apply import_checks_total.
  - cbn [bind]. eauto.
Qed.

(** Records with missing or mistyped fields get a verdict; they fail. *)
Example malformed_records_validate_as_false :
  validChain [ Null; Str "block"; Obj [ ("idx", Str "one"); ("hash", Number (Num 7)) ];
               Arr [ Bool true ]; Obj [] ] 3
  = Ok (mkVerdict false [Num 0; Num 0; NaN; Num 0; Num 0]
          [ mkDet (Num 0) false false false true false false;
            mkDet (Num 0) false false false true false true;
            mkDet NaN false false false false false true;
            mkDet (Num 0) false false false false false true;
            mkDet (Num 0) false false false true false true ]).
Proof. vm_compute. reflexivity. Qed.

(* ----------------------------------------------------------------- *)
(** ** The identifier is the double hash of the encoding *)

Lemma byte_table :
  forallb (fun n => match bytes_of_hex (hex_of_bytes [Z.of_nat n]) with
                    | [y] => y =? Z.of_nat n
                    | _ => false
                    end)
          (seq 0 256) = true.
Proof. vm_compute. reflexivity. Qed.

Lemma hex_roundtrip_byte (x : Z) : is_byte x -> bytes_of_hex (hex_of_bytes [x]) = [x].
Proof.
  intros Hx. pose proof byte_table as H. rewrite forallb_forall in H.
  specialize (H (Z.to_nat x)). rewrite Z2Nat.id in H by (unfold is_byte in Hx; lia).
  assert (Hin : In (Z.to_nat x) (seq 0 256)) by (apply in_seq; unfold is_byte in Hx; lia).
  specialize (H Hin).
  destruct (bytes_of_hex (hex_of_bytes [x])) as [|y [|? ?]]; try discriminate.
  apply Z.eqb_eq in H. now subst y.
Qed.

Lemma bytes_of_hex_of_bytes (b : buffer) :
  Forall is_byte b -> bytes_of_hex (hex_of_bytes b) = b.
Proof.
  induction 1 as [|x b Hx Hb IH]; [reflexivity|].
  pose proof (hex_roundtrip_byte Hx) as H.
  cbn [hex_of_bytes bytes_of_hex] in H |- *.
  destruct (hex_value _) as [h|]; [|discriminate].
  destruct (hex_value _) as [l|]; [|discriminate].
  rewrite IH. change ((16 * h + l) :: b) with ([16 * h + l] ++ b).
  now rewrite H.
Qed.

Lemma hex_value_range (c : ascii) (h : Z) : hex_value c = Some h -> 0 <= h < 16.
Proof.
  unfold hex_value. set (n := Z.of_N (N_of_ascii c)).
  destruct (Z.leb_spec 48 n), (Z.leb_spec n 57); cbn [andb];
    try (intros [= <-]; lia);
    destruct (Z.leb_spec 97 n), (Z.leb_spec n 102); cbn [andb];
    try (intros [= <-]; lia);
    destruct (Z.leb_spec 65 n), (Z.leb_spec n 70); cbn [andb];
    try (intros [= <-]; lia); discriminate.
Qed.

Lemma bytes_of_hex_bytes (s : string) : Forall is_byte (bytes_of_hex s).
Proof.
  assert (H : forall n (s : string), (String.length s <= n)%nat ->
                                     Forall is_byte (bytes_of_hex s)).
  { induction n as [|n IH]; intros [|c1 [|c2 t]] Hl; cbn [String.length] in Hl;
      try lia; cbn [bytes_of_hex]; try constructor.
    destruct (hex_value c1) as [h|] eqn:Hh; [|constructor].
    destruct (hex_value c2) as [l|] eqn:Hlo; [|constructor].
    constructor.
    - apply hex_value_range in Hh, Hlo. unfold is_byte. lia.
    - apply IH. lia. }
  apply (H (String.length s)). lia.
Qed.

Lemma land_255_byte (x : Z) : is_byte (Z.land x 255).
Proof.
  unfold is_byte. change 255 with (Z.ones 8). rewrite Z.land_ones by lia.
  apply Z.mod_pos_bound. lia.
Qed.

Lemma le_bytes_bytes (n : nat) (x : Z) : Forall is_byte (le_bytes n x).
Proof.
  unfold le_bytes. apply Forall_forall. intros y Hy.
  apply in_map_iff in Hy as (i & <- & _). apply land_255_byte.
Qed.

Lemma mod_256_byte (x : Z) : is_byte (x mod 256).
Proof. unfold is_byte. apply Z.mod_pos_bound. lia. Qed.

Lemma concat_bytes (l : list buffer) :
  Forall (Forall is_byte) l -> Forall is_byte (List.concat l).
Proof.
  induction 1; cbn [List.concat]; [constructor | now apply Forall_app].
Qed.

Lemma tx_bytes_bytes (tx : Tx) : Forall is_byte (tx_bytes tx).
Proof.
  unfold tx_bytes.
  repeat (apply Forall_app; split);
    try apply le_bytes_bytes;
    try (constructor; [apply mod_256_byte | constructor]).
  - apply concat_bytes, Forall_forall. intros b Hb.
    apply in_map_iff in Hb as (inp & <- & _). unfold input_bytes.
    repeat (apply Forall_app; split); try apply le_bytes_bytes.
    + apply Forall_rev, bytes_of_hex_bytes.
    + constructor; [unfold is_byte; lia | constructor].
  - apply concat_bytes, Forall_forall. intros b Hb.
    apply in_map_iff in Hb as (out & <- & _). unfold output_bytes.
    repeat (apply Forall_app; split); try apply le_bytes_bytes.
    + constructor; [apply mod_256_byte | constructor].
    + apply bytes_of_hex_bytes.
Qed.

(** [getTxid]: the double SHA-256 of the encoding, last byte first, in
    hexadecimal. *)
Lemma getTxid_spec (tx : Tx) :
  tx_in_range tx ->
  getTxid tx = Ok (hex_of_bytes (rev (doubleSha256 (tx_bytes tx)))).
Proof.
  intros H. unfold getTxid.
  rewrite (proj2 (createTxHex_iff tx _) (conj H eq_refl)). cbn [bind].
  now rewrite bytes_of_hex_of_bytes by apply tx_bytes_bytes.
Qed.

(* ----------------------------------------------------------------- *)
(** ** The Merkle loop ends *)

Lemma merkle_pairs_length (l : list buffer) :
  List.length (merkle_pairs l) = Nat.div2 (List.length l) /\
  forall x, List.length (merkle_pairs (x :: l)) = Nat.div2 (S (List.length l)).
Proof.
  induction l as [|y l [IH1 IH2]]; [split; reflexivity|].
  split; [apply IH2|]. intros x. cbn [merkle_pairs List.length Nat.div2].
  now rewrite IH1.
Qed.

Lemma merkle_level_length (level : list buffer) :
  List.length (merkle_level level) = Nat.div2 (S (List.length level)).
Proof.
  unfold merkle_level. rewrite length_map.
  destruct (Nat.odd (List.length level)) eqn:Hodd.
  - rewrite (proj1 (merkle_pairs_length _)), length_app. cbn [List.length].
    now rewrite Nat.add_1_r.
  - rewrite (proj1 (merkle_pairs_length _)). apply Nat.Even_div2.
    apply Nat.even_spec. now rewrite <- Nat.negb_odd, Hodd.
Qed.

(** The fuel given to the loop, the number of nodes, is enough for it to
    reach a single node. *)
Lemma merkle_loop_single (fuel : nat) :
  forall level,
    (1 <= List.length level <= fuel)%nat ->
    List.length (merkle_loop fuel level) = 1%nat.
Proof.
  induction fuel as [|fuel IH]; intros level Hl; [lia|].
  cbn [merkle_loop]. destruct (Nat.ltb_spec 1 (List.length level)); [|lia].
  apply IH. rewrite merkle_level_length.
  destruct (List.length level) as [|[|n]]; try lia.
  change (Nat.div2 (S (S (S n)))) with (S (Nat.div2 (S n))).
  pose proof (Nat.le_div2 n) as Hd.
  set (m := Nat.div2 (S n)) in *. clearbody m. lia.
Qed.

(* ================================================================= *)
(** * Part III: further properties of the code *)
(* ================================================================= *)

(* ----------------------------------------------------------------- *)
(** ** Strings and decimal numerals *)

Lemma append_nil_r (s : string) : s +++ "" = s.
Proof. induction s; simpl; congruence. Qed.

Lemma append_assoc (a b c : string) : (a +++ b) +++ c = a +++ (b +++ c).
Proof. induction a; simpl; congruence. Qed.

Lemma string_rev_app (s : string) :
  forall acc, string_rev s acc = string_rev s "" +++ acc.
Proof.
  induction s as [|c s IH]; intro acc; simpl; [reflexivity|].
  rewrite (IH (String c acc)), (IH (String c "")), append_assoc. reflexivity.
Qed.

Lemma string_rev_append (s t : string) :
  string_rev (s +++ t) "" = string_rev t "" +++ string_rev s "".
Proof.
  induction s as [|c s IH]; simpl.
  - rewrite append_nil_r. reflexivity.
  - rewrite (string_rev_app (s +++ t)), IH, (string_rev_app s (String c "")), append_assoc.
    reflexivity.
Qed.

Lemma string_rev_involutive (s : string) : string_rev (string_rev s "") "" = s.
Proof.
  induction s as [|c s IH]; simpl; [reflexivity|].
  rewrite (string_rev_app s), string_rev_append, IH. reflexivity.
Qed.

Lemma trim_trimmed (s : string) : trimmed s = true -> trim s = s.
Proof.
  unfold trimmed, trim. intro H. apply andb_prop in H. destruct H as [H1 H2].
  assert (E1 : trim_start s = s).
  { destruct s as [|c s']; simpl in *; [reflexivity|].
    apply negb_true_iff in H1. rewrite H1. reflexivity. }
  rewrite E1.
  assert (E2 : trim_start (string_rev s "") = string_rev s "").
  { destruct (string_rev s "") as [|c r]; simpl in *; [reflexivity|].
    apply negb_true_iff in H2. rewrite H2. reflexivity. }
  rewrite E2. apply string_rev_involutive.
Qed.

Lemma string_forallb_append (f : ascii -> bool) (s t : string) :
  string_forallb f (s +++ t) = string_forallb f s && string_forallb f t.
Proof. induction s as [|c s IH]; simpl; [reflexivity|]. rewrite IH, andb_assoc. reflexivity. Qed.

Lemma string_forallb_rev (f : ascii -> bool) (s : string) :
  string_forallb f (string_rev s "") = string_forallb f s.
Proof.
  induction s as [|c s IH]; simpl; [reflexivity|].
  rewrite string_rev_app, string_forallb_append, IH. simpl.
  rewrite andb_true_r, andb_comm. reflexivity.
Qed.

Lemma no_space_trimmed (s : string) :
  string_forallb (fun c => negb (is_space c)) s = true -> trimmed s = true.
Proof.
  intro H. unfold trimmed.
  pose proof (string_forallb_rev (fun c => negb (is_space c)) s) as Hr. rewrite H in Hr.
  apply andb_true_intro. split.
  - destruct s as [|c s']; [reflexivity|].
    simpl in H. apply andb_prop in H. tauto.
  - destruct (string_rev s "") as [|c' r]; [reflexivity|].
    simpl in Hr. apply andb_prop in Hr. tauto.
Qed.

Lemma digit_char (m : Z) :
  0 <= m < 10 -> Z.of_N (N_of_ascii (ascii_of_N (Z.to_N (48 + m)))) = 48 + m.
Proof.
  intro H. rewrite N_ascii_embedding by lia. lia.
Qed.

Lemma is_digit_char (m : Z) : 0 <= m < 10 -> is_digit (ascii_of_N (Z.to_N (48 + m))) = true.
Proof.
  intro H. unfold is_digit. cbv zeta. rewrite digit_char by assumption.
  apply andb_true_intro. split; apply Z.leb_le; lia.
Qed.

Lemma decimal_value_append (s t : string) :
  forall a, decimal_value (s +++ t) a =
            match decimal_value s a with
            | Some a' => decimal_value t a'
            | None => None
            end.
Proof.
  induction s as [|c s IH]; intro a; simpl; [reflexivity|].
  destruct ((48 <=? Z.of_N (N_of_ascii c)) && (Z.of_N (N_of_ascii c) <=? 57)); [apply IH|reflexivity].
Qed.

(** The digits of [n] are put in front of [acc]. *)
Lemma digits_of_pos_spec (fuel : nat) :
  forall n acc,
    0 <= n < 2 ^ Z.of_nat fuel ->
    exists ds,
      digits_of_pos fuel n acc = ds +++ acc /\
      string_forallb is_digit ds = true /\
      (forall a, decimal_value ds a = Some (a * 10 ^ Z.of_nat (String.length ds) + n)) /\
      ((0 < fuel)%nat -> ds <> "").
Proof.
  induction fuel as [|fuel IH]; intros n acc Hn.
  - exists "". simpl in *. repeat split; try lia.
    intro a. f_equal. lia.
  - cbn [digits_of_pos].
    assert (Hm : 0 <= n mod 10 < 10) by (apply Z.mod_pos_bound; lia).
    set (d := ascii_of_N (Z.to_N (48 + n mod 10))).
    assert (Hd : is_digit d = true) by (apply is_digit_char; assumption).
    assert (Hv : forall a, decimal_value (String d "") a = Some (10 * a + n mod 10)).
    { intro a. simpl. fold (is_digit d). rewrite Hd. unfold d. rewrite digit_char by assumption.
      f_equal. lia. }
    destruct (n / 10 =? 0) eqn:E.
    + apply Z.eqb_eq in E. exists (String d "").
      repeat split; try (simpl; rewrite ?Hd; reflexivity); try discriminate.
      intro a. rewrite Hv. f_equal. change (Z.of_nat (String.length (String d ""))) with 1.
      rewrite Z.pow_1_r. pose proof (Z.div_mod n 10). lia.
    + apply Z.eqb_neq in E.
      assert (Hq : 0 <= n / 10 < 2 ^ Z.of_nat fuel).
      { split; [apply Z.div_pos; lia|].
        rewrite Nat2Z.inj_succ, Z.pow_succ_r in Hn by lia.
        apply Z.div_lt_upper_bound; lia. }
      destruct (IH (n / 10) (String d acc) Hq) as (ds & E1 & E2 & E3 & E4).
      exists (ds +++ String d ""). split; [|split; [|split]].
      * rewrite E1, append_assoc. reflexivity.
      * rewrite string_forallb_append, E2. simpl. rewrite Hd. reflexivity.
      * intro a. rewrite decimal_value_append, E3, Hv. f_equal.
        assert (EL : String.length (ds +++ String d "") = S (String.length ds)).
        { clear. induction ds; simpl; congruence. }
        rewrite EL, Nat2Z.inj_succ, Z.pow_succ_r by lia.
        pose proof (Z.div_mod n 10). lia.
      * intros _. destruct ds; discriminate.
Qed.

Lemma string_forallb_impl (f g : ascii -> bool) (s : string) :
  (forall c, f c = true -> g c = true) ->
  string_forallb f s = true -> string_forallb g s = true.
Proof.
  intro Hfg. induction s as [|c s IH]; simpl; [reflexivity|].
  intro H. apply andb_prop in H. destruct H as [H1 H2].
  rewrite (Hfg _ H1), (IH H2). reflexivity.
Qed.

Lemma is_digit_not_space (c : ascii) : is_digit c = true -> negb (is_space c) = true.
Proof.
  destruct c as [[] [] [] [] [] [] [] []]; intro H; cbv in H; try discriminate H; reflexivity.
Qed.

Lemma StringToNumber_digits (c : ascii) (r : string) :
  is_digit c = true -> trimmed (String c r) = true ->
  StringToNumber (String c r)
  = match decimal_value (String c r) 0 with Some z => Num z | None => NaN end.
Proof.
  intros Hd Ht. unfold StringToNumber. rewrite (trim_trimmed _ Ht).
  destruct c as [[] [] [] [] [] [] [] []]; cbv in Hd; try discriminate Hd; reflexivity.
Qed.

Lemma log2_fuel (n : Z) : 0 <= n -> 0 <= n < 2 ^ Z.of_nat (Z.to_nat (Z.log2 n) + 1).
Proof.
  intro H. split; [assumption|].
  rewrite Nat2Z.inj_add, Z2Nat.id by apply Z.log2_nonneg.
  change (Z.of_nat 1) with 1.
  destruct (Z.eq_dec n 0) as [->|Hn]; [reflexivity|].
  rewrite Z.add_1_r. apply Z.log2_spec. lia.
Qed.

Lemma string_of_Z_parses (n : Z) :
  StringToNumber (string_of_Z n) = Num n /\
  trimmed (string_of_Z n) = true /\ string_of_Z n <> "".
Proof.
  unfold string_of_Z. destruct (n <? 0) eqn:E.
  - apply Z.ltb_lt in E.
    destruct (@digits_of_pos_spec (Z.to_nat (Z.log2 (- n)) + 1) (- n) ""
                (@log2_fuel (- n) ltac:(lia))) as (ds & E1 & E2 & E3 & E4).
    rewrite E1, append_nil_r.
    assert (Ht : trimmed (String "-" ds) = true).
    { apply no_space_trimmed. simpl.
      apply (string_forallb_impl is_digit _ ds is_digit_not_space E2). }
    split; [|split; [assumption|discriminate]].
    unfold StringToNumber. rewrite (trim_trimmed _ Ht).
    destruct ds as [|c r]; [exfalso; apply E4; [lia|reflexivity]|].
    rewrite E3. f_equal. lia.
  - apply Z.ltb_ge in E.
    destruct (@digits_of_pos_spec (Z.to_nat (Z.log2 n) + 1) n "" (@log2_fuel n E))
      as (ds & E1 & E2 & E3 & E4).
    rewrite E1, append_nil_r.
    destruct ds as [|c r]; [exfalso; apply E4; [lia|reflexivity]|].
    assert (Ht : trimmed (String c r) = true).
    { apply no_space_trimmed.
      apply (string_forallb_impl is_digit _ (String c r) is_digit_not_space E2). }
    split; [|split; [assumption|discriminate]].
    simpl in E2. apply andb_prop in E2. destruct E2 as [Hc _].
    rewrite (StringToNumber_digits c r Hc Ht), E3. f_equal.
Qed.

(** Printing an integer in decimal and reading the text back as a number
    gives the integer again, also when it is negative; the text is not
    empty and has no white space at its ends. *)
Theorem decimal_print_parse_roundtrip (n : Z) :
  StringToNumber (string_of_Z n) = Num n /\
  ToNumber (Str (string_of_Z n)) = Ok (Num n) /\
  trim (string_of_Z n) = string_of_Z n /\
  string_of_Z n <> "".
Proof.
  destruct (string_of_Z_parses n) as (H1 & H2 & H3).
  split; [exact H1|]. split; [simpl; f_equal; exact H1|].
  split; [apply trim_trimmed; exact H2|exact H3].
Qed.

(* ----------------------------------------------------------------- *)
(** ** Hexadecimal strings and byte order *)

Lemma rev_bytes (b : buffer) : Forall is_byte b -> Forall is_byte (rev b).
Proof. intro H. apply Forall_forall. intros x Hx. apply in_rev in Hx.
       revert x Hx. apply Forall_forall. exact H. Qed.

Lemma hex_of_bytes_app (a b : buffer) :
  hex_of_bytes (a ++ b) = hex_of_bytes a +++ hex_of_bytes b.
Proof. induction a as [|x a IH]; simpl; [reflexivity|]. rewrite IH. reflexivity. Qed.

Lemma bytes_of_hex_length (s : string) :
  (2 * List.length (bytes_of_hex s) <= String.length s)%nat.
Proof.
  enough (H : (2 * List.length (bytes_of_hex s) <= String.length s)%nat /\
              forall c, (2 * List.length (bytes_of_hex (String c s))
                         <= String.length (String c s))%nat) by apply H.
  induction s as [|c2 s [IH1 IH2]].
  - split; [simpl; lia|]. intro c. simpl. lia.
  - split; [apply IH2|]. intro c. simpl.
    destruct (hex_value c), (hex_value c2); simpl; lia.
Qed.

(** [hexLEfromBE] and [hexBEfromLE] are one function; on the hexadecimal
    form of a buffer it gives the form of the reversed buffer, it is its
    own inverse there and it keeps the length; on any string at all it
    returns (there is no exception), and what it returns is a fixed point
    of applying it twice. *)
Theorem hex_byte_order_involution :
  (forall s, hexBEfromLE s = hexLEfromBE s) /\
  (forall b, Forall is_byte b ->
             bytes_of_hex (hex_of_bytes b) = b /\
             hexLEfromBE (hex_of_bytes b) = hex_of_bytes (rev b) /\
             hexBEfromLE (hexLEfromBE (hex_of_bytes b)) = hex_of_bytes b /\
             String.length (hexLEfromBE (hex_of_bytes b))
             = String.length (hex_of_bytes b)) /\
  (forall s, hexLEfromBE (hexLEfromBE (hexLEfromBE s)) = hexLEfromBE s /\
             (String.length (hexLEfromBE s) <= String.length s)%nat).
Proof.
  split; [reflexivity|]. split.
  - intros b Hb. pose proof (bytes_of_hex_of_bytes Hb) as E1.
    assert (E2 : hexLEfromBE (hex_of_bytes b) = hex_of_bytes (rev b)).
    { unfold hexLEfromBE. rewrite E1. reflexivity. }
    split; [exact E1|]. split; [exact E2|]. split.
    + unfold hexBEfromLE. rewrite E2, (bytes_of_hex_of_bytes (rev_bytes Hb)), rev_involutive.
      reflexivity.
    + rewrite E2, !hex_of_bytes_length, length_rev. reflexivity.
  - intro s. pose proof (bytes_of_hex_bytes s) as Hb. split.
    + unfold hexLEfromBE.
      rewrite (bytes_of_hex_of_bytes (rev_bytes Hb)), rev_involutive.
      rewrite (bytes_of_hex_of_bytes Hb). reflexivity.
    + unfold hexLEfromBE. rewrite hex_of_bytes_length, length_rev.
      apply bytes_of_hex_length.
Qed.

Lemma hex_byte_order_involution_witness :
  hexBEfromLE (hexLEfromBE (hex_of_bytes [1; 2; 255])) = hex_of_bytes [1; 2; 255] /\
  hexLEfromBE "0102ff" = "ff0201" /\
  hexLEfromBE "0102f" = "0201" /\
  hexLEfromBE "01zz02" = "01".
Proof.
  split; [|vm_compute; repeat split].
  apply (proj1 (proj2 hex_byte_order_involution) [1; 2; 255]).
  repeat constructor; unfold is_byte; lia.
Defined.

(* ----------------------------------------------------------------- *)
(** ** Transaction identifiers: [getTxid] *)

Lemma getTxid_Ok_inv (tx : Tx) (id : string) :
  getTxid tx = Ok id ->
  tx_in_range tx /\ id = hex_of_bytes (rev (doubleSha256 (tx_bytes tx))).
Proof.
  intro H. unfold getTxid in H. apply bind_Ok in H. destruct H as (hex & E1 & E2).
  apply createTxHex_iff in E1. destruct E1 as [Hr ->].
  split; [exact Hr|]. apply Ok_inj in E2. rewrite <- E2.
  rewrite (bytes_of_hex_of_bytes (tx_bytes_bytes tx)). reflexivity.
Qed.

Lemma getTxid_Throw_inv (tx : Tx) (e : error) :
  getTxid tx = Throw e -> ~ tx_in_range tx /\ e = RangeError.
Proof.
  intro H. split.
  - intro Hr. rewrite (getTxid_spec Hr) in H. discriminate H.
  - unfold getTxid in H. destruct (createTxHex tx) as [hex|e'] eqn:E; cbn [bind] in H.
    + discriminate H.
    + apply createTxHex_throws in E. congruence.
Qed.

Lemma getTxid_fails (tx : Tx) : ~ tx_in_range tx -> getTxid tx = Throw RangeError.
Proof.
  intro Hn. destruct (getTxid tx) as [id|e] eqn:E.
  - exfalso. apply Hn. apply (@getTxid_Ok_inv tx id E).
  - f_equal. apply (@getTxid_Throw_inv tx e E).
Qed.

(** [getTxid] returns exactly when the fields fit the widths of the
    encoding; the identifier is then the byte-reversed double SHA-256 of
    the encoded transaction, 64 hexadecimal characters, and it depends on
    the version, the inputs, the outputs and the locktime only: the
    attached fields ([txid], [note], [fee], [isCoinbase]) play no part.
    Otherwise a range error is raised. *)
Theorem txid_is_reversed_double_hash :
  forall tx : Tx,
    (forall id, getTxid tx = Ok id <->
                tx_in_range tx /\
                id = hex_of_bytes (rev (doubleSha256 (tx_bytes tx)))) /\
    (forall e, getTxid tx = Throw e <-> ~ tx_in_range tx /\ e = RangeError) /\
    (forall id, getTxid tx = Ok id -> String.length id = 64%nat) /\
    (forall t n f c,
        getTxid (mkTx (version tx) (inputs tx) (outputs tx) (locktime tx) t n f c)
        = getTxid tx).
Proof.
  intro tx. split; [|split; [|split]].
  - intro id. split; [apply getTxid_Ok_inv|].
    intros [Hr ->]. apply getTxid_spec. exact Hr.
  - intro e. split; [apply getTxid_Throw_inv|].
    intros [Hn ->]. apply getTxid_fails. exact Hn.
  - intros id H. apply getTxid_Ok_inv in H. destruct H as [_ ->].
    rewrite hex_of_bytes_length, length_rev. unfold doubleSha256.
    rewrite sha256_length. reflexivity.
  - reflexivity.
Qed.

Lemma txid_is_reversed_double_hash_witness :
  getTxid (new_Tx [mkTxIn aliceTxid 0 None]
                  [mkTxOut 99989000 (p2pkhScript (hash20 0));
                   mkTxOut 1000 (p2pkhScript (hash20 5))])
  = Ok "2f0724b9a92166ee7641700fe196452a16b2a1d214928ae8637ec11b2b11e8f8" /\
  getTxid (new_Tx [mkTxIn aliceTxid 0 None] [mkTxOut (-1) ""]) = Throw RangeError.
Proof.
  split.
  - apply (proj1 (txid_is_reversed_double_hash _)).
    split; [|vm_compute; reflexivity].
    unfold tx_in_range, input_in_range, u32, u64. simpl.
    repeat split; repeat constructor; simpl; lia.
  - apply (proj1 (proj2 (txid_is_reversed_double_hash _))).
    split; [|reflexivity].
    intros (_ & _ & _ & H). simpl in H. inversion H as [|? ? H1 ?]. unfold u64 in H1.
    simpl in H1. lia.
Defined.

(* ----------------------------------------------------------------- *)
(** ** The Merkle root *)

Lemma div2_le_pred (n : nat) : (2 <= n)%nat -> (Nat.div2 (S n) <= n - 1)%nat.
Proof.
  intro H. destruct n as [|[|n]]; try lia.
  change (Nat.div2 (S (S (S n)))) with (S (Nat.div2 (S n))).
  pose proof (Nat.le_div2 n) as H1.
  pose proof (Nat.div2_decr (S n) (S n)) as H2.
  assert (Nat.div2 (S n) <= S n)%nat by (apply Nat.div2_decr; lia).
  destruct n as [|n]; [simpl; lia|].
  change (Nat.div2 (S (S n))) with (S (Nat.div2 n)).
  assert (Nat.div2 n <= n)%nat by (apply Nat.div2_decr; lia). lia.
Qed.

(** Fuel beyond the length of the level changes nothing. *)
Lemma merkle_loop_enough (fuel : nat) :
  forall level k,
    (List.length level <= S fuel)%nat ->
    merkle_loop (fuel + k) level = merkle_loop fuel level.
Proof.
  induction fuel as [|fuel IH]; intros level k H.
  - simpl. destruct k as [|k]; [reflexivity|]. simpl.
    destruct (1 <? List.length level)%nat eqn:E; [|reflexivity].
    apply Nat.ltb_lt in E. lia.
  - simpl. destruct (1 <? List.length level)%nat eqn:E; [|reflexivity].
    apply Nat.ltb_lt in E. apply IH. rewrite merkle_level_length.
    pose proof (@div2_le_pred (List.length level) ltac:(lia)). lia.
Qed.

Lemma merkle_loop_step (fuel : nat) (level : list buffer) :
  (1 < List.length level)%nat ->
  merkle_loop (S fuel) level = merkle_loop fuel (merkle_level level).
Proof.
  intro H. cbn [merkle_loop]. apply Nat.ltb_lt in H. rewrite H. reflexivity.
Qed.

Lemma merkle_level_odd (l : list buffer) (x : buffer) :
  Nat.even (List.length l) = true ->
  merkle_level (l ++ [x]) = merkle_level (l ++ [x; x]).
Proof.
  intro H. unfold merkle_level.
  assert (E1 : Nat.odd (List.length (l ++ [x])) = true).
  { rewrite length_app. simpl. rewrite Nat.add_1_r, Nat.odd_succ. exact H. }
  assert (E2 : Nat.odd (List.length (l ++ [x; x])) = false).
  { rewrite length_app. simpl.
    replace (List.length l + 2)%nat with (S (S (List.length l))) by lia.
    rewrite Nat.odd_succ, Nat.even_succ, <- Nat.negb_even, H. reflexivity. }
  rewrite E1, E2, last_last, <- app_assoc. reflexivity.
Qed.

Lemma merkle_pairs_32 (l : list buffer) :
  Forall (fun n => List.length n = 32%nat) (merkle_pairs l) /\
  forall x, Forall (fun n => List.length n = 32%nat) (merkle_pairs (x :: l)).
Proof.
  induction l as [|b l [IH1 IH2]].
  - split; [constructor|]. intro x. constructor.
  - split; [apply IH2|]. intro x. cbn [merkle_pairs]. constructor; [|exact IH1].
    unfold doubleSha256. apply sha256_length.
Qed.

Lemma merkle_level_32 (level : list buffer) :
  Forall (fun n => List.length n = 32%nat) (merkle_level level).
Proof.
  unfold merkle_level. apply Forall_forall. intros z Hz.
  apply in_map_iff in Hz. destruct Hz as (w & <- & Hw). rewrite length_rev.
  revert w Hw. apply Forall_forall. apply merkle_pairs_32.
Qed.

Lemma merkle_loop_odd (L : list buffer) (X : buffer) :
  (2 <= List.length L)%nat -> Nat.even (List.length L) = true ->
  merkle_loop (List.length (L ++ [X])) (L ++ [X])
  = merkle_loop (List.length (L ++ [X; X])) (L ++ [X; X]).
Proof.
  intros HL HeL. rewrite !length_app. cbn [List.length].
  replace (List.length L + 1)%nat with (S (List.length L)) by lia.
  replace (List.length L + 2)%nat with (S (S (List.length L))) by lia.
  rewrite (@merkle_loop_step (List.length L) (L ++ [X]))
    by (rewrite length_app; simpl; lia).
  rewrite (@merkle_loop_step (S (List.length L)) (L ++ [X; X]))
    by (rewrite length_app; simpl; lia).
  rewrite (merkle_level_odd L X HeL).
  replace (S (List.length L)) with (List.length L + 1)%nat by lia.
  symmetry. apply merkle_loop_enough.
  rewrite merkle_level_length, length_app. cbn [List.length].
  replace (S (List.length L + 2)) with (S (S (S (List.length L)))) by lia.
  change (Nat.div2 (S (S (S (List.length L))))) with (S (Nat.div2 (S (List.length L)))).
  pose proof (@div2_le_pred (List.length L) HL). lia.
Qed.

Lemma merkle_loop_32 (fuel : nat) (level : list buffer) :
  (1 < List.length level <= fuel)%nat ->
  Forall (fun n => List.length n = 32%nat) (merkle_loop fuel level).
Proof.
  intro H. destruct fuel as [|fuel]; [lia|].
  rewrite merkle_loop_step by lia.
  generalize (merkle_level_32 level). generalize (merkle_level level). clear.
  induction fuel as [|fuel IH]; intros l Hl; [exact Hl|].
  cbn [merkle_loop]. destruct (1 <? List.length l)%nat; [|exact Hl].
  apply IH. apply merkle_level_32.
Qed.

Lemma computeMerkleRoot_nonempty (txids : list string) :
  txids <> [] ->
  computeMerkleRoot txids
  = hex_of_bytes
      (rev (hd [] (merkle_loop (List.length (map (fun h => rev (bytes_of_hex h)) txids))
                               (map (fun h => rev (bytes_of_hex h)) txids)))).
Proof. destruct txids; [congruence|reflexivity]. Qed.

(** The root of no transaction is 32 zero bytes; the root of one
    transaction is its identifier; the root of two is the double SHA-256
    of the two identifiers, each byte-reversed, put side by side; and a
    list of odd length, three or more, has the root of the list with its
    last identifier repeated.  Two or more identifiers always give 64
    hexadecimal characters, and the loop always runs to its end. *)
Theorem merkle_root_cases :
  computeMerkleRoot [] = repeat_string "0" 64 /\
  (forall b, Forall is_byte b -> computeMerkleRoot [hex_of_bytes b] = hex_of_bytes b) /\
  (forall a b,
      computeMerkleRoot [a; b]
      = hex_of_bytes (doubleSha256 (rev (bytes_of_hex a) ++ rev (bytes_of_hex b)))) /\
  (forall l x,
      l <> [] -> Nat.even (List.length l) = true ->
      computeMerkleRoot (l ++ [x]) = computeMerkleRoot (l ++ [x; x])) /\
  (forall txids,
      (2 <= List.length txids)%nat ->
      String.length (computeMerkleRoot txids) = 64%nat) /\
  (forall txids,
      txids <> [] ->
      List.length (merkle_loop (List.length txids)
                               (map (fun h => rev (bytes_of_hex h)) txids)) = 1%nat).
Proof.
  split; [reflexivity|]. split; [|split; [|split; [|split]]].
  - intros b Hb. unfold computeMerkleRoot. simpl.
    rewrite (bytes_of_hex_of_bytes Hb), rev_involutive. reflexivity.
  - intros a b. unfold computeMerkleRoot. cbn [map List.length merkle_loop].
    assert (E : forall A B : buffer, merkle_level [A; B] = [rev (doubleSha256 (A ++ B))])
      by reflexivity.
    rewrite E. cbn [List.length Nat.ltb Nat.leb hd]. rewrite rev_involutive. reflexivity.
  - intros l x Hl He.
    rewrite !computeMerkleRoot_nonempty by (destruct l; discriminate).
    apply (f_equal (fun z : list buffer => hex_of_bytes (rev (hd [] z)))).
    rewrite !map_app. cbn [map].
    refine (merkle_loop_odd (map (fun h => rev (bytes_of_hex h)) l) _ _ _).
    + rewrite length_map. destruct l as [|y [|z l']]; simpl in *;
        [congruence|discriminate He|lia].
    + rewrite length_map. exact He.
  - intros txids H.
    rewrite computeMerkleRoot_nonempty by (destruct txids; [simpl in H; lia|discriminate]).
    rewrite hex_of_bytes_length, length_rev.
    pose proof (@merkle_loop_32 (List.length (map (fun h => rev (bytes_of_hex h)) txids))
                  (map (fun h => rev (bytes_of_hex h)) txids)) as G.
    pose proof (@merkle_loop_single (List.length (map (fun h => rev (bytes_of_hex h)) txids))
                  (map (fun h => rev (bytes_of_hex h)) txids)) as G3.
    unfold buffer in *. rewrite length_map in G, G3 |- *. specialize (G ltac:(lia)). specialize (G3 ltac:(lia)).
    destruct (merkle_loop _ _) as [|h [|h' t]]; simpl in G3; try lia.
    inversion G as [|? ? Hh _]. cbn [hd]. unfold buffer in *. rewrite Hh. reflexivity.
  - intros txids H. apply merkle_loop_single. rewrite length_map.
    destruct txids; [congruence|simpl; lia].
Qed.

Lemma merkle_root_cases_witness :
  computeMerkleRoot ([aliceTxid; coinbase_txid] ++ [aliceTxid])
  = computeMerkleRoot ([aliceTxid; coinbase_txid] ++ [aliceTxid; aliceTxid]) /\
  String.length (computeMerkleRoot [aliceTxid; coinbase_txid; aliceTxid]) = 64%nat /\
  computeMerkleRoot [hex_of_bytes [171; 205]] = hex_of_bytes [171; 205].
Proof.
  destruct merkle_root_cases as (_ & H1 & _ & H3 & H4 & _).
  split; [apply H3; [discriminate|reflexivity]|].
  split; [apply H4; simpl; lia|].
  apply H1. repeat constructor; unfold is_byte; lia.
Defined.


(* ----------------------------------------------------------------- *)
(** ** The pool: invariant and listing *)

Lemma Map_set_keys_In (k : string) (v : list UTXO) (m : Pool) (k' : string) :
  In k' (map fst (Map_set k v m)) <-> k' = k \/ In k' (map fst m).
Proof.
  induction m as [|[k0 v0] m IH]; simpl.
  - intuition congruence.
  - destruct (String.eqb k k0) eqn:E; simpl.
    + apply String.eqb_eq in E. subst k0. intuition congruence.
    + rewrite IH. intuition congruence.
Qed.

Lemma Map_set_NoDup (k : string) (v : list UTXO) (m : Pool) :
  NoDup (map fst m) -> NoDup (map fst (Map_set k v m)).
Proof.
  induction m as [|[k0 v0] m IH]; simpl; intro H.
  - repeat constructor. intros [].
  - inversion H as [|? ? Hn Hm]; subst.
    destruct (String.eqb k k0) eqn:E; simpl.
    + constructor; assumption.
    + apply String.eqb_neq in E. constructor; [|apply IH; exact Hm].
      rewrite Map_set_keys_In. intros [->|Hin]; [congruence|contradiction].
Qed.

Lemma Map_set_Forall (P : list UTXO -> Prop) (k : string) (v : list UTXO) (m : Pool) :
  P v -> Forall (fun kv => P (snd kv)) m ->
  Forall (fun kv => P (snd kv)) (Map_set k v m).
Proof.
  intros Hv. induction m as [|[k0 v0] m IH]; simpl; intro H.
  - repeat constructor. exact Hv.
  - inversion H as [|? ? H0 Hm]; subst.
    destruct (String.eqb k k0); constructor; auto.
Qed.

Lemma Map_get_In (k : string) (v : list UTXO) (m : Pool) :
  NoDup (map fst m) -> (Map_get k m = Some v <-> In (k, v) m).
Proof.
  induction m as [|[k0 v0] m IH]; simpl; intro H.
  - split; [discriminate|intros []].
  - inversion H as [|? ? Hn Hm]; subst.
    destruct (String.eqb k k0) eqn:E.
    + apply String.eqb_eq in E. subst k0. split.
      * intro E. left. congruence.
      * intros [E|Hin]; [congruence|].
        exfalso. apply Hn. apply in_map_iff. exists (k, v). split; [reflexivity|exact Hin].
    + apply String.eqb_neq in E. rewrite (IH Hm). split.
      * intro Hin. right. exact Hin.
      * intros [E'|Hin]; [congruence|exact Hin].
Qed.

Lemma Map_get_Forall (P : list UTXO -> Prop) (k : string) (v : list UTXO) (m : Pool) :
  Forall (fun kv => P (snd kv)) m -> Map_get k m = Some v -> P v.
Proof.
  induction m as [|[k0 v0] m IH]; simpl; intros H E; [discriminate|].
  inversion H as [|? ? H0 Hm]; subst.
  destruct (String.eqb k k0); [|auto]. simpl in H0. congruence.
Qed.

Lemma outputs_from_index (outs : list TxOut) :
  forall k, map u_index (outputs_from k outs)
            = map Z.of_nat (seq k (List.length (outputs_from k outs))).
Proof.
  induction outs as [|o outs IH]; intro k; simpl; [reflexivity|].
  rewrite (IH (S k)). reflexivity.
Qed.

Lemma outputs_from_wf (outs : list TxOut) : entry_wf (outputs_from 0 outs).
Proof. apply outputs_from_index. Qed.

Lemma mark_spent_index (i : Z) (outs : list UTXO) :
  map u_index (mark_spent i outs) = map u_index outs /\
  List.length (mark_spent i outs) = List.length outs.
Proof.
  induction outs as [|x outs [IH1 IH2]]; simpl; [split; reflexivity|].
  destruct (u_index x =? i); simpl; [split; reflexivity|].
  rewrite IH1, IH2. split; reflexivity.
Qed.

Lemma mark_spent_wf (i : Z) (outs : list UTXO) :
  entry_wf outs -> entry_wf (mark_spent i outs).
Proof.
  unfold entry_wf. intro H. destruct (mark_spent_index i outs) as [E1 E2].
  rewrite E1, E2. exact H.
Qed.

Lemma addTxOutputs_wf (t : string) (outs : list TxOut) (p : Pool) :
  pool_wf p -> pool_wf (addTxOutputs t outs p).
Proof.
  intros [H1 H2]. split.
  - apply Map_set_NoDup. exact H1.
  - apply Map_set_Forall; [apply outputs_from_wf|exact H2].
Qed.

Lemma spend_wf (t : string) (i : Z) (p : Pool) : pool_wf p -> pool_wf (fst (spend t i p)).
Proof.
  intros [H1 H2]. unfold spend.
  destruct (Map_get t p) as [outs|] eqn:E; [|split; assumption].
  destruct (find_output i outs) as [o|]; [|split; assumption].
  destruct (u_spent o); [split; assumption|]. simpl. split.
  - apply Map_set_NoDup. exact H1.
  - apply Map_set_Forall; [|exact H2]. apply mark_spent_wf.
    exact (@Map_get_Forall entry_wf t outs p H2 E).
Qed.

Lemma spend_inputs_wf (ins : list TxIn) : forall p, pool_wf p -> pool_wf (spend_inputs ins p).
Proof.
  unfold spend_inputs. induction ins as [|inp ins IH]; intros p H; simpl; [exact H|].
  apply IH. destruct (String.eqb (in_txid inp) coinbase_txid); [exact H|].
  apply spend_wf. exact H.
Qed.

Lemma apply_txs_wf (txs : list Tx) : forall p, pool_wf p -> pool_wf (apply_txs txs p).
Proof.
  unfold apply_txs. induction txs as [|tx txs IH]; intros p H; simpl; [exact H|].
  apply IH. unfold apply_tx. apply addTxOutputs_wf. apply spend_inputs_wf. exact H.
Qed.

Lemma createFiveRandomTxs_pool (rnd : Rand) (p : Pool) :
  fst (createFiveRandomTxs rnd p)
  = if (List.length (listAvailable p) <? 5)%nat
    then addTxOutputs (rand_faucetTxid rnd)
                      [mkTxOut 50000000 (p2pkhScript (rand_faucetHash rnd))] p
    else p.
Proof.
  unfold createFiveRandomTxs.
  destruct (List.length (listAvailable p) <? 5)%nat; reflexivity.
Qed.

Lemma run_ops_wf (ops : list pool_op) : forall p, pool_wf p -> pool_wf (run_ops ops p).
Proof.
  unfold run_ops. induction ops as [|op ops IH]; intros p H; simpl; [exact H|].
  apply IH. destruct op; simpl; [apply addTxOutputs_wf|apply spend_wf|]; exact H.
Qed.

Lemma createFiveRandomTxs_wf (rnd : Rand) (p : Pool) :
  pool_wf p -> pool_wf (fst (createFiveRandomTxs rnd p)).
Proof.
  intro H. rewrite createFiveRandomTxs_pool.
  destruct (List.length (listAvailable p) <? 5)%nat; [apply addTxOutputs_wf|]; exact H.
Qed.

Lemma new_Blockchain_wf (fuel : nat) (now : string) (d : nat) (bc : Blockchain) :
  new_Blockchain fuel now d = Some bc -> pool_wf (utxo bc).
Proof.
  intro H. unfold new_Blockchain in H.
  destruct (mineHeader fuel d _); [|discriminate H].
  inversion H. simpl. apply addTxOutputs_wf. split; constructor.
Qed.

Lemma api_mine_wf (fuel : nat) (now : string) (rnd : Rand) (bc : Blockchain) :
  pool_wf (utxo bc) -> pool_wf (utxo (fst (api_mine fuel now rnd bc))).
Proof.
  intro H. unfold api_mine.
  pose proof (createFiveRandomTxs_wf rnd H) as Hp.
  destruct (createFiveRandomTxs rnd (utxo bc)) as [pool [txs|e]]; simpl in Hp;
    [|exact Hp].
  destruct (mapM ensure_txid _) as [allTxs|e]; [|exact Hp].
  unfold mineBlock. destruct (getLastBlock _); [|exact Hp].
  destruct (mineHeader _ _ _); [|exact Hp].
  simpl. apply apply_txs_wf. exact Hp.
Qed.

(** The pool keeps its shape: empty at first, and every call of the
    class, the application of a block, the generator of the transactions
    and a whole mining request leave each identifier held once and each
    list of outputs indexed by position. *)
Theorem pool_wf_invariant :
  pool_wf [] /\
  (forall fuel now d bc, new_Blockchain fuel now d = Some bc -> pool_wf (utxo bc)) /\
  (forall p, pool_wf p ->
     (forall ops, pool_wf (run_ops ops p)) /\
     (forall txs, pool_wf (apply_txs txs p)) /\
     (forall rnd, pool_wf (fst (createFiveRandomTxs rnd p)))) /\
  (forall fuel now rnd bc, pool_wf (utxo bc) -> pool_wf (utxo (fst (api_mine fuel now rnd bc)))).
Proof.
  split; [split; constructor|]. split; [|split].
  - intros fuel now d bc. apply new_Blockchain_wf.
  - intros p H. split; [|split].
    + intro ops. apply run_ops_wf. exact H.
    + intro txs. apply apply_txs_wf. exact H.
    + intro rnd. apply createFiveRandomTxs_wf. exact H.
  - intros fuel now rnd bc. apply api_mine_wf.
Qed.

Lemma bc1_pool_wf : pool_wf (utxo bc1).
Proof.
  replace bc1 with (fst (api_mine 3 now1 rnd1 bc0)) by (vm_compute; reflexivity).
  apply api_mine_wf. apply (@new_Blockchain_wf 11 now0 3). vm_compute. reflexivity.
Qed.

Lemma pool_wf_invariant_witness : pool_wf (utxo bc0) /\ pool_wf (utxo bc1).
Proof.
  destruct pool_wf_invariant as (_ & H1 & _ & H3).
  assert (W0 : pool_wf (utxo bc0))
    by (apply (H1 11%nat now0 3%nat); vm_compute; reflexivity).
  split; [exact W0|].
  replace bc1 with (fst (api_mine 3 now1 rnd1 bc0)) by (vm_compute; reflexivity).
  apply H3. exact W0.
Defined.

Lemma seq_index_NoDup (k n : nat) : NoDup (map Z.of_nat (seq k n)).
Proof.
  revert k. induction n as [|n IH]; intro k; simpl; constructor; [|apply IH].
  rewrite in_map_iff. intros (j & E & Hj). apply in_seq in Hj. lia.
Qed.

Lemma entry_wf_NoDup (outs : list UTXO) : entry_wf outs -> NoDup (map u_index outs).
Proof. unfold entry_wf. intros ->. apply seq_index_NoDup. Qed.

Lemma find_output_In (outs : list UTXO) (o : UTXO) :
  NoDup (map u_index outs) -> In o outs -> find_output (u_index o) outs = Some o.
Proof.
  unfold find_output. induction outs as [|x outs IH]; simpl; intros Hn Hin; [contradiction|].
  inversion Hn as [|? ? Hx Hr]; subst.
  destruct (u_index x =? u_index o) eqn:E.
  - apply Z.eqb_eq in E. destruct Hin as [->|Hin]; [reflexivity|].
    exfalso. apply Hx. rewrite E. apply in_map. exact Hin.
  - destruct Hin as [->|Hin]; [rewrite Z.eqb_refl in E; discriminate E|].
    apply IH; assumption.
Qed.

Lemma find_output_some (i : Z) (outs : list UTXO) (o : UTXO) :
  find_output i outs = Some o -> In o outs /\ u_index o = i.
Proof.
  unfold find_output. intro H. apply find_some in H. destruct H as [H1 H2].
  split; [exact H1|]. apply Z.eqb_eq. exact H2.
Qed.

Lemma listAvailable_In (p : Pool) (a : Avail) :
  In a (listAvailable p) <->
  exists outs o, In (a_txid a, outs) p /\ In o outs /\ u_spent o = false /\
                 a = avail_of (a_txid a) o.
Proof.
  unfold listAvailable. rewrite in_flat_map. split.
  - intros ([t outs] & Hkv & Hin). apply in_map_iff in Hin.
    destruct Hin as (o & <- & Ho). apply filter_In in Ho. destruct Ho as [Ho Hs].
    exists outs, o. simpl. repeat split; try assumption.
    apply negb_true_iff. exact Hs.
  - intros (outs & o & Hkv & Ho & Hs & E). exists (a_txid a, outs). split; [exact Hkv|].
    apply in_map_iff. exists o. split; [symmetry; exact E|].
    apply filter_In. split; [exact Ho|]. rewrite Hs. reflexivity.
Qed.

Lemma filter_index_NoDup (t : string) (f : UTXO -> bool) (outs : list UTXO) :
  NoDup (map u_index outs) ->
  NoDup (map (fun o => (t, u_index o)) (filter f outs)).
Proof.
  induction outs as [|x outs IH]; simpl; intro H; [constructor|].
  inversion H as [|? ? Hx Hr]; subst.
  destruct (f x); simpl; [|apply IH; exact Hr].
  constructor; [|apply IH; exact Hr].
  rewrite in_map_iff. intros (o & E & Ho). apply filter_In in Ho.
  apply Hx. apply in_map_iff. exists o. split; [congruence|tauto].
Qed.

Lemma NoDup_append {A : Type} (l1 l2 : list A) :
  NoDup l1 -> NoDup l2 -> (forall x, In x l1 -> ~ In x l2) -> NoDup (l1 ++ l2).
Proof.
  induction l1 as [|x l1 IH]; simpl; intros H1 H2 Hd; [exact H2|].
  inversion H1 as [|? ? Hx Hr]; subst. constructor.
  - rewrite in_app_iff. intros [Hin|Hin]; [contradiction|].
    apply (Hd x); [left; reflexivity|exact Hin].
  - apply IH; [exact Hr|exact H2|]. intros y Hy. apply Hd. right. exact Hy.
Qed.

Lemma listAvailable_NoDup (p : Pool) :
  pool_wf p -> NoDup (map outpoint (listAvailable p)).
Proof.
  intros [H1 H2]. induction p as [|[t outs] p IH]; simpl; [constructor|].
  inversion H1 as [|? ? Ht Hr]; subst. inversion H2 as [|? ? Hw Hp]; subst.
  rewrite map_app, map_map. apply NoDup_append.
  - apply (filter_index_NoDup t). apply entry_wf_NoDup. exact Hw.
  - apply IH; assumption.
  - intros [t' i'] Hx Hy. apply in_map_iff in Hx. destruct Hx as (o & E & _).
    apply in_map_iff in Hy. destruct Hy as (a & Ea & Ha).
    apply listAvailable_In in Ha. destruct Ha as (outs' & _ & Hkv & _).
    apply Ht. apply in_map_iff. exists (a_txid a, outs'). split; [|exact Hkv].
    unfold outpoint in Ea. simpl in *. inversion E. inversion Ea. congruence.
Qed.

Lemma listAvailable_spec (p : Pool) (a : Avail) :
  pool_wf p ->
  (In a (listAvailable p) <->
   pool_entry (a_txid a) (a_index a) p
   = Some (mkUTXO (a_index a) (a_value a) (a_scriptPubKey a) false)).
Proof.
  intros [H1 H2]. rewrite listAvailable_In. unfold pool_entry. split.
  - intros (outs & o & Hkv & Ho & Hs & E).
    apply (@Map_get_In _ _ _ H1) in Hkv. rewrite Hkv.
    pose proof (@Map_get_Forall entry_wf _ _ _ H2 Hkv) as Hw.
    rewrite E. simpl.
    rewrite (@find_output_In outs o (@entry_wf_NoDup _ Hw) Ho).
    destruct o as [i v s sp]. simpl in *. subst sp. reflexivity.
  - intro H. destruct (Map_get (a_txid a) p) as [outs|] eqn:E; [|discriminate H].
    apply (@Map_get_In _ _ _ H1) in E.
    apply find_output_some in H. destruct H as [Ho _].
    exists outs, (mkUTXO (a_index a) (a_value a) (a_scriptPubKey a) false).
    repeat split; try assumption. destruct a; reflexivity.
Qed.

(** On a pool in shape, [listAvailable()] returns exactly the entries
    that are unspent, each one once: an element of the list is an entry
    of the pool under its identifier and index, with the same value and
    script and with its flag unset, and every such entry is listed. *)
Theorem listAvailable_lists_unspent_entries :
  forall p : Pool,
    pool_wf p ->
    (forall a,
        In a (listAvailable p) <->
        pool_entry (a_txid a) (a_index a) p
        = Some (mkUTXO (a_index a) (a_value a) (a_scriptPubKey a) false)) /\
    NoDup (map outpoint (listAvailable p)).
Proof.
  intros p Hwf. split.
  - intro a. apply listAvailable_spec. exact Hwf.
  - apply listAvailable_NoDup. exact Hwf.
Qed.

Lemma listAvailable_lists_unspent_entries_witness :
  pool_wf (utxo bc1) /\
  (forall a,
      In a (listAvailable (utxo bc1)) <->
      pool_entry (a_txid a) (a_index a) (utxo bc1)
      = Some (mkUTXO (a_index a) (a_value a) (a_scriptPubKey a) false)) /\
  NoDup (map outpoint (listAvailable (utxo bc1))).
Proof.
  split; [exact bc1_pool_wf|].
  apply (@listAvailable_lists_unspent_entries (utxo bc1)). exact bc1_pool_wf.
Defined.


Lemma spend_true_inv (p p' : Pool) (t : string) (i : Z) :
  spend t i p = (p', true) ->
  exists o, pool_entry t i p = Some o /\ u_spent o = false.
Proof.
  unfold spend, pool_entry. destruct (Map_get t p) as [outs|]; [|intro H; inversion H].
  destruct (find_output i outs) as [o|]; [|intro H; inversion H].
  destruct (u_spent o) eqn:E; intro H; inversion H. exists o. split; [reflexivity|exact E].
Qed.

Lemma Map_set_fresh (k : string) (v : list UTXO) (m : Pool) :
  Map_get k m = None -> Map_set k v m = m ++ [(k, v)].
Proof.
  induction m as [|[k0 v0] m IH]; simpl; intro H; [reflexivity|].
  destruct (String.eqb k k0); [discriminate H|]. rewrite (IH H). reflexivity.
Qed.

Lemma outputs_from_unspent_filter (outs : list TxOut) :
  forall k, filter (fun o => negb (u_spent o)) (outputs_from k outs) = outputs_from k outs.
Proof.
  induction outs as [|o outs IH]; intro k; simpl; [reflexivity|]. rewrite IH. reflexivity.
Qed.

(** How the two writers change what [listAvailable()] returns, on a pool
    in shape.  A [spend] that returns true takes exactly the spent output
    off the list.  Outputs registered under an identifier that the pool
    does not hold are added at the end of the list, in order, with the
    indices 0, 1, 2, ... *)
Theorem spend_and_register_update_the_listing :
  forall p : Pool,
    pool_wf p ->
    (forall t i p',
        spend t i p = (p', true) ->
        (exists a, In a (listAvailable p) /\ outpoint a = (t, i)) /\
        forall a, In a (listAvailable p') <->
                  In a (listAvailable p) /\ outpoint a <> (t, i)) /\
    (forall t outs,
        Map_get t p = None ->
        listAvailable (addTxOutputs t outs p)
        = listAvailable p ++ map (avail_of t) (outputs_from 0 outs)).
Proof.
  intros p Hwf. split.
  - intros t i p' Hs.
    assert (Hwf' : pool_wf p') by (change p' with (fst (p', true)); rewrite <- Hs;
                                    apply spend_wf; exact Hwf).
    destruct (spend_true_inv _ _ _ Hs) as (o & Ho & Hu).
    destruct (spend_unspent _ _ _ Ho Hu) as (p'' & Hs' & Hsame & Hother).
    rewrite Hs in Hs'. inversion Hs'. subst p''. clear Hs'.
    pose proof (fun a => @listAvailable_spec p a Hwf) as L.
    pose proof (fun a => @listAvailable_spec p' a Hwf') as L'.
    assert (Hi : u_index o = i).
    { unfold pool_entry in Ho. destruct (Map_get t p); [|discriminate Ho].
      apply find_output_some in Ho. tauto. }
    split.
    + exists (avail_of t o). split; [|unfold outpoint; simpl; congruence].
      apply L. simpl. rewrite Hi, Ho. destruct o; simpl in *; congruence.
    + intro a. rewrite L', L. unfold outpoint.
      destruct (string_dec (a_txid a) t) as [Et|Et];
        [destruct (Z.eq_dec (a_index a) i) as [Ei|Ei]|].
      * rewrite Et, Ei, Hsame, Ho. split; [intro H; inversion H|].
        intros [_ H]. exfalso. apply H. congruence.
      * rewrite Hother by congruence. split; [intro H; split; [exact H|congruence]|tauto].
      * rewrite Hother by congruence. split; [intro H; split; [exact H|congruence]|tauto].
  - intros t outs H. unfold addTxOutputs. rewrite (Map_set_fresh _ _ _ H).
    unfold listAvailable. rewrite flat_map_app. simpl.
    rewrite outputs_from_unspent_filter, app_nil_r. reflexivity.
Qed.

Lemma spend_and_register_update_the_listing_witness :
  pool_wf (utxo bc1) /\
  spend coinbase_txid 0 (utxo bc1) = (fst (spend coinbase_txid 0 (utxo bc1)), true) /\
  forall a, In a (listAvailable (fst (spend coinbase_txid 0 (utxo bc1)))) <->
            In a (listAvailable (utxo bc1)) /\ outpoint a <> (coinbase_txid, 0).
Proof.
  split; [exact bc1_pool_wf|].
  assert (E : spend coinbase_txid 0 (utxo bc1)
              = (fst (spend coinbase_txid 0 (utxo bc1)), true))
    by (vm_compute; reflexivity).
  split; [exact E|].
  apply (proj1 (@spend_and_register_update_the_listing (utxo bc1) bc1_pool_wf)
           coinbase_txid 0 _ E).
Defined.


(* ----------------------------------------------------------------- *)
(** ** Mining keeps the chain valid *)

Lemma validateChain_valid_iff (d : nat) (chain : list Block) :
  isValid (validateChain_of d chain) = true <->
  forall j b, nth_error chain j = Some b ->
              passes (live_checks (repeat_string "0" d) chain j b) = true.
Proof.
  split.
  - intros H j b Hb. apply (@valid_chain_passes d chain H j).
    rewrite live_checks_list_nth, Hb. reflexivity.
  - intro H. rewrite validateChain_of_spec. unfold verdict_of. cbn [isValid].
    apply dets_from_valid. apply forallb_forall. intros c Hc.
    apply In_nth_error in Hc. destruct Hc as [j Hj].
    rewrite live_checks_list_nth in Hj.
    destruct (nth_error chain j) as [b|] eqn:Hb; [|discriminate Hj].
    inversion Hj. apply H. exact Hb.
Qed.

Lemma valid_verdict_shape (l : list checks) :
  isValid (verdict_of l) = true ->
  invBlkIdx (verdict_of l) = [] /\
  Forall (fun x => blkVal x = true /\ cc x = false) (dets (verdict_of l)).
Proof.
  unfold verdict_of. cbn [isValid invBlkIdx dets]. intro H.
  pose proof (dets_from_all_valid l H) as Hp.
  destruct (dets_from_valid l Hp) as [_ Hd]. split.
  - unfold failing_idx.
    assert (E : filter (fun x => negb (blkVal x)) (dets_from false l) = []).
    { rewrite forallb_forall in H. clear - H.
      induction (dets_from false l) as [|x r IH]; [reflexivity|]. simpl.
      rewrite (H x (or_introl eq_refl)). simpl. apply IH. intros y Hy. apply H. right. exact Hy. }
    rewrite E. reflexivity.
  - apply Forall_forall. intros x Hx. apply In_nth_error in Hx. destruct Hx as [j Hj].
    destruct (Hd j x Hj). split; assumption.
Qed.

Lemma live_checks_prefix (target : string) (chain : list Block) (b' : Block) (j : nat)
    (b : Block) :
  (j < List.length chain)%nat ->
  live_checks target (chain ++ [b']) j b = live_checks target chain j b.
Proof.
  intro H. unfold live_checks. destruct j as [|j]; [reflexivity|].
  rewrite nth_error_app1 by lia. reflexivity.
Qed.

Lemma new_Block_fields (now : string) (i : Z) (prev : string) (txs : list Tx) :
  idx (new_Block now i prev txs) = i /\
  prevHash (new_Block now i prev txs) = prev /\
  ts (new_Block now i prev txs) = now /\
  transactions (new_Block now i prev txs) = txs /\
  merkleRoot (new_Block now i prev txs) = computeMerkleRoot (map txid txs) /\
  nonce (new_Block now i prev txs) = 0.
Proof. repeat split. Qed.

Lemma mined_block_passes (fuel d : nat) (chain : list Block) (latest nb : Block)
    (now : string) (txs : list Tx) (n : nat) :
  nth_error chain n = Some latest -> List.length chain = S n ->
  mineHeader fuel d (new_Block now (idx latest + 1) (hash latest) txs) = Some nb ->
  passes (live_checks (repeat_string "0" d) (chain ++ [nb]) (S n) nb) = true.
Proof.
  intros Hl Hn Hm. apply mineHeader_sound in Hm.
  destruct Hm as (Hh & Hp & (Hi & _ & Hv & _ & _) & _).
  destruct (new_Block_fields now (idx latest + 1) (hash latest) txs) as (Fi & Fp & _).
  unfold passes, live_checks. cbn [chk_hash chk_pow chk_prev chk_index].
  rewrite nth_error_app1 by lia. rewrite Hl.
  fold (computeHeaderHash nb). rewrite <- Hh, String.eqb_refl, Hp.
  rewrite Hv, Fp, String.eqb_refl, Hi, Fi, Z.eqb_refl. reflexivity.
Qed.

Lemma getLastBlock_some (bc : Blockchain) (latest : Block) :
  getLastBlock bc = Some latest ->
  exists n, List.length (chain bc) = S n /\ nth_error (chain bc) n = Some latest.
Proof.
  unfold getLastBlock. intro H. destruct (chain bc) as [|b r] eqn:E; [discriminate H|].
  exists (List.length r). split; [reflexivity|].
  simpl in H. rewrite Nat.sub_0_r in H. exact H.
Qed.

Lemma mineBlock_valid (fuel : nat) (now : string) (txs : list Tx) (bc bc' : Blockchain)
    (b : Block) :
  isValid (validateChain bc) = true ->
  mineBlock fuel now txs bc = Ok (Some (bc', b)) ->
  isValid (validateChain bc') = true.
Proof.
  intros Hv Hm. unfold mineBlock in Hm.
  destruct (getLastBlock bc) as [latest|] eqn:El; [|discriminate Hm].
  destruct (mineHeader fuel (diff bc) _) as [nb|] eqn:Eh; [|discriminate Hm].
  apply Ok_inj in Hm. inversion Hm. subst b. clear Hm.
  destruct (getLastBlock_some _ El) as (n & Hn & Hl).
  unfold validateChain in *. cbn [diff chain].
  apply validateChain_valid_iff. intros j c Hj.
  destruct (Nat.lt_ge_cases j (List.length (chain bc))) as [Hlt|Hge].
  - rewrite nth_error_app1 in Hj by exact Hlt.
    rewrite live_checks_prefix by exact Hlt.
    apply (proj1 (validateChain_valid_iff (diff bc) (chain bc)) Hv). exact Hj.
  - rewrite nth_error_app2 in Hj by exact Hge.
    destruct (j - List.length (chain bc))%nat as [|k] eqn:Ek;
      [|destruct k; discriminate Hj].
    inversion Hj. subst c.
    assert (j = S n) by lia. subst j.
    apply (@mined_block_passes fuel (diff bc) (chain bc) latest nb now txs n Hl Hn Eh).
Qed.

Lemma new_Blockchain_valid (fuel : nat) (now : string) (d : nat) (bc : Blockchain) :
  new_Blockchain fuel now d = Some bc -> isValid (validateChain bc) = true.
Proof.
  intro H. unfold new_Blockchain in H.
  destruct (mineHeader fuel d _) as [g|] eqn:Eg; [|discriminate H].
  inversion H. subst bc. clear H. unfold validateChain. cbn [diff chain].
  apply validateChain_valid_iff. intros j c Hj.
  destruct j as [|j]; [|destruct j; discriminate Hj]. inversion Hj. subst c.
  apply mineHeader_sound in Eg.
  destruct Eg as (Hh & Hp & (Hi & _ & Hv & _ & _) & _).
  unfold passes, live_checks. cbn [chk_hash chk_pow chk_prev chk_index].
  fold (computeHeaderHash g). rewrite <- Hh, String.eqb_refl, Hp, Hv, Hi. reflexivity.
Qed.

(** A ledger starts valid and stays valid: the chain that the
    constructor builds validates; when [mineBlock] returns on a chain that
    validates, the chain with the new block validates; and an answer of
    [POST /api/mine] carries the verdict of the new chain, which is valid
    with no failing index and no cascaded block. *)
Theorem mining_keeps_the_chain_valid :
  (forall fuel now d bc,
      new_Blockchain fuel now d = Some bc -> isValid (validateChain bc) = true) /\
  (forall fuel now txs bc bc' b,
      isValid (validateChain bc) = true ->
      mineBlock fuel now txs bc = Ok (Some (bc', b)) ->
      isValid (validateChain bc') = true) /\
  (forall fuel now rnd bc bc' resp,
      isValid (validateChain bc) = true ->
      api_mine fuel now rnd bc = (bc', Ok (Some resp)) ->
      resp_val resp = validateChain bc' /\
      isValid (resp_val resp) = true /\
      invBlkIdx (resp_val resp) = [] /\
      Forall (fun x => blkVal x = true /\ cc x = false) (dets (resp_val resp))).
Proof.
  split; [|split].
  - apply new_Blockchain_valid.
  - intros fuel now txs bc bc' b. apply mineBlock_valid.
  - intros fuel now rnd bc bc' resp Hv H. unfold api_mine in H.
    destruct (createFiveRandomTxs rnd (utxo bc)) as [pool [txs|e]]; [|inversion H].
    destruct (mapM ensure_txid _) as [allTxs|e]; [|inversion H].
    destruct (mineBlock fuel now allTxs _) as [[[bc'' nb]|]|e] eqn:Em; inversion H.
    subst bc''. cbn [resp_val].
    assert (Hv' : isValid (validateChain bc') = true).
    { apply (@mineBlock_valid fuel now allTxs _ bc' nb) in Em; [exact Em|exact Hv]. }
    split; [reflexivity|]. split; [exact Hv'|].
    unfold validateChain in *. rewrite validateChain_of_spec in *.
    apply valid_verdict_shape. exact Hv'.
Qed.

Lemma mining_keeps_the_chain_valid_witness :
  isValid (validateChain bc0) = true /\
  isValid (validateChain bc1) = true /\
  invBlkIdx (validateChain bc1) = [].
Proof.
  destruct mining_keeps_the_chain_valid as (H1 & _ & H3).
  assert (V0 : isValid (validateChain bc0) = true).
  { apply (H1 11%nat now0 3%nat). vm_compute. reflexivity. }
  split; [exact V0|].
  destruct (H3 3%nat now1 rnd1 bc0 bc1
               (mkMineResponse block1 (transactions block1) (validateChain bc1)) V0)
    as (_ & V1 & I1 & _).
  - vm_compute. reflexivity.
  - split; [exact V1|exact I1].
Defined.

(** [mineBlock] on a chain with no block raises (it reads [idx] of
    [undefined]); when it returns, the chain has grown by the block
    returned, which is now the last one, the difficulty is the same and
    the pool has the transactions applied in order; the block has the next
    index, the hash of the former last block as previous hash, the clock
    reading as timestamp, the transactions given, and the Merkle root of
    their identifiers. *)
Theorem mineBlock_appends_a_linked_block :
  forall (fuel : nat) (now : string) (txs : list Tx) (bc : Blockchain),
    (chain bc = [] -> mineBlock fuel now txs bc = Throw TypeError) /\
    (forall bc' b,
        mineBlock fuel now txs bc = Ok (Some (bc', b)) ->
        exists latest,
          getLastBlock bc = Some latest /\
          chain bc' = chain bc ++ [b] /\ getLastBlock bc' = Some b /\
          diff bc' = diff bc /\ utxo bc' = apply_txs txs (utxo bc) /\
          idx b = idx latest + 1 /\ prevHash b = hash latest /\ ts b = now /\
          transactions b = txs /\
          merkleRoot b = computeMerkleRoot (map txid txs) /\
          0 <= nonce b).
Proof.
  intros fuel now txs bc. split.
  - intro H. unfold mineBlock, getLastBlock. rewrite H. reflexivity.
  - intros bc' b H. unfold mineBlock in H.
    destruct (getLastBlock bc) as [latest|] eqn:El; [|discriminate H].
    destruct (mineHeader fuel (diff bc) _) as [nb|] eqn:Eh; [|discriminate H].
    apply Ok_inj in H. inversion H. subst b. clear H.
    exists latest. apply mineHeader_sound in Eh.
    destruct Eh as (_ & _ & (Hi & Ht & Hv & Hm & Hx) & Hn & _).
    destruct (new_Block_fields now (idx latest + 1) (hash latest) txs)
      as (Fi & Fp & Ft & Fx & Fm & Fn).
    cbn [chain diff utxo].
    split; [reflexivity|]. split; [reflexivity|]. split.
    { unfold getLastBlock. cbn [chain]. rewrite length_app. cbn [List.length].
      rewrite nth_error_app2 by lia.
      replace (List.length (chain bc) + 1 - 1 - List.length (chain bc))%nat with 0%nat by lia.
      reflexivity. }
    split; [reflexivity|]. split; [reflexivity|].
    split; [congruence|]. split; [congruence|]. split; [congruence|].
    split; [congruence|]. split; [congruence|].
    rewrite Fn in Hn. exact Hn.
Qed.

Lemma mineBlock_appends_a_linked_block_witness :
  let bc := mkBlockchain 3 (chain bc0) (fst (createFiveRandomTxs rnd1 (utxo bc0))) in
  exists latest,
    getLastBlock bc = Some latest /\
    chain bc1 = chain bc ++ [block1] /\ getLastBlock bc1 = Some block1 /\
    diff bc1 = diff bc /\ utxo bc1 = apply_txs (transactions block1) (utxo bc) /\
    idx block1 = idx latest + 1 /\ prevHash block1 = hash latest /\ ts block1 = now1 /\
    transactions block1 = transactions block1 /\
    merkleRoot block1 = computeMerkleRoot (map txid (transactions block1)) /\
    0 <= nonce block1.
Proof.
  apply (proj2 (mineBlock_appends_a_linked_block 3 now1 (transactions block1)
                  (mkBlockchain 3 (chain bc0) (fst (createFiveRandomTxs rnd1 (utxo bc0)))))).
  vm_compute. reflexivity.
Defined.

(* ----------------------------------------------------------------- *)
(** ** When the nonce search returns *)




(* ----------------------------------------------------------------- *)
(** ** The fields of a verdict *)

Lemma verdict_of_consistent (l : list checks) :
  verdict_consistent (verdict_of l) (List.length l).
Proof.
  unfold verdict_consistent, verdict_of. cbn [isValid invBlkIdx dets].
  set (ds := dets_from false l).
  assert (Hall : forallb blkVal ds = true <-> forall x, In x ds -> blkVal x = true)
    by apply forallb_forall.
  assert (Hfil : forall ds0 : list det,
             (forall x, In x ds0 -> blkVal x = true) <->
             map det_idx (filter (fun x => negb (blkVal x)) ds0) = []).
  { induction ds0 as [|x r IH]; simpl; [tauto|].
    destruct (blkVal x) eqn:E; simpl.
    - rewrite <- IH. split; [intros H y Hy; apply H; right; exact Hy|].
      intros H y [<-|Hy]; [exact E|apply H; exact Hy].
    - split; [intro H; specialize (H x (or_introl eq_refl)); congruence|discriminate]. }
  split; [apply dets_from_length|]. split; [|split; [|split; [|split; [|split]]]].
  - unfold failing_idx. rewrite Hall. apply Hfil.
  - exact Hall.
  - reflexivity.
  - intros x Hx. apply In_nth_error in Hx. destruct Hx as [j Hj].
    apply dets_from_nth in Hj. destruct Hj as (c & _ & _ & E1 & E2 & E3 & E4 & E5).
    rewrite E5, E1, E2, E3, E4. unfold passes. rewrite !andb_assoc. reflexivity.
  - intros x Hx. unfold ds in Hx. destruct l as [|c l']; [discriminate Hx|].
    simpl in Hx. inversion Hx. reflexivity.
  - intros x Hx Hb. unfold failing_idx. f_equal.
    unfold ds in *. destruct l as [|c l']; [reflexivity|].
    cbn [dets_from nth_error] in Hx. inversion Hx as [Ex].
    cbn [dets_from filter]. rewrite Ex, Hb. cbn [negb orb]. f_equal.
    pose proof (dets_from_poisoned l') as Hp. clear - Hp.
    induction (dets_from true l') as [|y r IH]; [reflexivity|].
    cbn [filter]. destruct (Hp 0%nat y eq_refl) as [_ Hy]. rewrite Hy. cbn [negb].
    f_equal. apply IH. intros i z Hz. apply (Hp (S i) z Hz).
Qed.

Lemma live_checks_from_length (target : string) (chain rest : list Block) :
  forall i, List.length (live_checks_from target chain i rest) = List.length rest.
Proof. induction rest as [|b r IH]; intro i; simpl; [reflexivity|]. rewrite IH. reflexivity. Qed.

(** Both validators return a verdict whose fields agree with each other:
    one diagnostic record per block; valid exactly when no index is listed
    and exactly when every record says the block is valid; the listed
    indices are those of the records that say invalid, in order; a record
    says valid exactly when the block is not cascaded and passes its four
    checks; the first block is never cascaded; and when the first block
    fails, every block is listed.  The verdict on no block at all is
    valid. *)
Theorem verdict_fields_agree :
  forall (d : nat) (chain : list Block) (records : list value),
    verdict_consistent (validateChain_of d chain) (List.length chain) /\
    (forall v, validChain records d = Ok v ->
               verdict_consistent v (List.length records)) /\
    validateChain_of d [] = mkVerdict true [] [] /\
    validChain [] d = Ok (mkVerdict true [] []).
Proof.
  intros d chain records. split; [|split; [|split; reflexivity]].
  - rewrite validateChain_of_spec.
    replace (List.length chain) with (List.length (live_checks_list d chain)).
    + apply verdict_of_consistent.
    + unfold live_checks_list. apply live_checks_from_length.
  - intros v H. rewrite validChain_spec in H. apply bind_Ok in H.
    destruct H as (cs & Hcs & Hv). apply Ok_inj in Hv. subst v.
    apply mapM_length in Hcs. rewrite length_seq in Hcs. rewrite <- Hcs.
    apply verdict_of_consistent.
Qed.

Lemma verdict_fields_agree_witness :
  verdict_consistent (validateChain_of 3 [block0; block1_idx7]) 2 /\
  exists v, validChain (import_structured [block0; block1_idx7]) 3 = Ok v /\
            verdict_consistent v 2.
Proof.
  destruct (verdict_fields_agree 3 [block0; block1_idx7]
              (import_structured [block0; block1_idx7])) as (H1 & H2 & _).
  split; [exact H1|].
  exists (validateChain_of 3 [block0; block1_idx7]).
  split; [apply structured_import_agrees|].
  apply H2. apply structured_import_agrees.
Defined.


(* ----------------------------------------------------------------- *)
(** ** The generator of the demonstration transactions *)

Lemma floor_random_times_range (r n : Z) : 0 < n -> 0 <= floor_random_times r n < n.
Proof.
  intro H. unfold floor_random_times.
  pose proof (Z.mod_pos_bound r 9007199254740992 ltac:(lia)) as Hr.
  split.
  - apply Z.div_pos; [|lia]. apply Z.mul_nonneg_nonneg; lia.
  - apply Z.div_lt_upper_bound; [lia|]. apply Z.mul_lt_mono_pos_r; lia.
Qed.

Lemma floor_random_times_zero (r : Z) : floor_random_times r 0 = 0.
Proof. unfold floor_random_times. rewrite Z.mul_0_r. reflexivity. Qed.

Lemma remove_nth_Permutation {A : Type} (l : list A) :
  forall i u, nth_error l i = Some u -> Permutation l (u :: remove_nth i l).
Proof.
  induction l as [|x l IH]; intros [|i] u H; simpl in *; try discriminate H.
  - inversion H. apply Permutation_refl.
  - apply perm_trans with (x :: u :: remove_nth i l); [|apply perm_swap].
    apply perm_skip. apply IH. exact H.
Qed.

Lemma pick_utxos_spec (rnd : Rand) (fuel : nat) :
  forall k chosen poolCopy,
    (List.length chosen + fuel = 5)%nat ->
    (exists rest,
        Permutation (pick_utxos rnd fuel k chosen poolCopy ++ rest) (chosen ++ poolCopy)) /\
    List.length (pick_utxos rnd fuel k chosen poolCopy)
    = Nat.min 5 (List.length chosen + List.length poolCopy) /\
    (chosen <> [] -> hd_error (pick_utxos rnd fuel k chosen poolCopy) = hd_error chosen).
Proof.
  induction fuel as [|fuel IH]; intros k chosen poolCopy Hf.
  - cbn [pick_utxos]. split; [exists poolCopy; apply Permutation_refl|].
    split; [lia|reflexivity].
  - cbn [pick_utxos].
    assert (E1 : (List.length chosen <? 5)%nat = true) by (apply Nat.ltb_lt; lia).
    rewrite E1. cbn [andb].
    destruct (0 <? List.length poolCopy)%nat eqn:E2.
    + apply Nat.ltb_lt in E2.
      pose proof (@floor_random_times_range (rand_pick rnd k)
                    (Z.of_nat (List.length poolCopy)) ltac:(lia)) as Hr.
      set (i := Z.to_nat (floor_random_times (rand_pick rnd k)
                                             (Z.of_nat (List.length poolCopy)))) in *.
      assert (Hi : (i < List.length poolCopy)%nat) by (unfold i; lia).
      clearbody i. clear Hr.
      destruct (nth_error poolCopy i) as [u|] eqn:Eu;
        [|apply nth_error_None in Eu; lia].
      destruct (IH (S k) (chosen ++ [u]) (remove_nth i poolCopy)) as ((rest & HP) & HL & HH).
      { rewrite length_app. simpl. lia. }
      split; [|split].
      * exists rest. eapply perm_trans; [exact HP|].
        rewrite <- app_assoc. apply Permutation_app_head. simpl.
        apply Permutation_sym. apply remove_nth_Permutation. exact Eu.
      * rewrite HL, length_app. cbn [List.length].
        assert (Hrm : S (List.length (remove_nth i poolCopy)) = List.length poolCopy).
        { pose proof (Permutation_length (remove_nth_Permutation poolCopy i Eu)) as HLp.
          simpl in HLp. lia. }
        lia.
      * intro Hc. rewrite HH by (destruct chosen; discriminate).
        destruct chosen; [congruence|reflexivity].
    + apply Nat.ltb_ge in E2. assert (List.length poolCopy = 0)%nat by lia.
      destruct poolCopy; [|discriminate].
      split; [exists []; apply Permutation_refl|]. split; [cbn [List.length]; lia|reflexivity].
Qed.

Lemma build_tx_inv (rnd : Rand) (chosen : list Avail) (i : nat) (tx : Tx) :
  build_tx rnd chosen i = Ok tx ->
  exists u, nth_error chosen (i mod List.length chosen) = Some u /\
            inputs tx = [mkTxIn (a_txid u) (a_index u) None].
Proof.
  unfold build_tx. intro H.
  destruct (nth_error chosen (i mod List.length chosen)) as [u|]; [|discriminate H].
  apply bind_Ok in H. destruct H as (id & _ & H). apply Ok_inj in H. subst tx.
  exists u. split; reflexivity.
Qed.

Lemma createFiveRandomTxs_result (rnd : Rand) (p : Pool) :
  snd (createFiveRandomTxs rnd p) = mapM (build_tx rnd (chosen_of rnd p)) (seq 0 5).
Proof.
  unfold createFiveRandomTxs, chosen_of, poolCopy_of.
  destruct (List.length (listAvailable p) <? 5)%nat; reflexivity.
Qed.

(** The picking loop draws without replacement: it returns five elements
    of the list, or all of them when there are fewer, each position taken
    once at most, whatever the random draws are; so outputs that differ in
    the list differ among the picks. *)
Theorem pick_utxos_draws_without_replacement :
  forall (rnd : Rand) (poolCopy : list Avail),
    List.length (pick_utxos rnd 5 0 [] poolCopy) = Nat.min 5 (List.length poolCopy) /\
    (exists rest, Permutation (pick_utxos rnd 5 0 [] poolCopy ++ rest) poolCopy) /\
    (forall u, In u (pick_utxos rnd 5 0 [] poolCopy) -> In u poolCopy) /\
    (NoDup (map outpoint poolCopy) ->
     NoDup (map outpoint (pick_utxos rnd 5 0 [] poolCopy))).
Proof.
  intros rnd poolCopy.
  destruct (@pick_utxos_spec rnd 5 0 [] poolCopy eq_refl) as ((rest & HP) & HL & _).
  cbn [app List.length Nat.add] in HP, HL.
  split; [exact HL|]. split; [exists rest; exact HP|]. split.
  - intros u Hu. apply (Permutation_in u HP). apply in_or_app. left. exact Hu.
  - intro Hn.
    apply (Permutation_NoDup (Permutation_sym (Permutation_map outpoint HP))) in Hn.
    rewrite map_app in Hn. apply NoDup_app_remove_r in Hn. exact Hn.
Qed.

Lemma pick_utxos_draws_without_replacement_witness :
  NoDup (map outpoint (listAvailable (utxo bc1))) /\
  NoDup (map outpoint (pick_utxos rnd2 5 0 [] (listAvailable (utxo bc1)))).
Proof.
  assert (H : NoDup (map outpoint (listAvailable (utxo bc1))))
    by (apply listAvailable_NoDup; exact bc1_pool_wf).
  split; [exact H|].
  apply (proj2 (proj2 (proj2
           (pick_utxos_draws_without_replacement rnd2 (listAvailable (utxo bc1)))))).
  exact H.
Defined.

Lemma Map_get_key (k : string) (m : Pool) :
  In k (map fst m) -> Map_get k m <> None.
Proof.
  induction m as [|[k0 v0] m IH]; simpl; [intros []|].
  destruct (String.eqb k k0) eqn:E; [discriminate|].
  apply String.eqb_neq in E. intros [H|H]; [congruence|apply IH; exact H].
Qed.

Lemma poolCopy_of_NoDup (rnd : Rand) (p : Pool) :
  pool_wf p -> Map_get (rand_faucetTxid rnd) p = None ->
  NoDup (map outpoint (poolCopy_of rnd p)).
Proof.
  intros Hwf Hf. pose proof (listAvailable_NoDup Hwf) as Hn. unfold poolCopy_of.
  destruct (List.length (listAvailable p) <? 5)%nat; [|exact Hn].
  rewrite map_app. apply NoDup_append; [exact Hn|repeat constructor; intros []|].
  intros [t i] Hx [Hy|[]]. unfold outpoint in Hy. simpl in Hy. inversion Hy. subst t i.
  apply in_map_iff in Hx. destruct Hx as (a & Ea & Ha).
  apply listAvailable_In in Ha. destruct Ha as (outs & _ & Hkv & _).
  apply (@Map_get_key (rand_faucetTxid rnd) p); [|exact Hf].
  apply in_map_iff. exists (a_txid a, outs). split; [|exact Hkv].
  unfold outpoint in Ea. simpl. congruence.
Qed.

Lemma payments_inputs (rnd : Rand) (p : Pool) (txs : list Tx) :
  snd (createFiveRandomTxs rnd p) = Ok txs ->
  forall i, (i < 5)%nat ->
            exists tx u,
              nth_error txs i = Some tx /\
              nth_error (chosen_of rnd p) (i mod List.length (chosen_of rnd p)) = Some u /\
              inputs tx = input_of u.
Proof.
  rewrite createFiveRandomTxs_result. intros H i Hi.
  destruct (@mapM_nth_of _ _ _ _ _ H i i (nth_error_seq0 Hi)) as (tx & Htx & Hb).
  apply build_tx_inv in Hb. destruct Hb as (u & Hu & Hin).
  exists tx, u. repeat split; assumption.
Qed.

(** Whether the five payments of a round spend five outputs depends on
    the size of the pool.  With four unspent outputs or more (and a faucet
    identifier that the pool does not hold yet), the five payments spend
    five different outputs.  With fewer than four, the first payment and
    the payment that comes as many places later as there are candidates
    spend the very same output: the round builds a double spend. *)
Theorem payments_reuse_outputs_of_a_small_pool :
  forall (rnd : Rand) (p p' : Pool) (txs : list Tx),
    createFiveRandomTxs rnd p = (p', Ok txs) ->
    (pool_wf p -> Map_get (rand_faucetTxid rnd) p = None ->
     (4 <= List.length (listAvailable p))%nat ->
     NoDup (map inputs txs)) /\
    ((List.length (listAvailable p) < 4)%nat ->
     exists t0 tk,
       nth_error txs 0 = Some t0 /\
       nth_error txs (S (List.length (listAvailable p))) = Some tk /\
       inputs t0 = inputs tk).
Proof.
  intros rnd p p' txs H.
  assert (Hs : snd (createFiveRandomTxs rnd p) = Ok txs) by (rewrite H; reflexivity).
  pose proof (payments_inputs rnd p Hs) as Hin.
  destruct (pick_utxos_draws_without_replacement rnd (poolCopy_of rnd p))
    as (HL & _ & _ & HN).
  fold (chosen_of rnd p) in HL, HN.
  assert (HLp : List.length (poolCopy_of rnd p)
                = if (List.length (listAvailable p) <? 5)%nat
                  then S (List.length (listAvailable p))
                  else List.length (listAvailable p)).
  { unfold poolCopy_of. destruct (List.length (listAvailable p) <? 5)%nat; [|reflexivity].
    rewrite length_app. simpl. lia. }
  split.
  - intros Hwf Hf H4.
    assert (H5 : List.length (chosen_of rnd p) = 5%nat).
    { rewrite HL, HLp. destruct (List.length (listAvailable p) <? 5)%nat eqn:E; [lia|].
      apply Nat.ltb_ge in E. lia. }
    assert (E : map inputs txs = map input_of (chosen_of rnd p)).
    { apply nth_error_ext. intro n. rewrite !nth_error_map.
      destruct (Nat.lt_ge_cases n 5) as [Hn|Hn].
      - destruct (Hin n Hn) as (tx & u & E1 & E2 & E3).
        rewrite H5, Nat.mod_small in E2 by exact Hn.
        rewrite E1, E2. simpl. rewrite E3. reflexivity.
      - assert (L5 : List.length txs = 5%nat).
        { rewrite createFiveRandomTxs_result in Hs. apply mapM_length in Hs.
          rewrite Hs. reflexivity. }
        rewrite (proj2 (nth_error_None txs n)) by lia.
        rewrite (proj2 (nth_error_None (chosen_of rnd p) n)) by lia. reflexivity. }
    rewrite E.
    specialize (HN (poolCopy_of_NoDup rnd Hwf Hf)).
    clear - HN. induction (chosen_of rnd p) as [|u l IH]; simpl in *; [constructor|].
    inversion HN as [|? ? Hu Hl]; subst. constructor; [|apply IH; exact Hl].
    rewrite in_map_iff. intros (v & Ev & Hv). apply Hu. apply in_map_iff.
    exists v. split; [|exact Hv]. unfold input_of, outpoint in *. inversion Ev. congruence.
  - intro H4.
    assert (E5 : (List.length (listAvailable p) <? 5)%nat = true) by (apply Nat.ltb_lt; lia).
    rewrite E5 in HLp.
    assert (Hk : List.length (chosen_of rnd p) = S (List.length (listAvailable p)))
      by (rewrite HL, HLp; lia).
    destruct (Hin 0%nat ltac:(lia)) as (t0 & u0 & E1 & E2 & E3).
    destruct (Hin (S (List.length (listAvailable p))) ltac:(lia)) as (tk & uk & F1 & F2 & F3).
    rewrite Hk in E2, F2. rewrite Nat.Div0.mod_same in F2.
    rewrite Nat.Div0.mod_0_l in E2.
    exists t0, tk. repeat split; try assumption. congruence.
Qed.

Lemma payments_reuse_outputs_of_a_small_pool_witness :
  (exists t0 tk,
      nth_error (tl (transactions block1)) 0 = Some t0 /\
      nth_error (tl (transactions block1)) 2 = Some tk /\
      inputs t0 = inputs tk) /\
  NoDup (map inputs (tl (transactions block2))).
Proof.
  split.
  - apply (proj2 (@payments_reuse_outputs_of_a_small_pool rnd1 (utxo bc0)
                    (fst (createFiveRandomTxs rnd1 (utxo bc0)))
                    (tl (transactions block1)) ltac:(vm_compute; reflexivity))).
    vm_compute. lia.
  - apply (proj1 (@payments_reuse_outputs_of_a_small_pool rnd2 (utxo bc1)
                    (fst (createFiveRandomTxs rnd2 (utxo bc1)))
                    (tl (transactions block2)) ltac:(vm_compute; reflexivity))).
    + exact bc1_pool_wf.
    + vm_compute. reflexivity.
    + vm_compute. lia.
Defined.

(** The amounts of a generated payment.  For a picked output with a
    32-bit index and a value below 2^64: when the value is at least the
    fee plus one (10001 sats), the payment is built, it pays at least 1
    sat, its change is not negative, and payment, change and fee add up to
    the value; from the fee plus 1001 sats on, the change is at least 1000
    sats; below the fee plus one, the change would be negative and the
    64-bit writer raises a range error. *)
Theorem payment_amounts :
  forall (rnd : Rand) (chosen : list Avail) (i : nat) (u : Avail),
    nth_error chosen (i mod List.length chosen) = Some u ->
    u32 (a_index u) -> a_value u <= 18446744073709551615 ->
    (a_value u < fixed_fee + 1 -> build_tx rnd chosen i = Throw RangeError) /\
    (fixed_fee + 1 <= a_value u ->
     exists tx payment change,
       build_tx rnd chosen i = Ok tx /\
       inputs tx = input_of u /\
       map out_value (outputs tx) = [payment; change] /\
       payment + change + fixed_fee = a_value u /\
       1 <= payment /\ 0 <= change /\
       (fixed_fee + 1001 <= a_value u ->
        payment <= a_value u - fixed_fee - 1000 /\ 1000 <= change) /\
       (a_value u < fixed_fee + 1001 -> payment = 1)).
Proof.
  intros rnd chosen i u Hu Hidx Hval. unfold build_tx. rewrite Hu.
  set (maxSend := Z.max 0 (a_value u - fixed_fee - 1000)).
  set (f := floor_random_times (rand_amount rnd i) maxSend).
  set (sendAmt := Z.max 1 (Z.min maxSend (f + 1))).
  assert (Hf : (maxSend = 0 /\ f = 0) \/ (0 < maxSend /\ 0 <= f < maxSend)).
  { destruct (Z.eq_dec maxSend 0) as [E|E].
    - left. split; [exact E|]. unfold f. rewrite E. apply floor_random_times_zero.
    - right. assert (0 < maxSend) by (unfold maxSend in *; lia).
      split; [assumption|]. apply floor_random_times_range. assumption. }
  unfold fixed_fee in *.
  assert (Hs : 1 <= sendAmt /\ (maxSend = 0 -> sendAmt = 1) /\
               (0 < maxSend -> sendAmt <= maxSend)) by (unfold sendAmt; lia).
  clearbody f. destruct Hs as (Hs1 & Hs2 & Hs3). clearbody sendAmt.
  set (tx := new_Tx [mkTxIn (a_txid u) (a_index u) None]
                    [mkTxOut sendAmt (p2pkhScript (rand_recipientHash rnd i));
                     mkTxOut (a_value u - sendAmt - 10000)
                             (p2pkhScript (rand_changeHash rnd i))]).
  split.
  - intro Hlow. rewrite (@getTxid_fails tx); [reflexivity|].
    intros (_ & _ & _ & Ho). unfold tx in Ho. simpl in Ho.
    inversion Ho as [|? ? _ Ho2]. inversion Ho2 as [|? ? Hc _].
    unfold u64 in Hc. simpl in Hc. unfold maxSend in *. lia.
  - intro Hhigh.
    assert (Hr : tx_in_range tx).
    { unfold tx, tx_in_range, new_Tx. simpl. unfold u32 in *.
      split; [lia|]. split; [lia|]. split.
      - repeat constructor; simpl; lia.
      - repeat constructor; unfold u64; simpl; unfold maxSend in *; lia. }
    rewrite (getTxid_spec Hr). cbn [bind].
    eexists _, sendAmt, (a_value u - sendAmt - 10000).
    split; [reflexivity|]. cbn [inputs outputs version locktime tx new_Tx map out_value].
    split; [reflexivity|]. split; [reflexivity|]. unfold maxSend in *.
    repeat split; lia.
Qed.

Lemma payment_amounts_witness :
  build_tx rnd_dust (chosen_of rnd_dust (utxo bc1)) 0 = Throw RangeError /\
  exists tx payment change,
    build_tx rnd1 (chosen_of rnd1 (utxo bc0)) 0 = Ok tx /\
    inputs tx
    = input_of (mkAvail aliceTxid 0 100000000
                        "76a9141d0f172a0ecb48aee1be1f2687d2963ae33f71a188ac") /\
    map out_value (outputs tx) = [payment; change] /\
    payment + change + fixed_fee = 100000000 /\
    1 <= payment /\ 0 <= change /\
    (fixed_fee + 1001 <= 100000000 -> payment <= 100000000 - fixed_fee - 1000 /\ 1000 <= change) /\
    (100000000 < fixed_fee + 1001 -> payment = 1).
Proof.
  split.
  - apply (proj1 (@payment_amounts rnd_dust (chosen_of rnd_dust (utxo bc1)) 0
                    (mkAvail "2f0724b9a92166ee7641700fe196452a16b2a1d214928ae8637ec11b2b11e8f8"
                       1 1000 "76a914555555555555555555555555555555555555555588ac")
                    ltac:(vm_compute; reflexivity)
                    ltac:(unfold u32; simpl; lia) ltac:(simpl; lia))).
    simpl. unfold fixed_fee. lia.
  - apply (proj2 (@payment_amounts rnd1 (chosen_of rnd1 (utxo bc0)) 0
                    (mkAvail aliceTxid 0 100000000
                             "76a9141d0f172a0ecb48aee1be1f2687d2963ae33f71a188ac")
                    ltac:(vm_compute; reflexivity)
                    ltac:(unfold u32; simpl; lia) ltac:(simpl; lia))).
    simpl. unfold fixed_fee. lia.
Defined.

(** A request that fails adds no block: the chain and the difficulty are
    as before, whether the generator raised or the search gave up.  The
    pool is not rolled back, though: when fewer than five outputs were
    unspent the faucet output registered by the generator stays in the
    pool; with five or more the generator leaves the pool alone.  A
    request that answers appends the block of the answer. *)
Theorem a_failed_round_adds_no_block :
  forall (fuel : nat) (now : string) (rnd : Rand) (bc : Blockchain),
    diff (fst (api_mine fuel now rnd bc)) = diff bc /\
    match snd (api_mine fuel now rnd bc) with
    | Ok (Some resp) =>
        chain (fst (api_mine fuel now rnd bc)) = chain bc ++ [resp_blk resp]
    | _ =>
        chain (fst (api_mine fuel now rnd bc)) = chain bc /\
        utxo (fst (api_mine fuel now rnd bc)) = fst (createFiveRandomTxs rnd (utxo bc))
    end /\
    ((5 <= List.length (listAvailable (utxo bc)))%nat ->
     fst (createFiveRandomTxs rnd (utxo bc)) = utxo bc) /\
    ((List.length (listAvailable (utxo bc)) < 5)%nat ->
     fst (createFiveRandomTxs rnd (utxo bc))
     = addTxOutputs (rand_faucetTxid rnd)
                    [mkTxOut 50000000 (p2pkhScript (rand_faucetHash rnd))] (utxo bc)) /\
    (chain bc = [] -> exists e, snd (api_mine fuel now rnd bc) = Throw e).
Proof.
  intros fuel now rnd bc.
  assert (Hm : forall txs b, getLastBlock b = None -> mineBlock fuel now txs b = Throw TypeError).
  { intros txs b H. unfold mineBlock. rewrite H. reflexivity. }
  split; [|split; [|split; [|split]]].
  - unfold api_mine.
    destruct (createFiveRandomTxs rnd (utxo bc)) as [pool [txs|e]]; [|reflexivity].
    destruct (mapM ensure_txid _) as [allTxs|e]; [|reflexivity].
    unfold mineBlock. destruct (getLastBlock _); [|reflexivity].
    destruct (mineHeader _ _ _); reflexivity.
  - unfold api_mine.
    destruct (createFiveRandomTxs rnd (utxo bc)) as [pool [txs|e]];
      [|split; reflexivity].
    destruct (mapM ensure_txid _) as [allTxs|e]; [|split; reflexivity].
    unfold mineBlock. destruct (getLastBlock _); [|split; reflexivity].
    destruct (mineHeader _ _ _); [reflexivity|split; reflexivity].
  - intro H. rewrite createFiveRandomTxs_pool.
    apply Nat.ltb_ge in H. rewrite H. reflexivity.
  - intro H. rewrite createFiveRandomTxs_pool.
    apply Nat.ltb_lt in H. rewrite H. reflexivity.
  - intro H. unfold api_mine.
    destruct (createFiveRandomTxs rnd (utxo bc)) as [pool [txs|e]];
      [|exists e; reflexivity].
    destruct (mapM ensure_txid _) as [allTxs|e]; [|exists e; reflexivity].
    rewrite Hm; [exists TypeError; reflexivity|].
    unfold getLastBlock. cbn [chain]. rewrite H. reflexivity.
Qed.

Lemma a_failed_round_adds_no_block_witness :
  snd (api_mine 1 now2 rnd_dust bc1) = Throw RangeError /\
  chain (fst (api_mine 1 now2 rnd_dust bc1)) = chain bc1 /\
  fst (createFiveRandomTxs rnd1 (utxo bc0))
  = addTxOutputs (rand_faucetTxid rnd1)
                 [mkTxOut 50000000 (p2pkhScript (rand_faucetHash rnd1))] (utxo bc0).
Proof.
  assert (E : snd (api_mine 1 now2 rnd_dust bc1) = Throw RangeError)
    by (vm_compute; reflexivity).
  split; [exact E|].
  destruct (a_failed_round_adds_no_block 1 now2 rnd_dust bc1) as (_ & H & _).
  rewrite E in H. split; [exact (proj1 H)|].
  destruct (a_failed_round_adds_no_block 1 now1 rnd1 bc0) as (_ & _ & _ & H4 & _).
  apply H4. vm_compute. lia.
Defined.

(* ----------------------------------------------------------------- *)
(** ** The links between uploaded records *)

Lemma import_checks_links (target : string) (records : list value) (j : nat) (c : checks) :
  import_checks target records (S j) = Ok c ->
  exists prevIdx next prevHash prevHashStr,
    opt_get (nth j records Undefined) "idx" = Ok prevIdx /\
    plus_one (coalesce prevIdx (Number (Num (-1)))) = Ok next /\
    chk_index c = number_is (chk_idx c) next /\
    get (or_else (nth j records Undefined) (Obj [])) "hash" = Ok prevHash /\
    chk_prev c = string_is prevHashStr prevHash.
Proof.
  intros H. unfold import_checks in H. inv_bind H.
  apply Ok_inj in H. subst c. cbn [chk_index chk_idx chk_prev].
  match goal with
  | H1 : bind (opt_get _ _) _ = Ok _, H2 : bind (get _ "hash") _ = Ok _ |- _ =>
      apply bind_Ok in H1; destruct H1 as (prevIdx & P1 & H1);
      apply bind_Ok in H1; destruct H1 as (next & P2 & H1); apply Ok_inj in H1;
      apply bind_Ok in H2; destruct H2 as (prevHash & P3 & H2); apply Ok_inj in H2;
      subst
  end.
  match goal with
  | |- context [string_is ?s prevHash] => exists prevIdx, next, prevHash, s
  end.
  repeat split; assumption.
Qed.

Lemma nth_error_nth_value (records : list value) (i : nat) (raw : value) :
  nth_error records i = Some raw -> nth i records Undefined = raw.
Proof.
  revert i. induction records as [|r l IH]; intros [|i] H; simpl in *;
    try discriminate H; [congruence|apply IH; exact H].
Qed.

(** The validator of an uploaded chain accepts [Index], [previousHash],
    [previous_hash] and the like for the fields of the block it is
    checking, but it reads the block before under [idx] and [hash] only.
    After a record with no [idx], a block passes the index check exactly
    when its own index is 0; after a record whose [idx] is a string, no
    block passes it; after a record whose [idx] is a number, the usual
    rule holds.  After a record whose [hash] is absent or is not a string,
    no block passes the previous-hash check. *)
Theorem links_are_read_under_idx_and_hash_only :
  forall (records : list value) (d : nat) (v : verdict) (j : nat) (raw : value)
         (props : list (string * value)),
    validChain records d = Ok v ->
    nth_error records (S j) = Some raw ->
    nth_error records j = Some (Obj props) ->
    exists di,
      nth_error (dets v) (S j) = Some di /\
      (own props "idx" = None -> isIdxVal di = number_eqb (det_idx di) (Num 0)) /\
      (forall n, own props "idx" = Some (Number (Num n)) ->
                 isIdxVal di = number_eqb (det_idx di) (Num (n + 1))) /\
      (forall s, own props "idx" = Some (Str s) -> isIdxVal di = false) /\
      (own props "hash" = None -> isPrevVal di = false) /\
      (forall x, own props "hash" = Some x -> (forall h, x <> Str h) ->
                 isPrevVal di = false).
Proof.
  intros records d v j raw props Hv Hraw Hprev.
  destruct (validChain_checks_at _ _ Hv) as (cs & -> & Hcs).
  destruct (Hcs _ _ Hraw) as (c & Hc & Hic).
  unfold verdict_of. cbn [dets].
  destruct (dets_from_at cs false (S j) Hc) as (di & Hdi & _).
  destruct (dets_from_nth _ _ _ Hdi) as (c' & Hc' & Ei & _ & _ & Ep & Ex & _).
  rewrite Hc in Hc'. inversion Hc'. subst c'. clear Hc'.
  exists di. split; [exact Hdi|]. rewrite Ei, Ep, Ex.
  apply import_checks_links in Hic.
  destruct Hic as (prevIdx & next & prevHash & phs & P1 & P2 & P3 & P4 & P5).
  rewrite (nth_error_nth_value _ _ Hprev) in P1, P4.
  cbn [opt_get nullish get or_else truthy] in P1, P4.
  apply Ok_inj in P1. apply Ok_inj in P4. subst prevIdx prevHash.
  rewrite P3, P5. clear P3 P5.
  split; [|split; [|split; [|split]]].
  - intro E. rewrite E in P2. cbn in P2. apply Ok_inj in P2. subst next. reflexivity.
  - intros n E. rewrite E in P2. cbn in P2. apply Ok_inj in P2. subst next. reflexivity.
  - intros s E. rewrite E in P2. cbn in P2. apply Ok_inj in P2. subst next. reflexivity.
  - intro E. rewrite E. reflexivity.
  - intros x E Hx. rewrite E. destruct x; try reflexivity. exfalso. apply (Hx s). reflexivity.
Qed.

Lemma links_are_read_under_idx_and_hash_only_witness :
  exists v di,
    validChain [ Obj [ ("Index", Number (Num 0)) ]; Obj [ ("Index", Number (Num 1)) ] ] 0
    = Ok v /\
    nth_error (dets v) 1 = Some di /\
    det_idx di = Num 1 /\
    isIdxVal di = number_eqb (det_idx di) (Num 0).
Proof.
  destruct (validChain [ Obj [ ("Index", Number (Num 0)) ];
                         Obj [ ("Index", Number (Num 1)) ] ] 0) as [v|e] eqn:E;
    [|vm_compute in E; discriminate E].
  destruct (@links_are_read_under_idx_and_hash_only _ 0%nat v 0%nat
              (Obj [ ("Index", Number (Num 1)) ]) [ ("Index", Number (Num 0)) ]
              E eq_refl eq_refl) as (di & H1 & H2 & _).
  exists v, di. split; [reflexivity|]. split; [exact H1|].
  split; [|apply H2; reflexivity].
  vm_compute in E. apply Ok_inj in E. subst v. inversion H1. reflexivity.
Defined.

(* ----------------------------------------------------------------- *)
(** ** Structured exports *)

(** On the records that hold the fields of each block under the names
    and with the types the server writes ([idx] and [nonce] as numbers,
    [ts], [prevHash], [merkleRoot] and [hash] as strings), which is what a
    JSON or a YAML export parses back to, the validator of an uploaded
    chain returns, for every chain and every difficulty, the verdict that
    the validator of the live chain returns on the blocks; so the export of
    a ledger fresh from its constructor, or of a valid ledger after
    [mineBlock], validates on upload. *)
Theorem structured_export_validates_like_the_live_chain :
  (forall d chain,
      validChain (import_structured chain) d = Ok (validateChain_of d chain)) /\
  (forall fuel now d bc,
      new_Blockchain fuel now d = Some bc ->
      exists v, validChain (import_structured (chain bc)) (diff bc) = Ok v /\
                isValid v = true) /\
  (forall fuel now txs bc bc' b,
      isValid (validateChain bc) = true ->
      mineBlock fuel now txs bc = Ok (Some (bc', b)) ->
      exists v, validChain (import_structured (chain bc')) (diff bc') = Ok v /\
                isValid v = true).
Proof.
  split; [|split].
  - intros d chain. apply structured_import_agrees.
  - intros fuel now d bc H. exists (validateChain bc).
    split; [apply structured_import_agrees|].
    apply (new_Blockchain_valid _ _ _ H).
  - intros fuel now txs bc bc' b Hv H. exists (validateChain bc').
    split; [apply structured_import_agrees|].
    apply (@mineBlock_valid fuel now txs bc bc' b Hv H).
Qed.

Lemma structured_export_validates_like_the_live_chain_witness :
  exists v, validChain (import_structured (chain bc0)) (diff bc0) = Ok v /\
            isValid v = true.
Proof.
  apply (proj1 (proj2 structured_export_validates_like_the_live_chain) 11%nat now0 3%nat).
  vm_compute. reflexivity.
Defined.


(* ----------------------------------------------------------------- *)
(** ** Witnesses of the round shape and of the total validator *)

Lemma mined_block_shape_witness :
  transactions block1 = transactions block1 /\
  List.length (transactions block1) = 6%nat /\
  exists coinbase txs,
    transactions block1 = coinbase :: txs /\
    (isCoinbase coinbase = true /\ txid coinbase = coinbase_txid /\
     map in_txid (inputs coinbase) = [coinbase_txid] /\
     map out_value (outputs coinbase) = [5000000000]) /\
    List.length txs = 5%nat /\
    Forall (is_spend_of (candidates rnd1 (utxo bc0))) txs.
Proof.
  apply (@mined_block_shape 3 now1 rnd1 bc0 bc1
           (mkMineResponse block1 (transactions block1) (validateChain bc1))).
  vm_compute. reflexivity.
Defined.

Lemma validChain_total_on_plain_records_witness :
  exists v,
    validChain [ Null; Str "block"; Obj [ ("idx", Str "one"); ("hash", Number (Num 7)) ];
                 Arr [ Bool true ]; Obj [] ] 3 = Ok v.
Proof.
  apply validChain_total_on_plain_records.
  repeat constructor.
Defined.

(* ----------------------------------------------------------------- *)
(** ** The plain-text export and its reader *)




















































(* ----------------------------------------------------------------- *)
(** ** The page *)

Lemma liveChain_loop_length (get : Z -> option det) (bad : option Z) (rest : list Block) :
  forall fb pos, List.length (liveChain_loop get bad fb pos rest) = List.length rest.
Proof. induction rest as [|b rest IH]; intros; cbn [liveChain_loop List.length]; auto. Qed.

(** The element at position [i]: [firstBad] is set when an earlier block
    raised it. *)
Lemma liveChain_loop_nth (get : Z -> option det) (bad : option Z) (rest : list Block) :
  forall fb pos i b,
    nth_error rest i = Some b ->
    nth_error (liveChain_loop get bad fb pos rest) i
    = Some (mkView b
              ((fb || existsb (fun x => raises_firstBad (get (idx x))) (firstn i rest))
               || is_false (get (idx b)) blkVal || is_true (get (idx b)) cc
               || at_or_after bad b)
              (idx b =? 0)
              (reasons_of (get (idx b)))
              (Nat.eqb (pos + i) 0)).
Proof.
  induction rest as [|c rest IH]; intros fb pos i b H; [destruct i; discriminate|].
  destruct i as [|i]; cbn [nth_error liveChain_loop firstn existsb] in *.
  - inversion H. subst c. rewrite orb_false_r, Nat.add_0_r. reflexivity.
  - rewrite (IH _ _ _ _ H). rewrite orb_assoc. rewrite Nat.add_succ_r. reflexivity.
Qed.

Lemma fold_min_le (zs : list Z) :
  forall z, fold_left Z.min zs z <= z /\
            forall x, In x zs -> fold_left Z.min zs z <= x.
Proof.
  induction zs as [|y zs IH]; intro z; cbn [fold_left]; [split; [lia|intros x []]|].
  destruct (IH (Z.min z y)) as [H1 H2]. split; [lia|].
  intros x [<-|Hx]; [lia|apply H2; exact Hx].
Qed.

Lemma fold_min_In (zs : list Z) :
  forall z, fold_left Z.min zs z = z \/ In (fold_left Z.min zs z) zs.
Proof.
  induction zs as [|y zs IH]; intro z; cbn [fold_left]; [left; reflexivity|].
  destruct (IH (Z.min z y)) as [H|H].
  - rewrite H. destruct (Z.min_spec z y) as [[_ E]|[_ E]]; rewrite E.
    + left. reflexivity.
    + right. left. reflexivity.
  - right. right. exact H.
Qed.

Lemma badIdx_of_le (l : list number) (z : Z) :
  In (Num z) l -> exists m, badIdx_of l = Some m /\ m <= z.
Proof.
  intro H. apply (in_map min_operand) in H. cbn [min_operand] in H.
  unfold badIdx_of. destruct (map min_operand l) as [|y zs]; [destruct H|].
  eexists. split; [reflexivity|].
  destruct (fold_min_le zs y) as [H1 H2].
  destruct H as [<-|H]; [exact H1|apply H2; exact H].
Qed.

Lemma badIdx_of_In (l : list number) (m : Z) :
  badIdx_of l = Some m -> In m (map min_operand l).
Proof.
  unfold badIdx_of. destruct (map min_operand l) as [|y zs]; [discriminate|].
  intro H. inversion H.
  destruct (fold_min_In zs y) as [E|E]; [left; symmetry; exact E|right; exact E].
Qed.

Lemma failing_idx_In (ds : list det) (i : nat) (d : det) :
  nth_error ds i = Some d -> blkVal d = false -> In (det_idx d) (failing_idx ds).
Proof.
  intros H Hf. unfold failing_idx. apply in_map. apply filter_In. split.
  - eapply nth_error_In, H.
  - rewrite Hf. reflexivity.
Qed.

Lemma failing_idx_inv (ds : list det) (n : number) :
  In n (failing_idx ds) ->
  exists i d, nth_error ds i = Some d /\ blkVal d = false /\ det_idx d = n.
Proof.
  unfold failing_idx. intro H. apply in_map_iff in H. destruct H as (d & E & H).
  apply filter_In in H. destruct H as [H Hf].
  apply In_nth_error in H. destruct H as [i Hi].
  exists i, d. split; [exact Hi|]. split; [|exact E].
  destruct (blkVal d); [discriminate Hf|reflexivity].
Qed.

Lemma find_unique {A : Type} (f : A -> bool) (l : list A) (x : A) :
  In x l -> f x = true ->
  (forall y, In y l -> f y = true -> y = x) ->
  find f l = Some x.
Proof.
  induction l as [|a l IH]; intros Hin Hf Hu; [destruct Hin|].
  cbn [find]. destruct (f a) eqn:Ea.
  - f_equal. apply Hu; [left; reflexivity|exact Ea].
  - destruct Hin as [->|Hin]; [congruence|].
    apply IH; [exact Hin|exact Hf|]. intros y Hy. apply Hu. right. exact Hy.
Qed.

(** The records of a verdict on the live chain: one for each block,
    stored under the [idx] of the block. *)
Lemma live_det_at (d : nat) (chain : list Block) (i : nat) (b : Block) :
  nth_error chain i = Some b ->
  exists dt, nth_error (dets (validateChain_of d chain)) i = Some dt /\
             det_idx dt = Num (idx b) /\
             isHashVal dt && isPowVal dt && isPrevVal dt && isIdxVal dt
             = passes (live_checks (repeat_string "0" d) chain i b) /\
             blkVal dt
             = negb (cc dt) && passes (live_checks (repeat_string "0" d) chain i b).
Proof.
  intro Hb. rewrite validateChain_of_spec. unfold verdict_of. cbn [dets].
  assert (Hc : nth_error (live_checks_list d chain) i
               = Some (live_checks (repeat_string "0" d) chain i b)).
  { rewrite live_checks_list_nth, Hb. reflexivity. }
  destruct (@dets_from_at _ false _ _ Hc) as (dt & Hdt & _).
  exists dt. split; [exact Hdt|].
  destruct (dets_from_nth _ _ _ Hdt) as (c & Hc' & E1 & E2 & E3 & E4 & E5 & E6).
  rewrite Hc in Hc'. inversion Hc'. subst c.
  split; [exact E1|]. split; [|exact E6].
  rewrite E2, E3, E4, E5. reflexivity.
Qed.

Lemma live_dets_length (d : nat) (chain : list Block) :
  List.length (dets (validateChain_of d chain)) = List.length chain.
Proof.
  rewrite validateChain_of_spec. unfold verdict_of. cbn [dets].
  rewrite dets_from_length. unfold live_checks_list.
  apply live_checks_from_length.
Qed.

Lemma live_dets_cascade (d : nat) (chain : list Block) (i j : nat) (di dj : det) :
  (i < j)%nat ->
  nth_error (dets (validateChain_of d chain)) i = Some di ->
  nth_error (dets (validateChain_of d chain)) j = Some dj ->
  blkVal dj = true -> blkVal di = true.
Proof.
  intros Hij Hi Hj Hv. rewrite validateChain_of_spec in Hi, Hj.
  unfold verdict_of in Hi, Hj. cbn [dets] in Hi, Hj.
  destruct (blkVal di) eqn:E; [reflexivity|].
  destruct (@dets_from_cascades _ false i j di dj Hij Hi E Hj) as [_ F]. congruence.
Qed.

(** On a chain numbered by position the page finds, for each block, the
    record of that block. *)
Lemma idxInfo_get_numbered (d : nat) (chain : list Block) (i : nat) (b : Block) :
  numbered chain ->
  nth_error chain i = Some b ->
  idxInfo_get (dets (validateChain_of d chain)) (idx b)
  = nth_error (dets (validateChain_of d chain)) i.
Proof.
  intros Hn Hb. destruct (@live_det_at d chain i b Hb) as (dt & Hdt & Hk & _).
  rewrite Hdt. unfold idxInfo_get. apply find_unique.
  - apply in_rev. rewrite rev_involutive. eapply nth_error_In, Hdt.
  - rewrite Hk. cbn [number_eqb]. apply Z.eqb_refl.
  - intros y Hy Ey. apply in_rev in Hy. apply In_nth_error in Hy. destruct Hy as [j Hj].
    assert (Hjl : (j < List.length chain)%nat).
    { rewrite <- (live_dets_length d chain). apply nth_error_Some. congruence. }
    destruct (nth_error chain j) as [c|] eqn:Hc; [|apply nth_error_None in Hc; lia].
    destruct (@live_det_at d chain j c Hc) as (dj & Hdj & Hkj & _).
    rewrite Hj in Hdj. inversion Hdj. subst dj.
    rewrite Hkj in Ey. cbn [number_eqb] in Ey. apply Z.eqb_eq in Ey.
    rewrite (Hn _ _ Hb), (Hn _ _ Hc) in Ey.
    assert (j = i) by lia. subst j. congruence.
Qed.

Lemma valid_det_raises_nothing (dt : det) (p : bool) :
  isHashVal dt && isPowVal dt && isPrevVal dt && isIdxVal dt = p ->
  blkVal dt = negb (cc dt) && p ->
  blkVal dt = true ->
  raises_firstBad (Some dt) = false.
Proof.
  intros Hp Hb Hv. rewrite Hv in Hb. symmetry in Hb.
  apply andb_true_iff in Hb. destruct Hb as [Hc Hq]. subst p.
  unfold raises_firstBad, is_false, is_true. rewrite Hv.
  destruct (cc dt); [discriminate Hc|].
  destruct (isHashVal dt), (isPowVal dt), (isPrevVal dt), (isIdxVal dt);
    try discriminate Hq; reflexivity.
Qed.

(** The decision of the page on a chain numbered by position. *)
Lemma liveChain_numbered (d : nat) (chain : list Block) (i : nat) (b : Block) (dt : det) :
  numbered chain ->
  nth_error chain i = Some b ->
  nth_error (dets (validateChain_of d chain)) i = Some dt ->
  nth_error (liveChain (chain, validateChain_of d chain)) i
  = Some (mkView b (negb (blkVal dt)) (Nat.eqb i 0) (reasons_of (Some dt)) (Nat.eqb i 0)).
Proof.
  intros Hn Hb Hdt. unfold liveChain.
  rewrite (@liveChain_loop_nth _ _ chain false 0%nat i b Hb).
  rewrite (@idxInfo_get_numbered d chain i b Hn Hb), Hdt. cbn [orb Nat.add].
  f_equal. f_equal.
  - destruct (blkVal dt) eqn:Hv; cbn [is_false negb];
      [|rewrite Hv; cbn [negb]; rewrite orb_true_r; reflexivity].
    rewrite Hv. cbn [negb]. rewrite orb_false_r.
    destruct (@live_det_at d chain i b Hb) as (dt' & Hdt' & _ & Hp & Hbv).
    rewrite Hdt in Hdt'. inversion Hdt'. subst dt'.
    assert (Hcc : cc dt = false).
    { rewrite Hv in Hbv. destruct (cc dt); [discriminate Hbv|reflexivity]. }
    cbn [is_true]. rewrite Hcc, orb_false_r.
    assert (F : existsb
                  (fun x => raises_firstBad
                              (idxInfo_get (dets (validateChain_of d chain)) (idx x)))
                  (firstn i chain) = false).
    { apply not_true_is_false. intro F. apply existsb_exists in F.
      destruct F as (x & Hx & Fx). apply In_nth_error in Hx. destruct Hx as [j Hj].
      assert (Hji : (j < i)%nat).
      { assert (j < List.length (firstn i chain))%nat by (apply nth_error_Some; congruence).
        rewrite length_firstn in H. lia. }
      rewrite nth_error_firstn in Hj.
      destruct (Nat.ltb_spec j i) as [_|]; [|lia].
      destruct (@live_det_at d chain j x Hj) as (dj & Hdj & _ & Hpj & Hbj).
      rewrite (@idxInfo_get_numbered d chain j x Hn Hj), Hdj in Fx.
      rewrite (@valid_det_raises_nothing dj _ Hpj Hbj) in Fx; [discriminate Fx|].
      exact (@live_dets_cascade d chain j i dj dt Hji Hdj Hdt Hv). }
    rewrite F. cbn [orb].
    unfold at_or_after.
    destruct (badIdx_of (invBlkIdx (validateChain_of d chain))) as [m|] eqn:Em;
      [|reflexivity].
    apply Z.leb_gt. apply badIdx_of_In in Em. apply in_map_iff in Em.
    destruct Em as (n & En & Hin).
    assert (Hinv : invBlkIdx (validateChain_of d chain)
                   = failing_idx (dets (validateChain_of d chain))).
    { rewrite validateChain_of_spec. reflexivity. }
    rewrite Hinv in Hin. apply failing_idx_inv in Hin.
    destruct Hin as (j & dj & Hdj & Hfj & Hkj).
    assert (Hjl : (j < List.length chain)%nat).
    { rewrite <- (live_dets_length d chain). apply nth_error_Some. congruence. }
    destruct (nth_error chain j) as [c|] eqn:Hc; [|apply nth_error_None in Hc; lia].
    destruct (@live_det_at d chain j c Hc) as (dj' & Hdj' & Hk' & _).
    rewrite Hdj in Hdj'. inversion Hdj'. subst dj'.
    rewrite Hk' in Hkj. subst n. cbn [min_operand] in En. subst m.
    rewrite (Hn _ _ Hb), (Hn _ _ Hc).
    destruct (Nat.lt_ge_cases i j) as [Hlt|Hge]; [lia|].
    destruct (Nat.eq_dec j i) as [->|Hne]; [congruence|].
    assert (Hji : (j < i)%nat) by lia.
    pose proof (@live_dets_cascade d chain j i dj dt Hji Hdj Hdt Hv). congruence.
  - rewrite (Hn _ _ Hb). destruct i; reflexivity.
Qed.

(** A chain that validates is numbered by position. *)
Lemma valid_chain_numbered (d : nat) (chain : list Block) :
  isValid (validateChain_of d chain) = true -> numbered chain.
Proof.
  intro Hv. pose proof (proj1 (validateChain_valid_iff d chain) Hv) as Hp.
  intro i. induction i as [|i IH]; intros b Hb.
  - specialize (Hp _ _ Hb). unfold passes, live_checks in Hp.
    cbn [chk_hash chk_pow chk_prev chk_index] in Hp.
    apply andb_true_iff in Hp. destruct Hp as [_ Hp]. apply Z.eqb_eq in Hp.
    rewrite Hp. reflexivity.
  - specialize (Hp _ _ Hb). unfold passes, live_checks in Hp.
    cbn [chk_hash chk_pow chk_prev chk_index] in Hp.
    apply andb_true_iff in Hp. destruct Hp as [_ Hp].
    destruct (nth_error chain i) as [prev|] eqn:Hprev; [|discriminate Hp].
    apply Z.eqb_eq in Hp. rewrite Hp, (IH _ eq_refl). lia.
Qed.

(** The page marks every block that the validator reports.  Whatever the
    chain and its difficulty, [liveChain], given the chain with the
    verdict of [validateChain()] on it, appends one element for each
    block, in order, and the element of a block that the verdict reports
    invalid has the flag [isInv] set. *)
Theorem page_marks_every_failing_block :
  forall (d : nat) (chain : list Block),
    List.length (liveChain (chain, validateChain_of d chain)) = List.length chain /\
    forall i b dt,
      nth_error chain i = Some b ->
      nth_error (dets (validateChain_of d chain)) i = Some dt ->
      blkVal dt = false ->
      exists v, nth_error (liveChain (chain, validateChain_of d chain)) i = Some v /\
                v_blk v = b /\ v_isInv v = true.
Proof.
  intros d chain. split; [apply liveChain_loop_length|].
  intros i b dt Hb Hdt Hf. unfold liveChain.
  rewrite (@liveChain_loop_nth _ _ chain false 0%nat i b Hb).
  eexists. split; [reflexivity|]. cbn [v_blk v_isInv]. split; [reflexivity|].
  assert (Hin : In (Num (idx b)) (invBlkIdx (validateChain_of d chain))).
  { destruct (@live_det_at d chain i b Hb) as (dt' & Hdt' & Hk & _).
    rewrite Hdt in Hdt'. inversion Hdt'. subst dt'. rewrite <- Hk.
    assert (Hinv : invBlkIdx (validateChain_of d chain)
                   = failing_idx (dets (validateChain_of d chain))).
    { rewrite validateChain_of_spec. reflexivity. }
    rewrite Hinv. exact (@failing_idx_In _ i dt Hdt Hf). }
  destruct (@badIdx_of_le _ _ Hin) as (m & Em & Hm).
  rewrite Em. unfold at_or_after.
  rewrite (proj2 (Z.leb_le m (idx b)) Hm). apply orb_true_r.
Qed.

(** On the ledger of three mined blocks with the nonce of block 1 set to
    7, the page marks block 1, which fails, and block 2, which is
    cascaded. *)
Lemma page_marks_every_failing_block_witness :
  let tampered := replace_at 1 (set_nonce 7 block1) (chain bc2) in
  (exists v, nth_error (liveChain (tampered, validateChain_of 3 tampered)) 1 = Some v /\
             v_blk v = set_nonce 7 block1 /\ v_isInv v = true) /\
  (exists v, nth_error (liveChain (tampered, validateChain_of 3 tampered)) 2 = Some v /\
             v_blk v = block2 /\ v_isInv v = true).
Proof.
  cbv zeta. split.
  - eapply (proj2 (page_marks_every_failing_block 3
                     (replace_at 1 (set_nonce 7 block1) (chain bc2)))
                  1%nat (set_nonce 7 block1)).
    + vm_compute. reflexivity.
    + vm_compute. reflexivity.
    + reflexivity.
  - eapply (proj2 (page_marks_every_failing_block 3
                     (replace_at 1 (set_nonce 7 block1) (chain bc2)))
                  2%nat block2).
    + vm_compute. reflexivity.
    + vm_compute. reflexivity.
    + reflexivity.
Defined.

(** On a chain numbered by position the page marks exactly the blocks
    that the validator reports: the element of each block has [isInv] set
    if and only if the record of the block in the verdict has [blkVal]
    false; the badge [Genesis] goes to the first block alone, and the
    reasons listed are those of the record of the block. *)
Theorem page_marks_exactly_the_failing_blocks :
  forall (d : nat) (chain : list Block),
    numbered chain ->
    forall i b dt,
      nth_error chain i = Some b ->
      nth_error (dets (validateChain_of d chain)) i = Some dt ->
      exists v, nth_error (liveChain (chain, validateChain_of d chain)) i = Some v /\
                v_blk v = b /\
                v_isInv v = negb (blkVal dt) /\
                v_isGen v = Nat.eqb i 0 /\
                v_reasons v = reasons_of (Some dt).
Proof.
  intros d chain Hn i b dt Hb Hdt.
  rewrite (@liveChain_numbered d chain i b dt Hn Hb Hdt).
  eexists. split; [reflexivity|]. cbn. repeat split.
Qed.

Lemma tampered_chain_numbered :
  numbered (replace_at 1 (set_nonce 7 block1) (chain bc2)).
Proof.
  assert (E : replace_at 1 (set_nonce 7 block1) (chain bc2)
              = [block0; set_nonce 7 block1; block2]) by (vm_compute; reflexivity).
  rewrite E. intros i b H.
  destruct i as [|[|[|i]]]; cbn [nth_error] in H;
    [inversion H; reflexivity..|destruct i; discriminate H].
Qed.

Lemma page_marks_exactly_the_failing_blocks_witness :
  let tampered := replace_at 1 (set_nonce 7 block1) (chain bc2) in
  numbered tampered /\
  (exists v, nth_error (liveChain (tampered, validateChain_of 3 tampered)) 0 = Some v /\
             v_blk v = block0 /\ v_isInv v = false /\ v_isGen v = true /\
             v_reasons v = []) /\
  (exists v, nth_error (liveChain (tampered, validateChain_of 3 tampered)) 1 = Some v /\
             v_blk v = set_nonce 7 block1 /\ v_isInv v = true /\ v_isGen v = false /\
             v_reasons v = ["Hash does not match block contents"]).
Proof.
  cbv zeta. split; [exact tampered_chain_numbered|]. split.
  - refine (@page_marks_exactly_the_failing_blocks 3
              (replace_at 1 (set_nonce 7 block1) (chain bc2)) tampered_chain_numbered
              0%nat block0
              (mkDet (Num 0) true true true true true false) _ _).
    + vm_compute. reflexivity.
    + vm_compute. reflexivity.
  - refine (@page_marks_exactly_the_failing_blocks 3
              (replace_at 1 (set_nonce 7 block1) (chain bc2)) tampered_chain_numbered
              1%nat (set_nonce 7 block1)
              (mkDet (Num 1) false true true true false false) _ _).
    + vm_compute. reflexivity.
    + vm_compute. reflexivity.
Defined.

(** The page shows a ledger of the server without a mark.  For a ledger
    whose chain validates, as every ledger built by the constructor and
    extended by mining does, [liveChain] on the answer of [GET /api/chain]
    appends one element for each block, none with [isInv] set and none
    with a reason, and the first one alone as genesis. *)
Theorem page_shows_a_valid_ledger_unmarked :
  forall (bc : Blockchain),
    isValid (validateChain bc) = true ->
    List.length (liveChain (api_chain bc)) = List.length (chain bc) /\
    forall i v,
      nth_error (liveChain (api_chain bc)) i = Some v ->
      nth_error (chain bc) i = Some (v_blk v) /\
      v_isInv v = false /\ v_reasons v = [] /\
      v_isGen v = Nat.eqb i 0 /\ v_gen_class v = Nat.eqb i 0.
Proof.
  intros bc Hv. unfold api_chain, validateChain in *.
  split; [apply liveChain_loop_length|].
  intros i v Hi.
  assert (Hil : (i < List.length (chain bc))%nat).
  { rewrite <- (liveChain_loop_length
                  (idxInfo_get (dets (validateChain_of (diff bc) (chain bc))))
                  (badIdx_of (invBlkIdx (validateChain_of (diff bc) (chain bc))))
                  (chain bc) false 0).
    apply nth_error_Some. unfold liveChain in Hi. congruence. }
  destruct (nth_error (chain bc) i) as [b|] eqn:Hb; [|apply nth_error_None in Hb; lia].
  destruct (@live_det_at (diff bc) (chain bc) i b Hb) as (dt & Hdt & _ & Hp & Hbv).
  rewrite (@liveChain_numbered (diff bc) (chain bc) i b dt (@valid_chain_numbered _ _ Hv) Hb Hdt) in Hi.
  inversion Hi. cbn [v_blk v_isInv v_isGen v_reasons v_gen_class].
  pose proof Hv as Hs. rewrite validateChain_of_spec in Hs.
  apply valid_verdict_shape in Hs. destruct Hs as [_ Hs].
  rewrite <- validateChain_of_spec in Hs.
  rewrite Forall_forall in Hs.
  destruct (Hs dt (nth_error_In _ _ Hdt)) as [Hbt Hct].
  pose proof (@valid_det_raises_nothing dt _ Hp Hbv Hbt) as Hr.
  unfold raises_firstBad, is_false, is_true in Hr.
  repeat (apply orb_false_iff in Hr; destruct Hr as [Hr ?]).
  split; [reflexivity|]. split; [rewrite Hbt; reflexivity|].
  split; [|split; reflexivity].
  unfold reasons_of, is_false, is_true.
  rewrite Hct.
  repeat match goal with H : negb _ = false |- _ => rewrite H; clear H end.
  reflexivity.
Qed.

Lemma page_shows_a_valid_ledger_unmarked_witness :
  List.length (liveChain (api_chain bc2)) = List.length (chain bc2).
Proof.
  apply (page_shows_a_valid_ledger_unmarked bc2). vm_compute. reflexivity.
Defined.
